(** * Emmet document-structure helpers ([extensions/emmet/src/util.ts])

    A shallow embedding of the node locator, the sibling-range collector,
    the template-aware node resolution and the partial stylesheet
    extractor, together with the properties claimed for them (Part II),
    and of the other helpers of the module (the last non-comment leaf, the
    word selection, quotes and path names, the language modes, the token
    walk and the state of the module) with further properties of the
    code (Part III). *)

From Stdlib Require Import ZArith Lia Bool List Ascii String.
From stdpp Require Import base option list gmap strings.

Set Warnings "-register-all,-abstract-large-number".

Local Open Scope string_scope.
Local Open Scope list_scope.
Local Open Scope Z_scope.
Local Open Scope nat_scope.

(* ===================================================================== *)
(** * Part I: the embedding                                               *)
(* ===================================================================== *)

(** ** Positions ([vscode.Position])

    A position is a zero-based (line, character) pair.  The comparison
    methods are those of the editor API: the line is compared first, the
    character second. *)

Record Position : Type := mkPosition { line : nat; character : nat }.

#[global] Instance Position_eq_dec : EqDecision Position.
Proof. solve_decision. Defined.

Definition isBefore (p q : Position) : bool :=
  (line p <? line q) || ((line p =? line q) && (character p <? character q)).

Definition isBeforeOrEqual (p q : Position) : bool :=
  (line p <? line q) || ((line p =? line q) && (character p <=? character q)).

Definition isAfter (p q : Position) : bool := negb (isBeforeOrEqual p q).

Definition isAfterOrEqual (p q : Position) : bool := negb (isBefore p q).

Definition isEqual (p q : Position) : bool :=
  (line p =? line q) && (character p =? character q).

(** ** Syntax trees of the Emmet parsers ([EmmetNode])

    [Node] carries the fields that [util.ts] reads.  [firstChild] and
    [nextSibling] are the head and the tail of the [children] list that
    holds a node; the [parent] back-reference is recovered from the path
    that leads to a node (see [Loc] below). *)

Record Token : Type := mkToken { tok_start : Position; tok_end : Position }.

(** An attribute of a tag; the value is missing when the attribute is
    written without one, as in [<script type>]. *)
Record Attribute : Type :=
  mkAttribute { attr_name : string; attr_value : option string }.

Inductive Node : Type :=
  mkNode (n_start n_end : Position)
         (n_type : string)
         (n_name : string)
         (n_open : Token)
         (n_close : option Token)
         (n_attributes : option (list Attribute))
         (n_children : list Node).

Definition start (n : Node) : Position :=
  match n with mkNode s _ _ _ _ _ _ _ => s end.
Definition end_ (n : Node) : Position :=
  match n with mkNode _ e _ _ _ _ _ _ => e end.
Definition type (n : Node) : string :=
  match n with mkNode _ _ t _ _ _ _ _ => t end.
Definition name (n : Node) : string :=
  match n with mkNode _ _ _ x _ _ _ _ => x end.
Definition open (n : Node) : Token :=
  match n with mkNode _ _ _ _ o _ _ _ => o end.
Definition close (n : Node) : option Token :=
  match n with mkNode _ _ _ _ _ c _ _ => c end.
Definition attributes (n : Node) : option (list Attribute) :=
  match n with mkNode _ _ _ _ _ _ a _ => a end.
Definition children (n : Node) : list Node :=
  match n with mkNode _ _ _ _ _ _ _ ch => ch end.

(** Number of nodes of a tree; it bounds the iterations of every walk. *)
Fixpoint node_size (n : Node) : nat :=
  match n with
  | mkNode _ _ _ _ _ _ _ ch =>
      S ((fix sizes (l : list Node) : nat :=
            match l with
            | [] => 0
            | c :: r => node_size c + sizes r
            end) ch)
  end.

Definition nodes_size (l : list Node) : nat :=
  fold_right (fun c acc => node_size c + acc) 0 l.

(** ** The node locator ([getNode])

    The test of the [if] inside the loop. *)
Definition containsPosition (position : Position) (includeNodeBoundary : bool)
    (currentNode : Node) : bool :=
  let nodeStart := start currentNode in
  let nodeEnd := end_ currentNode in
  (isBefore nodeStart position && isAfter nodeEnd position)
  || (includeNodeBoundary
      && (isBeforeOrEqual nodeStart position && isAfterOrEqual nodeEnd position)).

(** The [while (currentNode)] loop.  [currentNode] is represented by the
    sibling chain that starts at it ([[]] is the null node), so that
    [currentNode.firstChild] is [children n] and [currentNode.nextSibling]
    is the tail.  The outer [None] means that the iteration budget ran
    out. *)
Fixpoint getNode_loop (fuel : nat) (position : Position) (includeNodeBoundary : bool)
    (currentNode : list Node) (foundNode : option Node) : option (option Node) :=
  match currentNode with
  | [] => Some foundNode
  | n :: nextSibling =>
      match fuel with
      | O => None
      | S fuel' =>
          if containsPosition position includeNodeBoundary n
          then getNode_loop fuel' position includeNodeBoundary (children n) (Some n)
          else getNode_loop fuel' position includeNodeBoundary nextSibling foundNode
      end
  end.

Definition getNode (root : option Node) (position : Position)
    (includeNodeBoundary : bool) : option Node :=
  match root with
  | None => None
  | Some r =>
      match getNode_loop (node_size r) position includeNodeBoundary (children r) None with
      | Some foundNode => foundNode
      | None => None
      end
  end.

(** Occurrence of a node at a given depth below a root (the root itself
    is at depth 0, its children are at depth 1). *)
Inductive occurs : nat -> Node -> Node -> Prop :=
  | occurs_here n : occurs 0 n n
  | occurs_below d n r c : In c (children r) -> occurs d n c -> occurs (S d) n r.

(** The markup-tree invariant: every child's span lies inside its parent's. *)
Definition spanInside (c p : Node) : bool :=
  isBeforeOrEqual (start p) (start c) && isBeforeOrEqual (end_ c) (end_ p).

Fixpoint nested (n : Node) : bool :=
  match n with
  | mkNode _ _ _ _ _ _ _ ch =>
      (fix all (l : list Node) : bool :=
         match l with
         | [] => true
         | c :: r => spanInside c n && nested c && all r
         end) ch
  end.

(** Some node strictly below [n] contains the position. *)
Fixpoint containsBelow (position : Position) (incl : bool) (n : Node) : bool :=
  match n with
  | mkNode _ _ _ _ _ _ _ ch =>
      (fix any (l : list Node) : bool :=
         match l with
         | [] => false
         | c :: r =>
             containsPosition position incl c || containsBelow position incl c || any r
         end) ch
  end.

(** Ties between siblings are harmless: when two siblings both contain
    the position, nothing below the later one contains it.  [seen] tells
    whether an earlier sibling contains the position. *)
Fixpoint laterShallow (position : Position) (incl : bool) (seen : bool)
    (l : list Node) : bool :=
  match l with
  | [] => true
  | c :: r =>
      if containsPosition position incl c
      then (negb seen || negb (containsBelow position incl c))
           && laterShallow position incl true r
      else laterShallow position incl seen r
  end.

Fixpoint firstSiblingWins (position : Position) (incl : bool) (n : Node) : bool :=
  match n with
  | mkNode _ _ _ _ _ _ _ ch =>
      laterShallow position incl false ch
      && (fix all (l : list Node) : bool :=
            match l with
            | [] => true
            | c :: r => firstSiblingWins position incl c && all r
            end) ch
  end.

(** Trees in document order: siblings follow each other without
    overlapping (they may touch), and below the top level every child
    starts after its parent starts. *)
Fixpoint orderedSiblings (l : list Node) : bool :=
  match l with
  | [] => true
  | a :: r =>
      forallb (fun x => isBeforeOrEqual (end_ a) (start x)) r && orderedSiblings r
  end.

Fixpoint orderedTree (n : Node) : bool :=
  match n with
  | mkNode _ _ _ _ _ _ _ ch =>
      orderedSiblings ch
      && (fix all (l : list Node) : bool :=
            match l with
            | [] => true
            | c :: r => orderedTree c && all r
            end) ch
  end.

Fixpoint startsInside (n : Node) : bool :=
  match n with
  | mkNode _ _ _ _ _ _ _ ch =>
      (fix all (l : list Node) : bool :=
         match l with
         | [] => true
         | c :: r => isBefore (start n) (start c) && startsInside c && all r
         end) ch
  end.

Definition documentOrder (root : Node) : bool :=
  orderedTree root && forallb startsInside (children root).

(** What the locator is claimed to return: a proper descendant of the root
    that contains the position and is at least as deep as every other
    descendant that contains it; nothing when no descendant contains it. *)
Definition deepestContaining (root : Node) (position : Position) (incl : bool)
    (result : option Node) : Prop :=
  match result with
  | Some m =>
      exists d, occurs (S d) m root
                /\ containsPosition position incl m = true
                /\ forall d' n', occurs (S d') n' root ->
                                 containsPosition position incl n' = true -> d' <= d
  | None =>
      forall d' n', occurs (S d') n' root -> containsPosition position incl n' = false
  end.

(** ** Node references with their context

    A [Loc] is a node together with what [util.ts] reaches from it through
    [nextSibling] (the siblings that follow it, in order) and through
    [parent] (the reference to the enclosing node, absent at the top). *)

Inductive Loc : Type :=
  mkLoc (here : Node) (after : list Node) (up : option Loc).

Definition here (l : Loc) : Node := match l with mkLoc h _ _ => h end.
Definition after (l : Loc) : list Node := match l with mkLoc _ a _ => a end.
Definition parent (l : Loc) : option Loc := match l with mkLoc _ _ u => u end.

Definition nextSibling (l : Loc) : option Loc :=
  match after l with
  | [] => None
  | s :: r => Some (mkLoc s r (parent l))
  end.

(** ** The sibling-range collector ([sameNodes], [getNodesInBetween]) *)

Definition sameNodes (node1 node2 : option Loc) : bool :=
  match node1, node2 with
  | Some n1, Some n2 =>
      isEqual (start (here n1)) (start (here n2))
      && isEqual (end_ (here n1)) (end_ (here n2))
  | _, _ => false
  end.

(** [while (node1.parent && node1.parent.end.isBefore(node2.start))] *)
Fixpoint highestAncestor1 (node1 : Loc) (node2start : Position) : Loc :=
  match node1 with
  | mkLoc _ _ (Some p) =>
      if isBefore (end_ (here p)) node2start
      then highestAncestor1 p node2start
      else node1
  | mkLoc _ _ None => node1
  end.

(** [while (node2.parent && node2.parent.start.isAfter(node1.start))] *)
Fixpoint highestAncestor2 (node2 : Loc) (node1start : Position) : Loc :=
  match node2 with
  | mkLoc _ _ (Some p) =>
      if isAfter (start (here p)) node1start
      then highestAncestor2 p node1start
      else node2
  | mkLoc _ _ None => node2
  end.

(** [while (currentNode && position.isAfter(currentNode.start))], started
    at a node [h] whose following siblings are [rest]. *)
Fixpoint collectSiblings (position : Position) (h : Node) (rest : list Node)
    (up : option Loc) : list Loc :=
  if isAfter position (start h)
  then mkLoc h rest up ::
       match rest with
       | [] => []
       | s :: r => collectSiblings position s r up
       end
  else [].

Definition siblingsUpTo (node1 node2 : Loc) : list Loc :=
  collectSiblings (end_ (here node2)) (here node1) (after node1) (parent node1).

Definition getNodesInBetween (node1 node2 : Loc) : list Loc :=
  if sameNodes (Some node1) (Some node2) then [node1]
  else if negb (sameNodes (parent node1) (parent node2)) then
    if isBefore (start (here node2)) (start (here node1)) then [node2]
    else if isBefore (start (here node2)) (end_ (here node1)) then [node1]
    else
      let node1' := highestAncestor1 node1 (start (here node2)) in
      let node2' := highestAncestor2 node2 (start (here node1')) in
      siblingsUpTo node1' node2'
  else siblingsUpTo node1 node2.

(** ** Sample trees

    Nodes on line 0 that only carry a span, as used in the scenarios. *)
Definition spanNode (s e : nat) (ch : list Node) : Node :=
  mkNode (mkPosition 0 s) (mkPosition 0 e) "" ""
         (mkToken (mkPosition 0 s) (mkPosition 0 s)) None None ch.

(** Two adjacent siblings [10,20] and [20,30]; the second has a child
    that starts where its parent starts. *)
Definition adjacentA : Node := spanNode 10 20 [].
Definition adjacentD : Node := spanNode 20 25 [].
Definition adjacentC : Node := spanNode 20 30 [adjacentD].
Definition adjacentRoot : Node := spanNode 0 40 [adjacentA; adjacentC].

(** A tag with one nested tag; sibling spans are disjoint. *)
Definition disjointInner : Node := spanNode 12 18 [].
Definition disjointRoot : Node :=
  spanNode 0 40 [spanNode 0 9 []; spanNode 10 20 [disjointInner]; spanNode 21 30 []].

(** Two siblings that touch at column 20, each with a child that lies
    strictly inside it. *)
Definition touchingFirst : Node := spanNode 10 20 [spanNode 12 18 []].
Definition touchingRoot : Node :=
  spanNode 0 40 [touchingFirst; spanNode 20 30 [spanNode 22 28 []]].

(** The three siblings of the sibling-range scenario. *)
Definition siblingA : Node := spanNode 10 20 [].
Definition siblingC : Node := spanNode 20 30 [].
Definition siblingB : Node := spanNode 30 40 [].

(** ** Documents ([vscode.TextDocument])

    Modelled from the spec: the document accessor is an external
    collaborator that "exposes text by range, offset/position conversion,
    total line count, version identifier, language identifier".  A document
    is its lines of character codes (there is always at least one line);
    consecutive lines are separated by one line-feed character.  The
    code asks [lineAt] for lines of the document only, with one exception:
    the stream reader that backs up at the start of the document asks for
    the line before the first one, which a document refuses with an error
    (see [backUpRows]); here [lineAt] of a line number past the last line
    is an empty line. *)

Record TextDocument : Type := mkTextDocument {
  languageId : string;
  firstLine : list nat;
  moreLines : list (list nat)
}.

Definition docLines (d : TextDocument) : list (list nat) := firstLine d :: moreLines d.
Definition lineCount (d : TextDocument) : nat := length (docLines d).
Definition lineAt (d : TextDocument) (i : nat) : list nat := nth i (docLines d) [].

Definition lineFeed : nat := 10.

Definition endOfDocument (d : TextDocument) : Position :=
  mkPosition (lineCount d - 1) (length (lineAt d (lineCount d - 1))).

(** The API clamps a position to the document before it uses it. *)
Definition validatePosition (d : TextDocument) (p : Position) : Position :=
  if lineCount d <=? line p then endOfDocument d
  else mkPosition (line p) (Nat.min (character p) (length (lineAt d (line p)))).

(** Offset of the first character of line [l]. *)
Fixpoint lineStart (ls : list (list nat)) (l : nat) : nat :=
  match l, ls with
  | S l', x :: rest => length x + 1 + lineStart rest l'
  | _, _ => 0
  end.

Definition offsetAt (d : TextDocument) (p : Position) : nat :=
  let p' := validatePosition d p in
  lineStart (docLines d) (line p') + character p'.

Fixpoint positionFrom (ls : list (list nat)) (l : nat) (off : nat) : Position :=
  match ls with
  | [] => mkPosition l 0
  | [x] => mkPosition l (Nat.min off (length x))
  | x :: rest =>
      if off <=? length x then mkPosition l off
      else positionFrom rest (S l) (off - (length x + 1))
  end.

Definition positionAt (d : TextDocument) (offset : Z) : Position :=
  positionFrom (docLines d) 0 (Z.to_nat offset).

(** [new vscode.Range(a, b)] orders its two ends. *)
Definition mkRange (a b : Position) : Position * Position :=
  if isBefore b a then (b, a) else (a, b).

Fixpoint joinLines (ls : list (list nat)) : list nat :=
  match ls with
  | [] => []
  | [x] => x
  | x :: rest => x ++ lineFeed :: joinLines rest
  end.

Definition fullText (d : TextDocument) : list nat := joinLines (docLines d).

Definition getText (d : TextDocument) (range : Position * Position) : list nat :=
  let a := offsetAt d (fst range) in
  let b := offsetAt d (snd range) in
  firstn (b - a) (skipn a (fullText d)).

(** [String.prototype.indexOf] and [lastIndexOf] on character codes. *)
Fixpoint isPrefix (pat text : list nat) : bool :=
  match pat, text with
  | [], _ => true
  | p :: pat', t :: text' => (p =? t) && isPrefix pat' text'
  | _ :: _, [] => false
  end.

Fixpoint indexOf (pat text : list nat) : option nat :=
  if isPrefix pat text then Some 0
  else match text with
       | [] => None
       | _ :: text' => option_map S (indexOf pat text')
       end.

Fixpoint lastIndexOf (pat text : list nat) : option nat :=
  match text with
  | [] => if isPrefix pat text then Some 0 else None
  | _ :: text' =>
      match lastIndexOf pat text' with
      | Some i => Some (S i)
      | None => if isPrefix pat text then Some 0 else None
      end
  end.

(** ** Exceptions

    A call either returns a value or throws; [tryCatch] is the
    [try { ... } catch (e) { ... }] statement.  [IllegalLine] is the
    error with which a document refuses a line number that it does not
    have. *)

Inductive Exn : Type := ParseError | TypeError | IllegalLine.

Inductive Outcome (A : Type) : Type :=
  | Returned (a : A)
  | Thrown (e : Exn).
Arguments Returned {A} a.
Arguments Thrown {A} e.

Definition bind {A B : Type} (m : Outcome A) (k : A -> Outcome B) : Outcome B :=
  match m with
  | Returned a => k a
  | Thrown e => Thrown e
  end.

Definition tryCatch {A : Type} (body : Outcome A) (handler : Exn -> Outcome A) : Outcome A :=
  match body with
  | Returned a => Returned a
  | Thrown e => handler e
  end.

(** ** The stream reader ([DocumentStreamReader])

    Modelled from the spec: the stream reader of [bufferStream.ts] is "a
    bidirectional character cursor over a document with seek/peek/back-up
    operations", "constructed from a document plus an optional
    position/range window", that "exposes peek, consume-one, back-up-by-N,
    seek, and start/end-of-stream queries, all in terms of raw character
    codes".  A character code that is not a number (reading at the end of
    the stream) is [None].  Backing up goes from line to line and
    reads the length of every line that it goes back to; at the start of
    the document it asks the document for the line before the first one,
    and the document refuses that line number with an exception. *)

Record Stream : Type := mkStream {
  document : TextDocument;
  pos : Position;
  sofPosition : Position;
  eofPosition : Position
}.

Definition newStream (d : TextDocument) (p : option Position)
    (limit : option (Position * Position)) : Stream :=
  mkStream d
    (match p with Some p => p | None => mkPosition 0 0 end)
    (match limit with Some r => fst r | None => mkPosition 0 0 end)
    (match limit with Some r => snd r | None => endOfDocument d end).

Definition seek (s : Stream) (p : Position) : Stream :=
  mkStream (document s) p (sofPosition s) (eofPosition s).

Definition sof (s : Stream) : bool := isBeforeOrEqual (pos s) (sofPosition s).
Definition eof (s : Stream) : bool := isAfterOrEqual (pos s) (eofPosition s).

Definition lineLength (d : TextDocument) (row : nat) : nat :=
  if row =? lineCount d - 1 then length (lineAt d row)
  else length (lineAt d row) + 1.

(** The code at a position that is not at the end of the stream: a
    character of the line, or the line terminator just after it. *)
Definition codeAt (d : TextDocument) (p : Position) : option nat :=
  let text := lineAt d (line p) in
  if character p <? length text then nth_error text (character p)
  else nth_error [lineFeed] (character p - length text).

Definition peek (s : Stream) : option nat :=
  if eof s then None else codeAt (document s) (pos s).

Definition next (s : Stream) : option nat * Stream :=
  if eof s then (None, s)
  else
    let text := lineAt (document s) (line (pos s)) in
    let code := codeAt (document s) (pos s) in
    let s' :=
      if character (pos s) <? length text
      then seek s (mkPosition (line (pos s)) (character (pos s) + 1))
      else seek s (mkPosition (line (pos s) + 1) 0) in
    (code, if eof s' then seek s' (eofPosition s') else s').

(** The row loop of [backUp]: add line lengths until the column is no
    longer negative; the line before the first one does not exist. *)
Fixpoint backUpRows (d : TextDocument) (row : nat) (column : Z) : Outcome Position :=
  if (column <? 0)%Z then
    match row with
    | O => Thrown IllegalLine
    | S row' => backUpRows d row' (column + Z.of_nat (lineLength d row'))%Z
    end
  else Returned (mkPosition row (Z.to_nat column)).

Definition backUp (n : nat) (s : Stream) : Outcome (option nat * Stream) :=
  let n' := if n =? 0 then 1 else n in
  let column := (Z.of_nat (character (pos s)) - Z.of_nat n')%Z in
  bind (backUpRows (document s) (line (pos s)) column) (fun p =>
    let s' := seek s p in
    Returned (peek s', s')).

Definition eat (code : nat) (s : Stream) : bool * Stream :=
  match peek s with
  | Some ch => if ch =? code then (true, snd (next s)) else (false, s)
  | None => (false, s)
  end.

(** The two external parsers: each takes a stream and returns a tree, or
    throws on malformed input. *)
Definition Parser : Type := Stream -> Outcome Node.

(** ** The partial stylesheet extractor ([parsePartialStylesheet]) *)

Definition closeBrace : nat := 125.
Definition openBrace : nat := 123.
Definition slash : nat := 47.
Definition star : nat := 42.

Definition codeIs (ch : option nat) (code : nat) : bool :=
  match ch with
  | Some c => c =? code
  | None => false
  end.

(** [/\s/.test(String.fromCharCode(ch))] *)
Definition isWhitespace (ch : option nat) : bool :=
  match ch with
  | Some c =>
      let z := Z.of_nat c in
      ((9 <=? z) && (z <=? 13) || (z =? 32) || (z =? 160) || (z =? 5760)
       || (8192 <=? z) && (z <=? 8202) || (z =? 8232) || (z =? 8233)
       || (z =? 8239) || (z =? 8287) || (z =? 12288) || (z =? 65279))%Z
  | None => false
  end.

(** The variables of the function that the loops update. *)
Record Scan : Type := mkScan {
  stream : Stream;
  startPosition : Position;
  endPosition : Position;
  openBracesToFind : Z;
  currentLine : nat;
  exit : bool;
  foundSelector : bool
}.

Definition setStream (s : Stream) (sc : Scan) : Scan :=
  mkScan s (startPosition sc) (endPosition sc) (openBracesToFind sc)
         (currentLine sc) (exit sc) (foundSelector sc).
Definition setStartPosition (p : Position) (sc : Scan) : Scan :=
  mkScan (stream sc) p (endPosition sc) (openBracesToFind sc)
         (currentLine sc) (exit sc) (foundSelector sc).
Definition setOpenBracesToFind (n : Z) (sc : Scan) : Scan :=
  mkScan (stream sc) (startPosition sc) (endPosition sc) n
         (currentLine sc) (exit sc) (foundSelector sc).
Definition setCurrentLine (l : nat) (sc : Scan) : Scan :=
  mkScan (stream sc) (startPosition sc) (endPosition sc) (openBracesToFind sc)
         l (exit sc) (foundSelector sc).
Definition setExit (b : bool) (sc : Scan) : Scan :=
  mkScan (stream sc) (startPosition sc) (endPosition sc) (openBracesToFind sc)
         (currentLine sc) b (foundSelector sc).
Definition setFoundSelector (b : bool) (sc : Scan) : Scan :=
  mkScan (stream sc) (startPosition sc) (endPosition sc) (openBracesToFind sc)
         (currentLine sc) (exit sc) b.

Section PartialStylesheet.

Variable doc : TextDocument.
Variable position : Position.

Definition isCSS : bool := String.eqb (languageId doc) "css".

Definition limitCharacter : Z := (Z.of_nat (offsetAt doc position) - 5000)%Z.

Definition limitPosition : Position :=
  if (0 <? limitCharacter)%Z then positionAt doc limitCharacter
  else mkPosition 0 0.

Definition findOpeningCommentBeforePosition (p : Position) : option Position :=
  let text := getText doc (mkRange (mkPosition 0 0) p) in
  match lastIndexOf [slash; star] text with
  | None => None
  | Some offset => Some (positionAt doc (Z.of_nat offset))
  end.

Definition findClosingCommentAfterPosition (p : Position) : option Position :=
  let text := getText doc (mkRange p (endOfDocument doc)) in
  match indexOf [star; slash] text with
  | None => None
  | Some offset => Some (positionAt doc (Z.of_nat (offset + (2 + offsetAt doc p))))
  end.

Definition consumeLineCommentBackwards (sc : Scan) : Scan :=
  if negb isCSS && negb (currentLine sc =? line (pos (stream sc))) then
    let sc1 := setCurrentLine (line (pos (stream sc))) sc in
    match indexOf [slash; slash] (lineAt doc (currentLine sc1)) with
    | Some startLineComment =>
        setStream (seek (stream sc1) (mkPosition (currentLine sc1) startLineComment)) sc1
    | None => sc1
    end
  else sc.

Definition consumeBlockCommentBackwards (sc : Scan) : Outcome Scan :=
  if codeIs (peek (stream sc)) slash then
    bind (backUp 1 (stream sc)) (fun backedUp =>
      let s1 := snd backedUp in
      if codeIs (fst backedUp) star then
        Returned
          (setStream
             (seek s1 (match findOpeningCommentBeforePosition (pos s1) with
                       | Some p => p
                       | None => startPosition sc
                       end)) sc)
      else Returned (setStream (snd (next s1)) sc))
  else Returned sc.

Definition consumeCommentForwards (endPosition0 : Position) (s : Stream) : Stream :=
  let (ate, s1) := eat slash s in
  if ate then
    let (ate2, s2) := eat slash s1 in
    if ate2 && negb isCSS then seek s2 (mkPosition (line (pos s2) + 1) 0)
    else
      let (ate3, s3) := eat star s2 in
      if ate3 then
        seek s3 (match findClosingCommentAfterPosition (pos s3) with
                 | Some p => p
                 | None => endPosition0
                 end)
      else s3
  else s1.

(** Body of the forward loop. *)
Definition forwardStep (endPosition0 : Position) (s : Stream) : Stream :=
  if codeIs (peek s) slash then consumeCommentForwards endPosition0 s
  else snd (next s).

(** [while (!stream.eof() && !stream.eat(closeBrace))]; the outer [None]
    means that the iteration budget ran out. *)
Fixpoint forwardLoop (fuel : nat) (endPosition0 : Position) (s : Stream)
    : option Stream :=
  if eof s then Some s
  else
    let (ate, s1) := eat closeBrace s in
    if ate then Some s1
    else match fuel with
         | O => None
         | S fuel' => forwardLoop fuel' endPosition0 (forwardStep endPosition0 s1)
         end.

(** Condition and body of the backward loop. *)
Definition backwardCond (sc : Scan) : bool :=
  negb (exit sc) && (0 <? openBracesToFind sc)%Z && negb (sof (stream sc)).

Definition pastLimit (p : Position) : bool :=
  (100 <? Z.of_nat (line position) - Z.of_nat (line p))%Z
  || isBeforeOrEqual p limitPosition.

Definition backwardStep (sc : Scan) : Outcome Scan :=
  let sc1 := consumeLineCommentBackwards sc in
  bind (backUp 1 (stream sc1)) (fun backedUp =>
    let ch := fst backedUp in
    let sc2 := setStream (snd backedUp) sc1 in
    bind
      (if codeIs ch openBrace then
         Returned (setOpenBracesToFind (openBracesToFind sc2 - 1)%Z sc2)
       else if codeIs ch closeBrace then
         if isCSS then
           let s3 := snd (next (stream sc2)) in
           Returned (setExit true (setStartPosition (pos s3) (setStream s3 sc2)))
         else Returned (setOpenBracesToFind (openBracesToFind sc2 + 1)%Z sc2)
       else if codeIs ch slash then consumeBlockCommentBackwards sc2
       else Returned sc2)
      (fun sc3 =>
         Returned (if pastLimit (pos (stream sc3)) then setExit true sc3 else sc3))).

(** The outer [None] means that the iteration budget ran out; an
    exception ends the loop. *)
Fixpoint backwardLoop (fuel : nat) (sc : Scan) : option (Outcome Scan) :=
  if backwardCond sc then
    match fuel with
    | O => None
    | S fuel' =>
        match backwardStep sc with
        | Returned sc' => backwardLoop fuel' sc'
        | Thrown e => Some (Thrown e)
        end
    end
  else Some (Returned sc).

(** Condition and body of the loop that includes the selector. *)
Definition selectorCond (sc : Scan) : bool :=
  negb (exit sc) && negb (sof (stream sc)) && negb (foundSelector sc)
  && (0 <=? openBracesToFind sc)%Z.

Definition selectorStep (sc : Scan) : Outcome Scan :=
  let sc1 := consumeLineCommentBackwards sc in
  bind (backUp 1 (stream sc1)) (fun backedUp =>
    let ch := fst backedUp in
    let sc2 := setStream (snd backedUp) sc1 in
    if isWhitespace ch then Returned sc2
    else
      bind
        (if codeIs ch slash then consumeBlockCommentBackwards sc2
         else if codeIs ch closeBrace then
           Returned (setOpenBracesToFind (openBracesToFind sc2 + 1)%Z sc2)
         else if codeIs ch openBrace then
           Returned (setOpenBracesToFind (openBracesToFind sc2 - 1)%Z sc2)
         else if (openBracesToFind sc2 =? 0)%Z then Returned (setFoundSelector true sc2)
         else Returned sc2)
        (fun sc3 =>
           Returned (if negb (sof (stream sc3)) && foundSelector sc3
                     then setStartPosition (pos (stream sc3)) sc3
                     else sc3))).

Fixpoint selectorLoop (fuel : nat) (sc : Scan) : option (Outcome Scan) :=
  if selectorCond sc then
    match fuel with
    | O => None
    | S fuel' =>
        match selectorStep sc with
        | Returned sc' => selectorLoop fuel' sc'
        | Thrown e => Some (Thrown e)
        end
    end
  else Some (Returned sc).

(** The state on entry. *)
Definition initialScan : Scan :=
  mkScan (newStream doc (Some position) None) (mkPosition 0 0)
         (mkPosition (lineCount doc - 1) (length (lineAt doc (lineCount doc - 1))))
         1%Z (line position) false false.

(** The state in which the backward loop starts: [stream.pos = position],
    [openBracesToFind = 1], [currentLine = position.line],
    [exit = false]. *)
Definition backwardEntry (endPosition0 : Position) : Scan :=
  mkScan (newStream doc (Some position) None) (mkPosition 0 0) endPosition0
         1%Z (line position) false false.

Definition forwardScan (fuel : nat) : option Scan :=
  match forwardLoop fuel (endPosition initialScan) (stream initialScan) with
  | None => None
  | Some s =>
      Some (setStream (seek s position)
              (backwardEntry (if negb (eof s) then pos s
                              else endPosition initialScan)))
  end.

Definition backwardScan (fuel : nat) : option (Outcome Scan) :=
  match forwardScan fuel with
  | None => None
  | Some sc => backwardLoop fuel sc
  end.

(** The state in which the selector loop starts:
    [currentLine = stream.pos.line], [openBracesToFind = 0],
    [foundSelector = false]. *)
Definition selectorEntry (sc : Scan) : Scan :=
  setFoundSelector false
    (setOpenBracesToFind 0%Z (setCurrentLine (line (pos (stream sc))) sc)).

Definition selectorScan (fuel : nat) : option (Outcome Scan) :=
  match backwardScan fuel with
  | None => None
  | Some (Thrown e) => Some (Thrown e)
  | Some (Returned sc) => selectorLoop fuel (selectorEntry sc)
  end.

Variable parseStylesheet : Parser.

(** The loops run outside the [try] statement: an exception of the stream
    reader leaves the function, the exception of the parser is caught. *)
Definition parsePartialStylesheet (fuel : nat) : option (Outcome (option Node)) :=
  match selectorScan fuel with
  | None => None
  | Some (Thrown e) => Some (Thrown e)
  | Some (Returned sc) =>
      Some (tryCatch
              (bind (parseStylesheet
                       (newStream doc (Some (startPosition sc))
                          (Some (mkRange (startPosition sc) (endPosition sc)))))
                    (fun tree => Returned (Some tree)))
              (fun _ => Returned None))
  end.

End PartialStylesheet.

(** Documents written as text, for the scenarios. *)
Fixpoint codesOfString (s : string) : list nat :=
  match s with
  | EmptyString => []
  | String c s' => nat_of_ascii c :: codesOfString s'
  end.

Fixpoint splitLines (cur : list nat) (codes : list nat) : list (list nat) :=
  match codes with
  | [] => [rev cur]
  | c :: rest =>
      if c =? lineFeed then rev cur :: splitLines [] rest
      else splitLines (c :: cur) rest
  end.

Definition documentOfLines (lang : string) (ls : list (list nat)) : TextDocument :=
  match ls with
  | [] => mkTextDocument lang [] []
  | x :: rest => mkTextDocument lang x rest
  end.

Definition documentOfString (lang : string) (text : string) : TextDocument :=
  documentOfLines lang (splitLines [] (codesOfString text)).

(** ** Parsing a whole document ([isStyleSheet], [parseDocument]) *)

Definition isStyleSheet (syntax : string) : bool :=
  existsb (String.eqb syntax) ["css"; "scss"; "sass"; "less"; "stylus"].

(** The notifications shown to the user are collected next to the result. *)
Definition parseDocument (parse parseStylesheet : Parser) (doc : TextDocument)
    (showError : bool) : Outcome (option Node) * list string :=
  let parseContent := if isStyleSheet (languageId doc) then parseStylesheet else parse in
  match parseContent (newStream doc None None) with
  | Returned tree => (Returned (Some tree), [])
  | Thrown _ =>
      (Returned None,
       if showError then ["Emmet: Failed to parse the file"] else [])
  end.

(** ** Template-aware resolution on the Emmet tree ([getHtmlNode]) *)

Definition allowedMimeTypesInScriptTag : list string :=
  ["text/html"; "text/plain"; "text/x-template"; "text/template"; "text/ng-template"].

(** [attributes.some(x => x.name.toString() === 'type'
      && allowedMimeTypesInScriptTag.indexOf(x.value.toString()) > -1)]:
    the attributes are visited in order until one passes the test; on an
    attribute named [type] that has no value, [x.value.toString()] throws
    a [TypeError]. *)
Fixpoint someTemplateType (attrs : list Attribute) : Outcome bool :=
  match attrs with
  | [] => Returned false
  | x :: rest =>
      if String.eqb (attr_name x) "type" then
        match attr_value x with
        | None => Thrown TypeError
        | Some value =>
            if existsb (String.eqb value) allowedMimeTypesInScriptTag
            then Returned true
            else someTemplateType rest
        end
      else someTemplateType rest
  end.

Definition isTemplateScript (currentNode : Node) : Outcome bool :=
  if String.eqb (name currentNode) "script" then
    match attributes currentNode with
    | Some attrs => someTemplateType attrs
    | None => Returned false
    end
  else Returned false.

(** [isTemplateScript] is computed before the [try] statement, so that
    its exception leaves [getHtmlNode]; the exception of [parse] is
    caught. *)
Definition getHtmlNode (parse : Parser) (doc : TextDocument) (root : option Node)
    (position : Position) (includeNodeBoundary : bool) : Outcome (option Node) :=
  match getNode root position includeNodeBoundary with
  | None => Returned None
  | Some currentNode =>
      bind (isTemplateScript currentNode) (fun templateScript =>
        match close currentNode with
        | Some closeTag =>
            if templateScript
               && (isAfter position (tok_end (open currentNode))
                   && isBefore position (tok_start closeTag))
            then
              let buffer :=
                newStream doc (Some (tok_end (open currentNode)))
                  (Some (mkRange (tok_end (open currentNode)) (tok_start closeTag))) in
              tryCatch
                (bind (parse buffer) (fun scriptInnerNodes =>
                   match getNode (Some scriptInnerNodes) position includeNodeBoundary with
                   | Some inner => Returned (Some inner)
                   | None => Returned (Some currentNode)
                   end))
                (fun _ => Returned (Some currentNode))
            else Returned (Some currentNode)
        | None => Returned (Some currentNode)
        end)
  end.

(** ** Stylesheet lookups inside markup
    ([getCssPropertyFromDocument], [getEmbeddedCssNodeIfAny]) *)

Definition asProperty (node : option Node) : option Node :=
  match node with
  | Some n => if String.eqb (type n) "property" then Some n else None
  | None => None
  end.

Definition getCssPropertyFromDocument (parse parseStylesheet : Parser)
    (doc : TextDocument) (position : Position) : Outcome (option Node) * list string :=
  let (parsed, shown) := parseDocument parse parseStylesheet doc true in
  (bind parsed (fun rootNode =>
     let node := getNode rootNode position true in
     if isStyleSheet (languageId doc) then Returned (asProperty node)
     else
       match node with
       | Some htmlNode =>
           if String.eqb (name htmlNode) "style"
              && isBefore (tok_end (open htmlNode)) position
           then
             match close htmlNode with
             | None => Thrown TypeError
             | Some closeTag =>
                 if isAfter (tok_start closeTag) position then
                   let buffer :=
                     newStream doc (Some (start htmlNode))
                       (Some (mkRange (start htmlNode) (end_ htmlNode))) in
                   bind (parseStylesheet buffer) (fun rootNode' =>
                     Returned (asProperty (getNode (Some rootNode') position true)))
                 else Returned None
             end
           else Returned None
       | None => Returned None
       end),
   shown).

Definition getInnerRange (currentNode : Node) : option (Position * Position) :=
  match close currentNode with
  | None => None
  | Some closeTag => Some (mkRange (tok_end (open currentNode)) (tok_start closeTag))
  end.

Definition rangeContains (range : Position * Position) (p : Position) : bool :=
  isAfterOrEqual p (fst range) && isBeforeOrEqual p (snd range).

Definition getEmbeddedCssNodeIfAny (parseStylesheet : Parser) (doc : TextDocument)
    (currentNode : option Node) (position : Position) : Outcome (option Node) :=
  match currentNode with
  | None => Returned None
  | Some currentHtmlNode =>
      match close currentHtmlNode, getInnerRange currentHtmlNode with
      | Some closeTag, Some innerRange =>
          if rangeContains innerRange position
             && (String.eqb (name currentHtmlNode) "style"
                 && isBefore (tok_end (open currentHtmlNode)) position
                 && isAfter (tok_start closeTag) position)
          then
            let buffer :=
              newStream doc (Some (tok_end (open currentHtmlNode)))
                (Some (mkRange (tok_end (open currentHtmlNode)) (tok_start closeTag))) in
            bind (parseStylesheet buffer) (fun tree => Returned (Some tree))
          else Returned None
      | _, _ => Returned None
      end
  end.

(** Scenario: a template script tag with one tag in its body, on one
    line. *)
Definition templateDocument : TextDocument :=
  documentOfString "html" "<script type=text/ng-template><div></div></script>".

(** ** Trees of the markup language service

    The language service hands out mutable node objects that refer to
    each other through [children] and [parent].  The objects live in a
    store indexed by their identity, so that a node reached along two
    routes (from the parser cache and from a returned reference) is one
    object. *)

Record LSTextDocument : Type := mkLSTextDocument {
  ls_uri : string;
  ls_languageId : string;
  ls_version : Z;
  ls_text : string
}.

Record LSNode : Type := mkLSNode {
  tag : option string;
  ls_start : Z;
  ls_end : Z;
  startTagEnd : option Z;
  endTagStart : option Z;
  ls_attributes : option (gmap string (option string));
  ls_children : list nat;
  ls_parent : option nat
}.

(** [node.parent = p] and [node.children.push(c)] *)
Definition setParent (p : nat) (nd : LSNode) : LSNode :=
  mkLSNode (tag nd) (ls_start nd) (ls_end nd) (startTagEnd nd) (endTagStart nd)
           (ls_attributes nd) (ls_children nd) (Some p).
Definition pushChild (c : nat) (nd : LSNode) : LSNode :=
  mkLSNode (tag nd) (ls_start nd) (ls_end nd) (startTagEnd nd) (endTagStart nd)
           (ls_attributes nd) (ls_children nd ++ [c]) (ls_parent nd).

(** What a parse produces, before its nodes become objects. *)
Inductive LSTree : Type :=
  LSTreeNode (t_tag : option string) (t_start t_end : Z)
             (t_startTagEnd t_endTagStart : option Z)
             (t_attributes : option (gmap string (option string)))
             (t_children : list LSTree).

(** The process-wide state: the objects, the next fresh identity, and the
    single entry of the parser cache (document key, version, tree). *)
Record LSState : Type := mkLSState {
  heap : gmap nat LSNode;
  nextId : nat;
  parseCache : option (string * Z * nat)
}.

(** Creating the objects of a parsed tree: every node gets a fresh
    identity, its [children] are the identities of its sub-trees and its
    [parent] is the node above it. *)
Fixpoint allocTree (t : LSTree) (parent : option nat) (h : gmap nat LSNode) (next : nat)
    : nat * gmap nat LSNode * nat :=
  match t with
  | LSTreeNode tg s e ste ets attrs ch =>
      let '(ids, h1, n1) :=
        (fix allocChildren (l : list LSTree) (h : gmap nat LSNode) (n : nat)
           : list nat * gmap nat LSNode * nat :=
           match l with
           | [] => ([], h, n)
           | c :: r =>
               let '(i, h1, n1) := allocTree c (Some next) h n in
               let '(ids, h2, n2) := allocChildren r h1 n1 in
               (i :: ids, h2, n2)
           end) ch h (S next) in
      (next, <[next := mkLSNode tg s e ste ets attrs ids parent]> h1, n1)
  end.

Fixpoint allocList (parent : option nat) (l : list LSTree) (h : gmap nat LSNode) (n : nat)
    : list nat * gmap nat LSNode * nat :=
  match l with
  | [] => ([], h, n)
  | c :: r =>
      let '(i, h1, n1) := allocTree c parent h n in
      let '(ids, h2, n2) := allocList parent r h1 n1 in
      (i :: ids, h2, n2)
  end.

(** A node is reachable from another through [children]. *)
Inductive reach (h : gmap nat LSNode) : nat -> nat -> Prop :=
  | reach_here i : reach h i i
  | reach_child i nd c j :
      h !! i = Some nd -> In c (ls_children nd) -> reach h c j -> reach h i j.

(** Truthiness of an optional string and of an optional number. *)
Definition truthyString (s : option string) : bool :=
  match s with
  | Some x => negb (String.eqb x "")
  | None => false
  end.

Definition truthyNumber (n : option Z) : bool :=
  match n with
  | Some x => negb (x =? 0)%Z
  | None => false
  end.

(** [String.prototype.substring]: both ends are clamped to the string and
    swapped when they come in the wrong order. *)
Definition jsSubstring (s : string) (a b : Z) : string :=
  let len := Z.of_nat (String.length s) in
  let a' := Z.max 0 (Z.min a len) in
  let b' := Z.max 0 (Z.min b len) in
  let lo := Z.min a' b' in
  let hi := Z.max a' b' in
  String.substring (Z.to_nat lo) (Z.to_nat (hi - lo)) s.

Fixpoint repeatSpace (n : nat) : string :=
  match n with
  | O => EmptyString
  | S n' => String " "%char (repeatSpace n')
  end.

(** [String.prototype.charAt] *)
Definition charAt (s : string) (i : Z) : option ascii :=
  if (i <? 0)%Z then None else String.get (Z.to_nat i) s.

Definition isNodeTemplateScriptLS (node : LSNode) : bool :=
  match tag node, ls_attributes node with
  | Some t, Some attrs =>
      if String.eqb t "script" then
        match attrs !! "type" with
        | Some (Some scriptType) =>
            if String.eqb scriptType "" then false
            else
              let scriptType' :=
                jsSubstring scriptType 1 (Z.of_nat (String.length scriptType) - 1) in
              existsb (String.eqb scriptType') allowedMimeTypesInScriptTag
        | _ => false
        end
      else false
  | _, _ => false
  end.

(** A run either finishes or exhausts its budget of nested calls. *)
Inductive Fuelled (A : Type) : Type :=
  | OutOfFuel
  | Done (a : A).
Arguments OutOfFuel {A}.
Arguments Done {A} a.

Section LanguageService.

(** The language service itself is an external collaborator: its parser,
    the [findNodeAt] method of the parsed document and the
    offset conversion of its text documents are parameters. *)
Variable parseHTMLDocument : LSTextDocument -> LSTree.
Variable findNodeAt : gmap nat LSNode -> nat -> Z -> nat.
Variable lsOffsetAt : LSTextDocument -> Position -> Z.

(** Modelled from the spec: [parseMarkupDocument] of
    [parseMarkupDocument.ts] keeps "a single-entry cache of (document
    key, version) -> parsed tree.  On a request, if useCache is true and
    the cached key+version matches the requested document, return the
    cached tree; otherwise parse fresh and, if useCache, replace the
    cache entry." *)
Definition cacheHit (doc : LSTextDocument) (st : LSState) : option nat :=
  match parseCache st with
  | Some (key, version, tree) =>
      if String.eqb key (ls_uri doc) && (version =? ls_version doc)%Z
      then Some tree else None
  | None => None
  end.

Definition parseFresh (doc : LSTextDocument) (st : LSState) : nat * LSState :=
  let '(root, h, n) := allocTree (parseHTMLDocument doc) None (heap st) (nextId st) in
  (root, mkLSState h n (parseCache st)).

Definition parseMarkupDocument (doc : LSTextDocument) (useCache : bool)
    (st : LSState) : nat * LSState :=
  if useCache then
    match cacheHit doc st with
    | Some tree => (tree, st)
    | None =>
        let (root, st') := parseFresh doc st in
        (root, mkLSState (heap st') (nextId st')
                 (Some (ls_uri doc, ls_version doc, root)))
    end
  else parseFresh doc st.

(** The test that sends the resolution into the body of a template
    script. *)
Definition insideTemplateBody (currentNode : LSNode) (offset : Z) : bool :=
  isNodeTemplateScriptLS currentNode
  && truthyNumber (startTagEnd currentNode)
  && match startTagEnd currentNode with
     | Some ste => (ste <? offset)%Z
     | None => false
     end
  && (negb (truthyNumber (endTagStart currentNode))
      || match endTagStart currentNode with
         | Some ets => (offset <? ets)%Z
         | None => false
         end).

(** The text of the synthetic document: the body of the tag, moved to
    its original offset by a run of spaces. *)
Definition scriptBodyText (documentText : string) (currentNode : LSNode) : string :=
  let ste := match startTagEnd currentNode with Some x => x | None => 0%Z end in
  let beforePadding := repeatSpace (Z.to_nat ste) in
  beforePadding ++
  jsSubstring documentText ste
    (match endTagStart currentNode with
     | Some ets => ets
     | None => ls_end currentNode
     end).

Definition scriptBodyDocument (doc : LSTextDocument) (currentNode : LSNode)
    : LSTextDocument :=
  mkLSTextDocument (ls_uri doc) (ls_languageId doc) (ls_version doc)
    (scriptBodyText (ls_text doc) currentNode).

(** [scriptBodyNode.parent = currentNode;
     currentNode.children.push(scriptBodyNode)] *)
Definition splice (currentNode scriptBodyNode : nat) (st : LSState) : LSState :=
  let h1 := alter (setParent currentNode) scriptBodyNode (heap st) in
  let h2 := alter (pushChild scriptBodyNode) currentNode h1 in
  mkLSState h2 (nextId st) (parseCache st).

Fixpoint getHtmlNodeLSInternal (fuel : nat) (doc : LSTextDocument) (offset : Z)
    (isInTemplateNode : bool) (st : LSState) : Fuelled (option nat) * LSState :=
  match fuel with
  | O => (OutOfFuel, st)
  | S fuel' =>
      let useCache := negb isInTemplateNode in
      let (parsedDocument, st1) := parseMarkupDocument doc useCache st in
      let currentNode := findNodeAt (heap st1) parsedDocument offset in
      match heap st1 !! currentNode with
      | None => (Done None, st1)
      | Some node =>
          if negb (truthyString (tag node)) then (Done None, st1)
          else if insideTemplateBody node offset then
            match getHtmlNodeLSInternal fuel' (scriptBodyDocument doc node)
                    offset true st1 with
            | (OutOfFuel, st2) => (OutOfFuel, st2)
            | (Done (Some scriptBodyNode), st2) =>
                (Done (Some scriptBodyNode), splice currentNode scriptBodyNode st2)
            | (Done None, st2) => (Done (Some currentNode), st2)
            end
          else (Done (Some currentNode), st1)
      end
  end.

Definition selectionStartOffset (doc : LSTextDocument) (position : Position)
    (includeNodeBoundary : bool) : Z :=
  let documentText := ls_text doc in
  let offset := lsOffsetAt doc position in
  if includeNodeBoundary && bool_decide (charAt documentText offset = Some "<"%char)
  then (offset + 1)%Z
  else if includeNodeBoundary && bool_decide (charAt documentText offset = Some ">"%char)
  then (offset - 1)%Z
  else offset.

Definition getHtmlNodeLS (fuel : nat) (doc : LSTextDocument) (position : Position)
    (includeNodeBoundary : bool) (st : LSState) : Fuelled (option nat) * LSState :=
  getHtmlNodeLSInternal fuel doc (selectionStartOffset doc position includeNodeBoundary)
    false st.

End LanguageService.

(** The trees of the template scenario: the outer parse sees the script
    tag (columns 0 to 50, body from 30 to 41); the parse of the body sees
    the [div] tag (columns 30 to 41). *)
Definition onLine0 (c : nat) : Position := mkPosition 0 c.

Definition templateScriptNode : Node :=
  mkNode (onLine0 0) (onLine0 50) "tag" "script"
         (mkToken (onLine0 0) (onLine0 30))
         (Some (mkToken (onLine0 41) (onLine0 50)))
         (Some [mkAttribute "type" (Some "text/ng-template")]) [].

Definition templateRoot : Node :=
  mkNode (onLine0 0) (onLine0 50) "root" "" (mkToken (onLine0 0) (onLine0 0)) None None
         [templateScriptNode].

Definition templateDivNode : Node :=
  mkNode (onLine0 30) (onLine0 41) "tag" "div"
         (mkToken (onLine0 30) (onLine0 35))
         (Some (mkToken (onLine0 35) (onLine0 41))) (Some []) [].

Definition templateBodyRoot : Node :=
  mkNode (onLine0 30) (onLine0 41) "root" "" (mkToken (onLine0 30) (onLine0 30)) None None
         [templateDivNode].

Definition templateBodyParser : Parser := fun _ => Returned templateBodyRoot.





(** Scenario: a style element with a rule that has no selector,
    [<style>a{}{}</style>], with the markup tree of the document: the open
    tag spans columns 0 to 7, the body 7 to 12, the close tag 12 to 20. *)
Definition selectorlessRuleDocument : TextDocument :=
  documentOfString "html" "<style>a{}{}</style>".

Definition selectorlessRuleNode : Node :=
  mkNode (onLine0 0) (onLine0 20) "tag" "style"
         (mkToken (onLine0 0) (onLine0 7))
         (Some (mkToken (onLine0 12) (onLine0 20))) (Some []) [].

Definition selectorlessRuleRoot : Node :=
  mkNode (onLine0 0) (onLine0 20) "root" "" (mkToken (onLine0 0) (onLine0 0)) None None
         [selectorlessRuleNode].

Definition markupParserOfSelectorlessRule : Parser :=
  fun _ => Returned selectorlessRuleRoot.

(** The text between the bounds of a stream, and a stylesheet parser of
    which nothing is used but the texts that it rejects. *)
Definition windowText (s : Stream) : list nat :=
  getText (document s) (mkRange (sofPosition s) (eofPosition s)).

Fixpoint sameCodes (a b : list nat) : bool :=
  match a, b with
  | [], [] => true
  | x :: a', y :: b' => (x =? y) && sameCodes a' b'
  | _, _ => false
  end.

Definition parserRejecting (rejected : list string) : Parser :=
  fun s =>
    if existsb (fun text => sameCodes (windowText s) (codesOfString text)) rejected
    then Thrown ParseError
    else Returned (mkNode (sofPosition s) (eofPosition s) "stylesheet" ""
                          (mkToken (sofPosition s) (sofPosition s)) None None []).

Definition rejectingParser : Parser := fun _ => Thrown ParseError.

(** ** A sample language service, for the scenarios

    [sampleFindNodeAt] follows the [findNodeAt] method of the language
    service on a tree whose children are in document order: it goes down
    into the last child that starts before the offset for as long as the
    offset lies in that child. *)

Definition lastStartingBefore (h : gmap nat LSNode) (offset : Z) (ids : list nat)
    : option nat :=
  fold_left (fun acc c =>
               match h !! c with
               | Some nd => if (ls_start nd <? offset)%Z then Some c else acc
               | None => acc
               end) ids None.

Fixpoint sampleFindNodeAtFrom (fuel : nat) (h : gmap nat LSNode) (node : nat)
    (offset : Z) : nat :=
  match fuel with
  | O => node
  | S fuel' =>
      match h !! node with
      | None => node
      | Some nd =>
          match lastStartingBefore h offset (ls_children nd) with
          | Some c =>
              match h !! c with
              | Some child =>
                  if (ls_start child <? offset)%Z && (offset <=? ls_end child)%Z
                  then sampleFindNodeAtFrom fuel' h c offset
                  else node
              | None => node
              end
          | None => node
          end
      end
  end.

Definition sampleFindNodeAt (h : gmap nat LSNode) (root : nat) (offset : Z) : nat :=
  sampleFindNodeAtFrom (S (size h)) h root offset.

Definition sampleOffsetAt (doc : LSTextDocument) (p : Position) : Z :=
  Z.of_nat (character p).

Definition doubleQuote : string := String (ascii_of_nat 34) EmptyString.

(** [<script type="text/html"><p></p></script>]: the start tag ends at
    offset 25, the body is [<p></p>], the end tag starts at offset 32. *)
Definition sampleText : string :=
  "<script type=" ++ doubleQuote ++ "text/html" ++ doubleQuote ++ "><p></p></script>".

Definition sampleDocument : LSTextDocument :=
  mkLSTextDocument "file:///sample.html" "html" 1 sampleText.

Definition sampleScriptTree : LSTree :=
  LSTreeNode (Some "script") 0 41 (Some 25%Z) (Some 32%Z)
    (Some {[ "type" := Some (doubleQuote ++ "text/html" ++ doubleQuote)%string ]}) [].

Definition sampleOuterTree : LSTree :=
  LSTreeNode None 0 41 None None None [sampleScriptTree].

Definition sampleBodyTree : LSTree :=
  LSTreeNode None 0 32 None None None
    [LSTreeNode (Some "p") 25 32 (Some 28%Z) (Some 28%Z) (Some ∅) []].

(** A parser that knows the sample document and the synthetic document of
    its script body; any other text has no tags. *)
Definition sampleParser (doc : LSTextDocument) : LSTree :=
  if String.eqb (ls_text doc) sampleText then sampleOuterTree
  else if String.eqb (ls_text doc)
            (repeatSpace 25 ++ "<p></p>")%string
       then sampleBodyTree
       else LSTreeNode None 0 (Z.of_nat (String.length (ls_text doc))) None None None [].

Definition emptyState : LSState := mkLSState ∅ 0 None.

(** A document of plain text. *)
Definition plainTextDocument : LSTextDocument :=
  mkLSTextDocument "file:///plain.html" "html" 1 "hello".

(** Every object of the store was handed out before [nextId]. *)
Definition wfState (st : LSState) : Prop :=
  forall id nd, heap st !! id = Some nd -> id < nextId st.

(** The identities [n .. n'-1] are those of freshly created objects whose
    children are fresh as well; all other objects are as before. *)
Definition allocated (n n' : nat) (h h' : gmap nat LSNode) : Prop :=
  n <= n'
  /\ (forall k, k < n \/ n' <= k -> h' !! k = h !! k)
  /\ (forall k, n <= k < n' ->
        exists nd, h' !! k = Some nd
                   /\ forall c, In c (ls_children nd) -> n <= c < n').

(** The object of the sample script tag, as parsed. *)
Definition sampleScriptNode : LSNode :=
  mkLSNode (Some "script") 0 41 (Some 25%Z) (Some 32%Z)
    (Some {[ "type" := Some (doubleQuote ++ "text/html" ++ doubleQuote)%string ]})
    [] (Some 0).

(** ** Positions and offsets

    [offsetOf] is the offset of a position that lies in the document;
    [validPos] says that it does. *)
Definition validPos (d : TextDocument) (p : Position) : Prop :=
  line p < lineCount d /\ character p <= length (lineAt d (line p)).

Definition offsetOf (d : TextDocument) (p : Position) : nat :=
  lineStart (docLines d) (line p) + character p.

Definition totalLength (d : TextDocument) : nat := offsetOf d (endOfDocument d).

(** Iterations that suffice for each loop of the extractor. *)
Definition scanFuel (d : TextDocument) : nat := S (totalLength d).

(** The spec's words for the end of the block: the first closing brace,
    from the cursor on, that no opening brace after the cursor matches
    (on text without comments). *)
Fixpoint firstUnmatchedClose (depth : nat) (i : nat) (text : list nat) : option nat :=
  match text with
  | [] => None
  | c :: rest =>
      if c =? openBrace then firstUnmatchedClose (S depth) (S i) rest
      else if c =? closeBrace then
        match depth with
        | O => Some i
        | S depth' => firstUnmatchedClose depth' (S i) rest
        end
      else firstUnmatchedClose depth (S i) rest
  end.

(** The amended words for the end of the block, on the text of the
    document from the cursor on: the first closing brace that lies neither
    in a line comment (from two slashes to the end of the line, in
    dialects other than CSS) nor in a block comment (from a slash and a
    star to the next star and slash).  [i] is the offset of the first
    character of [text]; the answer is the offset of the brace. *)
Inductive ScanMode : Type := inCode | inLineComment | inBlockComment.

Fixpoint closingBraceOutsideComments (css : bool) (mode : ScanMode) (i : nat)
    (text : list nat) : option nat :=
  match text with
  | [] => None
  | c :: rest =>
      match mode with
      | inCode =>
          if c =? closeBrace then Some i
          else
            match rest with
            | [] => None
            | c2 :: rest' =>
                if (c =? slash) && (c2 =? slash) && negb css
                then closingBraceOutsideComments css inLineComment (S (S i)) rest'
                else if (c =? slash) && (c2 =? star)
                then closingBraceOutsideComments css inBlockComment (S (S i)) rest'
                else closingBraceOutsideComments css inCode (S i) rest
            end
      | inLineComment =>
          if c =? lineFeed
          then closingBraceOutsideComments css inCode (S i) rest
          else closingBraceOutsideComments css inLineComment (S i) rest
      | inBlockComment =>
          match rest with
          | [] => None
          | c2 :: rest' =>
              if (c =? star) && (c2 =? slash)
              then closingBraceOutsideComments css inCode (S (S i)) rest'
              else closingBraceOutsideComments css inBlockComment (S i) rest
          end
      end
  end.

(** The lines of a document hold no line feed: line feeds separate
    them. *)
Definition linesWithoutLineFeed (d : TextDocument) : bool :=
  forallb (forallb (fun c => negb (c =? lineFeed))) (docLines d).

(** The streams of the extractor range over the whole document. *)
Definition wholeDocument (d : TextDocument) (s : Stream) : Prop :=
  document s = d /\ sofPosition s = mkPosition 0 0 /\ eofPosition s = endOfDocument d.

(** Scenario documents. *)
Definition nestedBlockDocument : TextDocument := documentOfString "scss" "{}}".

Definition longLineDocument : TextDocument :=
  mkTextDocument "scss" (repeat 97 10000) [].

(** A single line of 10,000 characters without braces that is one block
    comment. *)
Definition commentedLineDocument : TextDocument :=
  mkTextDocument "scss" (codesOfString "/*" ++ repeat 97 9996 ++ codesOfString "*/") [].

Definition cssRulesDocument : TextDocument := documentOfString "css" "a{b}c{d".

(** The end boundary that the forward scan leaves behind when its loop
    ends with the stream [s]: [if (!stream.eof()) endPosition = stream.pos]. *)
Definition endBoundary (d : TextDocument) (s : Stream) : Position :=
  if negb (eof s) then pos s else endOfDocument d.

(** A stylesheet with a closing brace inside a block comment and another
    one inside a line comment, before the brace that ends the block. *)
Definition commentedDocument : TextDocument :=
  mkTextDocument "scss" (codesOfString "x /* } */ // }") [codesOfString " y } z"].

(** Two slashes before a closing brace, in CSS and in another dialect. *)
Definition slashesInCssDocument : TextDocument := documentOfString "css" "a//}b}".
Definition slashesInScssDocument : TextDocument := documentOfString "scss" "a//}b}".

(** ** The backward scan: invariant and variant

    While the backward loop runs, the stream stays on a position of the
    document and the start boundary is still the start of the document
    (only the strict dialect moves it, when it ends the scan at a closing
    brace). *)
Definition scanning (d : TextDocument) (sc : Scan) : Prop :=
  wholeDocument d (stream sc)
  /\ validPos d (pos (stream sc))
  /\ (startPosition sc = mkPosition 0 0 \/ (isCSS d = true /\ exit sc = true)).

(** The stream has come to a line whose line comment has not been looked
    for yet. *)
Definition lineCommentPending (d : TextDocument) (sc : Scan) : bool :=
  negb (isCSS d) && negb (currentLine sc =? line (pos (stream sc))).

(** The variant of the backward loop: the offset of the stream, or the
    offset of the end of its line while the line comment of that line is
    still to be skipped. *)
Definition backwardMeasure (d : TextDocument) (sc : Scan) : nat :=
  if lineCommentPending d sc
  then lineStart (docLines d) (line (pos (stream sc)))
       + length (lineAt d (line (pos (stream sc))))
  else offsetOf d (pos (stream sc)).

(** A document of 103 one-character lines. *)
Definition manyLinesDocument : TextDocument :=
  mkTextDocument "scss" [97] (repeat [97] 102).

(** While the backward loop runs over text without comments, the stream
    stays within 5000 characters before the cursor. *)
Definition withinCutoff (d : TextDocument) (position : Position) (sc : Scan) : Prop :=
  scanning d sc
  /\ offsetOf d (pos (stream sc)) <= offsetOf d position
  /\ line (pos (stream sc)) <= currentLine sc <= line position
  /\ offsetOf d position <= offsetOf d (pos (stream sc)) + 5000
  /\ (exit sc = false -> offsetOf d position < offsetOf d (pos (stream sc)) + 5000).

(** A document that begins with a slash. *)
Definition leadingSlashDocument : TextDocument := documentOfString "scss" "/ab".

(** ** Further scenarios for the node locator and the collector *)

(** A root with one element [[5,35]] that holds the three siblings of the
    sibling scenario. *)
Definition familyParent : Node := spanNode 5 35 [siblingA; siblingC; siblingB].
Definition familyRoot : Node := spanNode 0 40 [familyParent].

(** The references to the nodes of [l], which are followed by [rest] in
    their sibling chain, below [up]. *)
Fixpoint siblingLocs (l rest : list Node) (up : option Loc) : list Loc :=
  match l with
  | [] => []
  | x :: l' => mkLoc x (l' ++ rest) up :: siblingLocs l' rest up
  end.

(** A node whose span is not reversed, and one whose span is not empty. *)
Definition properSpan (x : Node) : bool := isBeforeOrEqual (start x) (end_ x).
Definition nonEmptySpan (x : Node) : bool := isBefore (start x) (end_ x).

(** The shape that the markup parser gives to a tag that is never
    closed: the node ends where its open tag ends.  [unclosedEndAtOpen]
    says so of every node below the given one. *)
Definition endsAtOpenTag (n : Node) : bool :=
  match close n with
  | Some _ => true
  | None => isEqual (end_ n) (tok_end (open n))
  end.

Fixpoint unclosedEndAtOpen (n : Node) : bool :=
  match n with
  | mkNode _ _ _ _ _ _ _ ch =>
      (fix all (l : list Node) : bool :=
         match l with
         | [] => true
         | c :: r => endsAtOpenTag c && unclosedEndAtOpen c && all r
         end) ch
  end.

(** Scenario: a [style] element that is never closed,
    [<style>a{color:red}], and the tree that holds it: the node is the
    open tag, columns 0 to 7. *)
Definition unclosedStyleDocument : TextDocument :=
  documentOfString "html" "<style>a{color:red}".

Definition unclosedStyleNode : Node :=
  mkNode (onLine0 0) (onLine0 7) "tag" "style"
         (mkToken (onLine0 0) (onLine0 7)) None (Some []) [].

Definition unclosedStyleRoot : Node :=
  mkNode (onLine0 0) (onLine0 19) "root" "" (mkToken (onLine0 0) (onLine0 0)) None None
         [unclosedStyleNode].

Definition markupParserOfUnclosedStyle : Parser := fun _ => Returned unclosedStyleRoot.

(** ** The last non-comment leaf ([getDeepestNode]) *)

Definition notComment (x : Node) : bool := negb (String.eqb (type x) "comment").

(** A node with no children, or with comments only, is returned as it is.
    Otherwise the [for] loop walks the children from the last one to the
    first one and returns the result for the first child it meets that is
    not a comment; [None] for a present node is the [return undefined]
    after the loop. *)
Fixpoint getDeepestNodeOf (node : Node) : option Node :=
  match node with
  | mkNode _ _ _ _ _ _ _ ch =>
      if (length ch =? 0) || negb (existsb notComment ch) then Some node
      else
        match
          (fix fromLast (l : list Node) : option (option Node) :=
             match l with
             | [] => None
             | c :: r =>
                 match fromLast r with
                 | Some result => Some result
                 | None => if notComment c then Some (getDeepestNodeOf c) else None
                 end
             end) ch
        with
        | Some result => result
        | None => None
        end
  end.

Definition getDeepestNode (node : option Node) : option Node :=
  match node with
  | None => None
  | Some n => getDeepestNodeOf n
  end.

(** The walk of the [for] loop, on its own. *)
Fixpoint lastNonComment (l : list Node) : option Node :=
  match l with
  | [] => None
  | c :: r =>
      match lastNonComment r with
      | Some x => Some x
      | None => if notComment c then Some c else None
      end
  end.

(** Scenario: a first child with a nested element, then a childless
    sibling, then a comment. *)
Definition deepBranch : Node := spanNode 1 20 [spanNode 2 19 [spanNode 3 18 []]].
Definition shallowLast : Node := spanNode 21 30 [].
Definition trailingComment : Node :=
  mkNode (onLine0 31) (onLine0 38) "comment" "" (mkToken (onLine0 31) (onLine0 38))
         None None [].

(** ** Word selection inside a property value
    ([findNextWord], [findPrevWord]) *)

(** [propertyValue[pos] === ' '] *)
Definition isSpaceAt (propertyValue : string) (pos : Z) : bool :=
  bool_decide (charAt propertyValue pos = Some " "%char).

(** The [while (pos < propertyValue.length - 1)] loop.  It ends with the
    values of [foundStart], [foundEnd], [newSelectionStart] and
    [newSelectionEnd]; the outer [None] means that the iteration budget
    ran out. *)
Fixpoint findNextWord_loop (fuel : nat) (propertyValue : string) (pos : Z)
    (foundSpace foundStart : bool) (newSelectionStart : option Z)
    : option (bool * bool * option Z * option Z) :=
  if (pos <? Z.of_nat (String.length propertyValue) - 1)%Z then
    match fuel with
    | O => None
    | S fuel' =>
        let pos := (pos + 1)%Z in
        if negb foundSpace then
          findNextWord_loop fuel' propertyValue pos
            (if isSpaceAt propertyValue pos then true else foundSpace)
            foundStart newSelectionStart
        else if foundSpace && negb foundStart && isSpaceAt propertyValue pos then
          findNextWord_loop fuel' propertyValue pos foundSpace foundStart newSelectionStart
        else if negb foundStart then
          findNextWord_loop fuel' propertyValue pos foundSpace true (Some pos)
        else if isSpaceAt propertyValue pos then
          Some (foundStart, true, newSelectionStart, Some pos)
        else
          findNextWord_loop fuel' propertyValue pos foundSpace foundStart newSelectionStart
    end
  else Some (foundStart, false, newSelectionStart, None).

Definition findNextWord (propertyValue : string) (pos : Z) : option Z * option Z :=
  let len := Z.of_nat (String.length propertyValue) in
  match findNextWord_loop (Z.to_nat (len - 1 - pos)) propertyValue pos
          (pos =? -1)%Z false None with
  | Some (foundStart, foundEnd, newSelectionStart, newSelectionEnd) =>
      if foundStart && negb foundEnd then (newSelectionStart, Some len)
      else (newSelectionStart, newSelectionEnd)
  | None => (None, None)
  end.

(** The [while (pos > -1)] loop. *)
Fixpoint findPrevWord_loop (fuel : nat) (propertyValue : string) (pos : Z)
    (foundSpace foundEnd : bool) (newSelectionEnd : option Z)
    : option (bool * bool * option Z * option Z) :=
  if (-1 <? pos)%Z then
    match fuel with
    | O => None
    | S fuel' =>
        let pos := (pos - 1)%Z in
        if negb foundSpace then
          findPrevWord_loop fuel' propertyValue pos
            (if isSpaceAt propertyValue pos then true else foundSpace)
            foundEnd newSelectionEnd
        else if foundSpace && negb foundEnd && isSpaceAt propertyValue pos then
          findPrevWord_loop fuel' propertyValue pos foundSpace foundEnd newSelectionEnd
        else if negb foundEnd then
          findPrevWord_loop fuel' propertyValue pos foundSpace true (Some (pos + 1)%Z)
        else if isSpaceAt propertyValue pos then
          Some (true, foundEnd, Some (pos + 1)%Z, newSelectionEnd)
        else
          findPrevWord_loop fuel' propertyValue pos foundSpace foundEnd newSelectionEnd
    end
  else Some (false, foundEnd, None, newSelectionEnd).

Definition findPrevWord (propertyValue : string) (pos : Z) : option Z * option Z :=
  let len := Z.of_nat (String.length propertyValue) in
  match findPrevWord_loop (Z.to_nat (pos + 1)) propertyValue pos
          (pos =? len)%Z false None with
  | Some (foundStart, foundEnd, newSelectionStart, newSelectionEnd) =>
      if foundEnd && negb foundStart then (Some 0%Z, newSelectionEnd)
      else (newSelectionStart, newSelectionEnd)
  | None => (None, None)
  end.

(** What the two searches are expected to deliver.  [spacesIn v a b] and
    [noSpaceIn v a b] speak about the indices from [a] (included) to [b]
    (excluded). *)
Definition spacesIn (v : string) (a b : Z) : Prop :=
  forall i, (a <= i < b)%Z -> isSpaceAt v i = true.
Definition noSpaceIn (v : string) (a b : Z) : Prop :=
  forall i, (a <= i < b)%Z -> isSpaceAt v i = false.

(** The first word that starts at or after index [from]: spaces up to its
    start, no space inside, and a space or the end of the string after
    it; nothing when only spaces are left. *)
Definition firstWordFrom (v : string) (from : Z) (result : option Z * option Z) : Prop :=
  let len := Z.of_nat (String.length v) in
  (result = (None, None) /\ spacesIn v from len)
  \/ exists a b, result = (Some a, Some b)
                 /\ (from <= a < b)%Z /\ (b <= len)%Z
                 /\ spacesIn v from a /\ noSpaceIn v a b
                 /\ (b = len \/ isSpaceAt v b = true).

(** The last word that ends at or before index [upto]: spaces from its
    end to [upto], no space inside, and a space or the start of the
    string before it.  When only spaces are left the range is the empty
    one at index 0. *)
Definition lastWordUpTo (v : string) (upto : Z) (result : option Z * option Z) : Prop :=
  exists a b, result = (Some a, Some b)
              /\ (0 <= a <= b)%Z /\ (b <= upto)%Z
              /\ (a < b \/ b = 0)%Z
              /\ spacesIn v b upto /\ noSpaceIn v a b
              /\ (a = 0%Z \/ isSpaceAt v (a - 1) = true).

(** ** Small string helpers ([trimQuotes], [getPathBaseName]) *)

Definition doubleQuoteChar : ascii := ascii_of_nat 34.
Definition backslash : ascii := ascii_of_nat 92.

(** A single or a double quote. *)
Definition isQuoteChar (c : ascii) : bool :=
  Ascii.eqb c "'"%char || Ascii.eqb c doubleQuoteChar.

Definition isQuote (c : option ascii) : bool :=
  match c with
  | Some c => isQuoteChar c
  | None => false
  end.

(** [s.replace(/['dq]/, '')]: the first quote of the string is removed. *)
Fixpoint removeFirstQuote (s : string) : string :=
  match s with
  | EmptyString => EmptyString
  | String c r => if isQuoteChar c then r else String c (removeFirstQuote r)
  end.

(** [s.slice(1)] and [s.slice(0, -1)] *)
Definition sliceFrom1 (s : string) : string :=
  match s with
  | EmptyString => EmptyString
  | String _ r => r
  end.

Fixpoint sliceToLast (s : string) : string :=
  match s with
  | EmptyString => EmptyString
  | String c r =>
      match r with
      | EmptyString => EmptyString
      | String _ _ => String c (sliceToLast r)
      end
  end.

Definition trimQuotes (s : string) : string :=
  if String.length s <=? 1 then removeFirstQuote s
  else
    let s1 := if isQuote (charAt s 0) then sliceFrom1 s else s in
    if isQuote (charAt s1 (Z.of_nat (String.length s1) - 1)) then sliceToLast s1 else s1.

(** [s.split(sep)] for a separator of one character: the pieces between
    the separators, at least one. *)
Fixpoint split (sep : ascii) (s : string) : list string :=
  match s with
  | EmptyString => [EmptyString]
  | String c r =>
      if Ascii.eqb c sep then EmptyString :: split sep r
      else match split sep r with
           | piece :: pieces => String c piece :: pieces
           | [] => [String c EmptyString]
           end
  end.

(** [pop()] returns the last element of an array, if there is one. *)
Definition pop (pieces : list string) : option string := last pieces.

Definition getPathBaseName (path : string) : string :=
  let pathAfterSlashSplit := pop (split "/"%char path) in
  let pathAfterBackslashSplit :=
    match pathAfterSlashSplit with
    | Some p => if negb (String.eqb p "") then pop (split backslash p) else Some ""
    | None => Some ""
    end in
  match pathAfterBackslashSplit with
  | Some name => name
  | None => ""
  end.

Fixpoint occursIn (c : ascii) (s : string) : bool :=
  match s with
  | EmptyString => false
  | String x r => Ascii.eqb x c || occursIn c r
  end.

Definition isSeparator (c : ascii) : bool :=
  Ascii.eqb c "/"%char || Ascii.eqb c backslash.

Definition separatorFree (s : string) : bool :=
  negb (occursIn "/"%char s) && negb (occursIn backslash s).

(** What is left of [s] after its last occurrence of [sep]; the whole
    string when [sep] does not occur. *)
Fixpoint afterLast (sep : ascii) (s : string) : string :=
  match s with
  | EmptyString => EmptyString
  | String c r => if occursIn sep s then afterLast sep r else s
  end.

(** ** Language modes ([LANGUAGE_MODES], [getSyntaxes], [getEmmetMode]) *)

(** Mapping between languages that support Emmet and completion trigger
    characters. *)
Definition LANGUAGE_MODES : list (string * list string) :=
  [ ("html", ["!"; "."; "}"; ":"; "*"; "$"; "]"; "0"; "1"; "2"; "3"; "4"; "5"; "6"; "7"; "8"; "9"]);
    ("jade", ["!"; "."; "}"; ":"; "*"; "$"; "]"; "0"; "1"; "2"; "3"; "4"; "5"; "6"; "7"; "8"; "9"]);
    ("slim", ["!"; "."; "}"; ":"; "*"; "$"; "]"; "0"; "1"; "2"; "3"; "4"; "5"; "6"; "7"; "8"; "9"]);
    ("haml", ["!"; "."; "}"; ":"; "*"; "$"; "]"; "0"; "1"; "2"; "3"; "4"; "5"; "6"; "7"; "8"; "9"]);
    ("xml", ["."; "}"; "*"; "$"; "]"; "0"; "1"; "2"; "3"; "4"; "5"; "6"; "7"; "8"; "9"]);
    ("xsl", ["!"; "."; "}"; "*"; "$"; "]"; "0"; "1"; "2"; "3"; "4"; "5"; "6"; "7"; "8"; "9"]);
    ("css", [":"; "-"; "0"; "1"; "2"; "3"; "4"; "5"; "6"; "7"; "8"; "9"]);
    ("scss", [":"; "-"; "0"; "1"; "2"; "3"; "4"; "5"; "6"; "7"; "8"; "9"]);
    ("sass", [":"; "0"; "1"; "2"; "3"; "4"; "5"; "6"; "7"; "8"; "9"]);
    ("less", [":"; "-"; "0"; "1"; "2"; "3"; "4"; "5"; "6"; "7"; "8"; "9"]);
    ("stylus", [":"; "0"; "1"; "2"; "3"; "4"; "5"; "6"; "7"; "8"; "9"]);
    ("javascriptreact", ["!"; "."; "}"; "*"; "$"; "]"; "0"; "1"; "2"; "3"; "4"; "5"; "6"; "7"; "8"; "9"]);
    ("typescriptreact", ["!"; "."; "}"; "*"; "$"; "]"; "0"; "1"; "2"; "3"; "4"; "5"; "6"; "7"; "8"; "9"]) ].

Record Syntaxes : Type := mkSyntaxes {
  markup : list string;
  stylesheet : list string
}.

(** List of all known syntaxes, from emmetio/emmet. *)
Definition getSyntaxes : Syntaxes :=
  mkSyntaxes ["html"; "xml"; "xsl"; "jsx"; "js"; "pug"; "slim"; "haml"]
             ["css"; "sass"; "scss"; "less"; "sss"; "stylus"].

(** [array.includes(x)] and [array.indexOf(x) > -1] on strings. *)
Definition includes (l : list string) (x : string) : bool := existsb (String.eqb x) l.

(** The regular expression
    [/\b(typescriptreact|javascriptreact|jsx-tags)\b/]: one of the three
    words occurs in the language identifier, between two word
    boundaries.  A word character is a letter, a digit or an underscore;
    there is a word boundary at an index when exactly one of the
    characters before and at the index is a word character. *)
Definition isWordChar (c : ascii) : bool :=
  let n := nat_of_ascii c in
  (48 <=? n) && (n <=? 57) || (65 <=? n) && (n <=? 90)
  || (97 <=? n) && (n <=? 122) || (n =? 95).

Definition wordCharAt (s : string) (i : Z) : bool :=
  match charAt s i with
  | Some c => isWordChar c
  | None => false
  end.

Definition wordBoundary (s : string) (i : nat) : bool :=
  xorb (wordCharAt s (Z.of_nat i - 1)) (wordCharAt s (Z.of_nat i)).

Definition reactLanguage (language : string) : bool :=
  existsb
    (fun i =>
       wordBoundary language i
       && existsb
            (fun word =>
               String.eqb (String.substring i (String.length word) language) word
               && wordBoundary language (i + String.length word))
            ["typescriptreact"; "javascriptreact"; "jsx-tags"])
    (seq 0 (S (String.length language))).

Definition getEmmetMode (language : string) (excludedLanguages : list string)
    : option string :=
  if String.eqb language "" || includes excludedLanguages language then None
  else if reactLanguage language then Some "jsx"
  else if String.eqb language "sass-indented" then Some "sass"
  else if String.eqb language "jade" then Some "pug"
  else
    let syntaxes := getSyntaxes in
    if includes (markup syntaxes) language || includes (stylesheet syntaxes) language
    then Some language
    else None.

(** ** Walking the tokens of a stylesheet ([iterateCSSToken])

    A token of the stylesheet parser holds its [size] sub-tokens, which
    [item(i)] hands out in order: they are the list [items]. *)

Inductive CssToken : Type :=
  mkCssToken (css_type : string) (css_start css_end : Position) (items : list CssToken).

Section IterateCSSToken.

(** The callback may change the state of its caller; the boolean is
    [false] when the callback returned [false]. *)
Variable St : Type.
Variable fn : CssToken -> St -> bool * St.

(** The [for] loop over [token.item(0)], ..., [token.item(size - 1)]:
    the callback first, then the sub-tokens of the item, and [false] as
    soon as either says so. *)
Fixpoint iterateCSSToken (token : CssToken) (s : St) : bool * St :=
  match token with
  | mkCssToken _ _ _ l =>
      (fix loop (rest : list CssToken) (s : St) : bool * St :=
         match rest with
         | [] => (true, s)
         | x :: rest' =>
             let (kept, s1) := fn x s in
             if negb kept then (false, s1)
             else
               let (inner, s2) := iterateCSSToken x s1 in
               if negb inner then (false, s2) else loop rest' s2
         end) l s
  end.

(** One pass over a list of tokens that stops after the first token for
    which the callback returns [false]. *)
Fixpoint visitUntilFalse (l : list CssToken) (s : St) : bool * St :=
  match l with
  | [] => (true, s)
  | x :: rest =>
      let (kept, s1) := fn x s in
      if negb kept then (false, s1) else visitUntilFalse rest s1
  end.

End IterateCSSToken.

Arguments iterateCSSToken {St} fn token s.
Arguments visitUntilFalse {St} fn l s.

(** The tokens strictly below a token, parents before their sub-tokens
    and earlier items before later ones. *)
Fixpoint descendants (token : CssToken) : list CssToken :=
  match token with
  | mkCssToken _ _ _ l =>
      (fix below (rest : list CssToken) : list CssToken :=
         match rest with
         | [] => []
         | x :: rest' => x :: descendants x ++ below rest'
         end) l
  end.

(** ** The state of the module
    ([setHomeDir], [getEmmetHelper], [getLanguageService],
    [updateEmmetExtensionsPath])

    The module keeps the lazily loaded helper, the shared language
    service, the extensions path that was handed to the helper last and
    the home directory.  The helper module and the language services are
    external collaborators: what the model keeps of them is whether the
    helper has been loaded, the calls of its [updateExtensionsPath]
    (path, root folder, home directory) and the identity of every service
    that [getLanguageServiceInternal] has created. *)

(** A value of the [extensionsPath] setting, compared with [!==]. *)
Inductive Setting : Type :=
  | SettingUndefined
  | SettingNull
  | SettingText (s : string).

#[global] Instance Setting_eq_dec : EqDecision Setting.
Proof. solve_decision. Defined.

Record ModuleState : Type := mkModuleState {
  _emmetHelper : bool;
  _languageService : option nat;
  _currentExtensionsPath : Setting;
  _homeDir : option string;
  updateExtensionsPathCalls : list (Setting * string * option string);
  servicesCreated : nat
}.

(** What [updateEmmetExtensionsPath] reads from the editor: the
    [extensionsPath] setting and the folders of the workspace. *)
Record Workspace : Type := mkWorkspace {
  extensionsPath : Setting;
  workspaceFolders : option (list string)
}.

Definition setHomeDir (homeDir : string) (st : ModuleState) : ModuleState :=
  mkModuleState (_emmetHelper st) (_languageService st) (_currentExtensionsPath st)
    (Some homeDir) (updateExtensionsPathCalls st) (servicesCreated st).

Definition updateEmmetExtensionsPath (forceRefresh : bool) (w : Workspace)
    (st : ModuleState) : ModuleState :=
  if negb (_emmetHelper st) then st
  else
    if forceRefresh || negb (bool_decide (_currentExtensionsPath st = extensionsPath w))
    then
      let st1 :=
        mkModuleState (_emmetHelper st) (_languageService st) (extensionsPath w)
          (_homeDir st) (updateExtensionsPathCalls st) (servicesCreated st) in
      match workspaceFolders w with
      | None => st1
      | Some [] => st1
      | Some (rootPath :: _) =>
          mkModuleState (_emmetHelper st1) (_languageService st1)
            (_currentExtensionsPath st1) (_homeDir st1)
            (updateExtensionsPathCalls st1 ++ [(extensionsPath w, rootPath, _homeDir st1)])
            (servicesCreated st1)
      end
    else st.

Definition getEmmetHelper (w : Workspace) (st : ModuleState) : ModuleState :=
  let st1 :=
    if negb (_emmetHelper st)
    then mkModuleState true (_languageService st) (_currentExtensionsPath st)
           (_homeDir st) (updateExtensionsPathCalls st) (servicesCreated st)
    else st in
  updateEmmetExtensionsPath false w st1.

(** [getLanguageServiceInternal] creates a new service at every call;
    the service is named by its rank among the services created. *)
Definition getLanguageServiceInternal (st : ModuleState) : nat * ModuleState :=
  (servicesCreated st,
   mkModuleState (_emmetHelper st) (_languageService st) (_currentExtensionsPath st)
     (_homeDir st) (updateExtensionsPathCalls st) (S (servicesCreated st))).

(** [options] is only told apart from its absence. *)
Definition getLanguageService (options : bool) (st : ModuleState) : nat * ModuleState :=
  if negb options then
    match _languageService st with
    | Some service => (service, st)
    | None =>
        let (service, st1) := getLanguageServiceInternal st in
        (service,
         mkModuleState (_emmetHelper st1) (Some service) (_currentExtensionsPath st1)
           (_homeDir st1) (updateExtensionsPathCalls st1) (servicesCreated st1))
    end
  else getLanguageServiceInternal st.

(** Any sequence of calls of the exported functions that touch the
    state. *)
Inductive ModuleCall : Type :=
  | CallSetHomeDir (homeDir : string)
  | CallGetEmmetHelper (w : Workspace)
  | CallGetLanguageService (options : bool)
  | CallUpdateEmmetExtensionsPath (forceRefresh : bool) (w : Workspace).

Definition runCall (c : ModuleCall) (st : ModuleState) : ModuleState :=
  match c with
  | CallSetHomeDir homeDir => setHomeDir homeDir st
  | CallGetEmmetHelper w => getEmmetHelper w st
  | CallGetLanguageService options => snd (getLanguageService options st)
  | CallUpdateEmmetExtensionsPath forceRefresh w => updateEmmetExtensionsPath forceRefresh w st
  end.

Definition runCalls (calls : list ModuleCall) (st : ModuleState) : ModuleState :=
  fold_left (fun s c => runCall c s) calls st.

(** The state of a freshly loaded module. *)
Definition initialModuleState : ModuleState :=
  mkModuleState false None SettingUndefined None [] 0.

(** ** The range handed to the stylesheet parser

    While the two backward loops run, the start boundary lies in the
    document at or before the cursor, and so does the variant of the
    loops as long as [exit] is not set. *)
Definition behindCursor (d : TextDocument) (position : Position) (sc : Scan) : Prop :=
  scanning d sc
  /\ validPos d (startPosition sc)
  /\ offsetOf d (startPosition sc) <= offsetOf d position
  /\ (exit sc = false -> backwardMeasure d sc <= offsetOf d position).

(* ===================================================================== *)
(** * Part II: properties                                                 *)
(* ===================================================================== *)

(** ** Positions: order facts *)

Lemma isBefore_lt p q :
  isBefore p q = true <->
  (line p < line q \/ (line p = line q /\ character p < character q)).
Proof.
  unfold isBefore.
  rewrite orb_true_iff, andb_true_iff, !Nat.ltb_lt, Nat.eqb_eq. tauto.
Qed.

Lemma isBeforeOrEqual_le p q :
  isBeforeOrEqual p q = true <->
  (line p < line q \/ (line p = line q /\ character p <= character q)).
Proof.
  unfold isBeforeOrEqual.
  rewrite orb_true_iff, andb_true_iff, Nat.ltb_lt, Nat.eqb_eq, Nat.leb_le. tauto.
Qed.

Lemma isAfter_gt p q : isAfter p q = true <-> isBefore q p = true.
Proof.
  unfold isAfter. rewrite negb_true_iff, <- not_true_iff_false.
  rewrite isBeforeOrEqual_le, isBefore_lt. lia.
Qed.

Lemma isAfterOrEqual_ge p q : isAfterOrEqual p q = true <-> isBeforeOrEqual q p = true.
Proof.
  unfold isAfterOrEqual. rewrite negb_true_iff, <- not_true_iff_false.
  rewrite isBeforeOrEqual_le, isBefore_lt. lia.
Qed.

Lemma isEqual_eq p q : isEqual p q = true <-> p = q.
Proof.
  unfold isEqual. rewrite andb_true_iff, !Nat.eqb_eq.
  destruct p, q; simpl. split; [intros [-> ->]; reflexivity | intros [= -> ->]; auto].
Qed.

Lemma isEqual_refl p : isEqual p p = true.
Proof. apply isEqual_eq. reflexivity. Qed.

(** Containment, read as inequalities. *)
Lemma containsPosition_spec position incl n :
  containsPosition position incl n = true <->
  (isBefore (start n) position = true /\ isBefore position (end_ n) = true)
  \/ (incl = true /\ isBeforeOrEqual (start n) position = true
      /\ isBeforeOrEqual position (end_ n) = true).
Proof.
  unfold containsPosition. cbv zeta.
  rewrite orb_true_iff, !andb_true_iff, isAfter_gt, isAfterOrEqual_ge. tauto.
Qed.

(** A node whose span lies inside another's contains only positions the
    other contains. *)
Lemma containsPosition_spanInside position incl c p :
  spanInside c p = true ->
  containsPosition position incl c = true ->
  containsPosition position incl p = true.
Proof.
  unfold spanInside. rewrite andb_true_iff, !containsPosition_spec.
  rewrite !isBeforeOrEqual_le, !isBefore_lt.
  intros [H1 H2] [H | (Hi & H)]; [left | right; split; [exact Hi|]]; lia.
Qed.

(** ** The locator *)

Lemma node_size_children n : node_size n = S (nodes_size (children n)).
Proof.
  destruct n as [s e t x o c a ch]. simpl. apply (f_equal S).
  induction ch as [|k r IH]; simpl; [reflexivity | now rewrite <- IH].
Qed.

Lemma nested_children n c :
  nested n = true -> In c (children n) -> spanInside c n = true /\ nested c = true.
Proof.
  destruct n as [s e t x o cl a ch]. simpl.
  set (p := mkNode s e t x o cl a ch). clearbody p.
  induction ch as [|k r IH]; simpl; [tauto|].
  rewrite !andb_true_iff. intros [[H1 H2] H3] [->|Hin]; auto.
Qed.

Lemma firstSiblingWins_children position incl n :
  firstSiblingWins position incl n = true ->
  laterShallow position incl false (children n) = true
  /\ forall c, In c (children n) -> firstSiblingWins position incl c = true.
Proof.
  destruct n as [s e t x o cl a ch]. simpl.
  rewrite andb_true_iff. intros [H1 H2]. split; [exact H1|]. clear H1.
  induction ch as [|k r IH]; simpl in *; [tauto|].
  apply andb_true_iff in H2 as [H2 H3]. intros c [->|Hin]; auto.
Qed.

Lemma occurs_S_inv d n r :
  occurs (S d) n r -> exists c, In c (children r) /\ occurs d n c.
Proof. inversion 1; subst; eauto. Qed.

Lemma occurs_0_inv n r : occurs 0 n r -> n = r.
Proof. inversion 1; subst; reflexivity. Qed.

Lemma occurs_leaf d n r : children r = [] -> occurs d n r -> d = 0 /\ n = r.
Proof.
  intros Hch Hocc. destruct d as [|d].
  - split; [reflexivity | now apply occurs_0_inv].
  - apply occurs_S_inv in Hocc as (c & Hin & _). rewrite Hch in Hin. destruct Hin.
Qed.

Lemma containsBelow_children position incl n c :
  containsBelow position incl n = false -> In c (children n) ->
  containsPosition position incl c = false /\ containsBelow position incl c = false.
Proof.
  destruct n as [s e t x o cl a ch]. simpl.
  induction ch as [|k r IH]; simpl; [tauto|].
  rewrite !orb_false_iff. intros [[H1 H2] H3] [->|Hin]; auto.
Qed.

(** Nothing below a node contains the position when [containsBelow] says
    so. *)
Lemma containsBelow_occurs position incl d :
  forall x n, containsBelow position incl x = false -> occurs (S d) n x ->
              containsPosition position incl n = false.
Proof.
  induction d as [|d IH]; intros x n Hx Hocc;
    apply occurs_S_inv in Hocc as (c & Hin & Hocc);
    destruct (containsBelow_children _ _ _ _ Hx Hin) as [Hc Hbelow].
  - apply occurs_0_inv in Hocc. now subst.
  - eapply IH; eauto.
Qed.

Lemma laterShallow_seen position incl l c :
  laterShallow position incl true l = true -> In c l ->
  containsPosition position incl c = true -> containsBelow position incl c = false.
Proof.
  induction l as [|k r IH]; simpl; [tauto|]. intros H [->|Hin] Hc.
  - rewrite Hc in H. simpl in H. apply andb_true_iff in H as [H _].
    now apply negb_true_iff in H.
  - destruct (containsPosition position incl k); [|auto].
    apply andb_true_iff in H as [_ H]. auto.
Qed.

(** The loop always comes to an end within [nodes_size] iterations. *)
Lemma getNode_loop_total position incl fuel :
  forall currentNode foundNode,
    nodes_size currentNode <= fuel ->
    exists r, getNode_loop fuel position incl currentNode foundNode = Some r.
Proof.
  induction fuel as [|fuel IH]; intros cur found Hsz.
  - destruct cur as [|n rest]; simpl; [eauto|].
    simpl in Hsz. rewrite node_size_children in Hsz. lia.
  - destruct cur as [|n rest]; simpl; [eauto|].
    simpl in Hsz. rewrite node_size_children in Hsz.
    destruct (containsPosition position incl n); apply IH; lia.
Qed.

(** Containment propagates upwards in a tree with nested spans. *)
Lemma occurs_contains_up position incl d n c :
  nested c = true -> occurs d n c ->
  containsPosition position incl n = true ->
  containsPosition position incl c = true.
Proof.
  intros Hn Hocc. induction Hocc as [n|d n r c Hin Hocc IH]; [auto|].
  intros Hc. destruct (nested_children _ _ Hn Hin) as [Hs Hnc].
  eapply containsPosition_spanInside; eauto.
Qed.

(** The loop invariant behind the locator: in a forest with nested spans
    in which ties between siblings are harmless, the loop ends on a
    deepest node that contains the position, or leaves [foundNode] as it
    was when no node of the forest contains it. *)
Lemma getNode_loop_deepest position incl fuel :
  forall currentNode foundNode res,
    (forall c, In c currentNode ->
               nested c = true /\ firstSiblingWins position incl c = true) ->
    laterShallow position incl false currentNode = true ->
    getNode_loop fuel position incl currentNode foundNode = Some res ->
    (res = foundNode
     /\ forall c d n, In c currentNode -> occurs d n c ->
                      containsPosition position incl n = false)
    \/ (exists m d c, res = Some m /\ In c currentNode /\ occurs d m c
                      /\ containsPosition position incl m = true
                      /\ forall c' d' n', In c' currentNode -> occurs d' n' c' ->
                           containsPosition position incl n' = true -> d' <= d).
Proof.
  induction fuel as [|fuel IH]; intros cur found res Hwf Hone Hrun.
  - destruct cur as [|n rest]; simpl in Hrun; [|discriminate].
    injection Hrun as <-. left. split; [reflexivity|]. intros c d n [].
  - destruct cur as [|n rest]; simpl in Hrun.
    { injection Hrun as <-. left. split; [reflexivity|]. intros c d n []. }
    destruct (Hwf n (or_introl eq_refl)) as [Hnn Hun].
    destruct (firstSiblingWins_children _ _ _ Hun) as [Hone_n Hun_ch].
    simpl in Hone.
    destruct (containsPosition position incl n) eqn:Hn.
    + (* dig deeper *)
      assert (Hrest : forall c' d' n', In c' rest -> occurs d' n' c' ->
                        containsPosition position incl n' = true -> d' = 0).
      { intros c' d' n' Hin Hocc Hc.
        assert (Hc' : containsPosition position incl c' = true).
        { eapply occurs_contains_up; eauto. apply Hwf. now right. }
        pose proof (laterShallow_seen _ _ _ _ Hone Hin Hc') as Hshallow.
        destruct d' as [|d']; [reflexivity|].
        rewrite (containsBelow_occurs _ _ _ _ _ Hshallow Hocc) in Hc. discriminate. }
      apply IH in Hrun; [|intros c Hc; split;
                           [apply (nested_children n c Hnn Hc) | auto] | auto].
      right. destruct Hrun as [[-> Hnone] | (m & d & c & -> & Hin & Hocc & Hm & Hmax)].
      * exists n, 0, n. repeat split; [now left | constructor | exact Hn |].
        intros c' d' n' [<-|Hin] Hocc Hc.
        -- inversion Hocc; subst; [lia|].
           match goal with
           | H1 : In ?k (children n), H2 : occurs _ n' ?k |- _ =>
               rewrite (Hnone _ _ _ H1 H2) in Hc
           end. discriminate.
        -- rewrite (Hrest _ _ _ Hin Hocc Hc). lia.
      * exists m, (S d), n. repeat split; [now left | econstructor; eauto | exact Hm |].
        intros c' d' n' [<-|Hin'] Hocc' Hc.
        -- inversion Hocc'; subst; [lia|].
           match goal with
           | H1 : In ?k (children n), H2 : occurs _ n' ?k |- _ =>
               specialize (Hmax _ _ _ H1 H2 Hc)
           end. lia.
        -- rewrite (Hrest _ _ _ Hin' Hocc' Hc). lia.
    + (* next sibling *)
      assert (Hhead : forall d' n', occurs d' n' n ->
                        containsPosition position incl n' = false).
      { intros d' n' Hocc.
        destruct (containsPosition position incl n') eqn:Hc; [|reflexivity].
        rewrite (occurs_contains_up _ _ _ _ _ Hnn Hocc Hc) in Hn. discriminate. }
      apply IH in Hrun; [|intros c Hc; apply Hwf; now right | exact Hone].
      destruct Hrun as [[-> Hnone] | (m & d & c & -> & Hin & Hocc & Hm & Hmax)].
      * left. split; [reflexivity|]. intros c d n' [<-|Hin] Hocc; eauto.
      * right. exists m, d, c. repeat split; [now right | exact Hocc | exact Hm |].
        intros c' d' n' [<-|Hin'] Hocc' Hc; [|eauto].
        rewrite (Hhead _ _ Hocc') in Hc. discriminate.
Qed.

(** Trees in document order resolve every tie: two siblings can only
    both contain a position where the earlier one ends and the later one
    starts, and everything below the later one starts after that. *)
Lemma Node_nested_ind (P : Node -> Prop) :
  (forall s e t x o cl a ch, Forall P ch -> P (mkNode s e t x o cl a ch)) ->
  forall n, P n.
Proof.
  intros H. fix IH 1. intros [s e t x o cl a ch]. apply H.
  induction ch as [|c r IHr]; constructor; [apply IH | exact IHr].
Qed.

Lemma startsInside_children n c :
  startsInside n = true -> In c (children n) ->
  isBefore (start n) (start c) = true /\ startsInside c = true.
Proof.
  destruct n as [s e t x o cl a ch]. simpl.
  induction ch as [|k r IH]; simpl; [tauto|].
  rewrite !andb_true_iff. intros [[H1 H2] H3] [->|Hin]; auto.
Qed.

Lemma isBefore_trans p q r :
  isBefore p q = true -> isBefore q r = true -> isBefore p r = true.
Proof. rewrite !isBefore_lt. lia. Qed.

Lemma startsInside_occurs d :
  forall x n, startsInside x = true -> occurs (S d) n x ->
              isBefore (start x) (start n) = true.
Proof.
  induction d as [|d IH]; intros x n Hx Hocc;
    apply occurs_S_inv in Hocc as (c & Hin & Hocc);
    destruct (startsInside_children _ _ Hx Hin) as [Hb Hc].
  - apply occurs_0_inv in Hocc. now subst.
  - eapply isBefore_trans; [exact Hb | eapply IH; eauto].
Qed.

Lemma containsBelow_false_intro position incl n :
  (forall d n', occurs (S d) n' n -> containsPosition position incl n' = false) ->
  containsBelow position incl n = false.
Proof.
  induction n as [s e t x o cl a ch IH] using Node_nested_ind. intros Hnone.
  set (p := mkNode s e t x o cl a ch) in *.
  assert (Hgen : forall l, (forall y, In y l -> In y ch) ->
             (fix any (l : list Node) : bool :=
                match l with
                | [] => false
                | c :: r => containsPosition position incl c
                            || containsBelow position incl c || any r
                end) l = false).
  { induction l as [|c r IHl]; intros Hl; [reflexivity|].
    assert (Hc : In c ch) by (apply Hl; now left).
    rewrite IHl by (intros y Hy; apply Hl; now right).
    rewrite (Hnone 0 c) by (econstructor; [exact Hc | constructor]).
    rewrite List.Forall_forall in IH. rewrite (IH c Hc); [reflexivity|].
    intros d n' Hocc. apply (Hnone (S d)). econstructor; [exact Hc | exact Hocc]. }
  simpl. apply Hgen. intros y Hy. exact Hy.
Qed.

Lemma shallow_after_tie position incl a x :
  startsInside x = true ->
  containsPosition position incl a = true ->
  containsPosition position incl x = true ->
  isBeforeOrEqual (end_ a) (start x) = true ->
  containsBelow position incl x = false.
Proof.
  intros Hx Ha Hcx Hord. apply containsBelow_false_intro. intros d n Hocc.
  pose proof (startsInside_occurs d x n Hx Hocc) as Hstart.
  destruct (containsPosition position incl n) eqn:Hn; [|reflexivity]. exfalso.
  apply containsPosition_spec in Ha, Hcx, Hn.
  rewrite !isBefore_lt, !isBeforeOrEqual_le in *. lia.
Qed.

Lemma laterShallow_ordered position incl l :
  (forall x, In x l -> startsInside x = true) ->
  orderedSiblings l = true ->
  forall seen,
    (seen = true ->
     exists a, containsPosition position incl a = true
               /\ forall x, In x l -> isBeforeOrEqual (end_ a) (start x) = true) ->
    laterShallow position incl seen l = true.
Proof.
  induction l as [|c r IH]; intros Hin Hord seen Hseen; [reflexivity|].
  simpl in Hord. apply andb_true_iff in Hord as [Hc Hr].
  rewrite forallb_forall in Hc. simpl.
  destruct (containsPosition position incl c) eqn:Hcc.
  - apply andb_true_iff. split.
    + destruct seen; [|reflexivity]. simpl.
      destruct (Hseen eq_refl) as (a & Ha & Hbefore).
      apply negb_true_iff.
      apply (shallow_after_tie position incl a c); auto; [apply Hin | apply Hbefore];
        now left.
    + apply IH; [intros x Hx; apply Hin; now right | exact Hr|].
      intros _. exists c. split; [exact Hcc | exact Hc].
  - apply IH; [intros x Hx; apply Hin; now right | exact Hr|].
    intros Hs. destruct (Hseen Hs) as (a & Ha & Hbefore).
    exists a. split; [exact Ha|]. intros x Hx. apply Hbefore. now right.
Qed.

Lemma orderedTree_children n :
  orderedTree n = true ->
  orderedSiblings (children n) = true
  /\ forall c, In c (children n) -> orderedTree c = true.
Proof.
  destruct n as [s e t x o cl a ch]. simpl.
  rewrite andb_true_iff. intros [H1 H2]. split; [exact H1|]. clear H1.
  induction ch as [|k r IH]; simpl in *; [tauto|].
  apply andb_true_iff in H2 as [H2 H3]. intros c [->|Hin]; auto.
Qed.

Lemma firstSiblingWins_intro position incl n :
  laterShallow position incl false (children n) = true ->
  (forall c, In c (children n) -> firstSiblingWins position incl c = true) ->
  firstSiblingWins position incl n = true.
Proof.
  destruct n as [s e t x o cl a ch]. simpl. intros H1 H2.
  rewrite H1. simpl. clear H1. induction ch as [|k r IH]; [reflexivity|].
  rewrite (H2 k) by now left. simpl. apply IH.
  intros c Hc. apply H2. now right.
Qed.

Lemma orderedTree_firstSiblingWins position incl n :
  orderedTree n = true ->
  (forall c, In c (children n) -> startsInside c = true) ->
  firstSiblingWins position incl n = true.
Proof.
  induction n as [s e t x o cl a ch IH] using Node_nested_ind. intros Hord Hstarts.
  destruct (orderedTree_children _ Hord) as [Hsib Hch].
  apply firstSiblingWins_intro.
  - apply laterShallow_ordered; [exact Hstarts | exact Hsib | discriminate].
  - intros c Hc. rewrite List.Forall_forall in IH. apply IH; [exact Hc | now apply Hch|].
    intros c' Hc'. now apply (startsInside_children c c' (Hstarts c Hc)).
Qed.

(** In particular, ties are harmless in every tree in document order. *)
Lemma documentOrder_firstSiblingWins position incl root :
  documentOrder root = true -> firstSiblingWins position incl root = true.
Proof.
  unfold documentOrder. rewrite andb_true_iff, forallb_forall. intros [Hord Hstarts].
  now apply orderedTree_firstSiblingWins.
Qed.

(** C1 (as amended).  In a tree whose spans are nested and in which ties
    between siblings are harmless (when two siblings both contain the
    position, nothing below the later one contains it), [getNode] returns
    a deepest node that contains the position (strictly, or up to the
    boundaries when [includeNodeBoundary] is set), and nothing when no
    node contains it; it also returns nothing for a root without children
    and for a missing root. *)
Theorem getNode_deepest (root : Node) (position : Position) (incl : bool) :
  nested root = true ->
  firstSiblingWins position incl root = true ->
  deepestContaining root position incl (getNode (Some root) position incl)
  /\ (children root = [] -> getNode (Some root) position incl = None)
  /\ getNode None position incl = None.
Proof.
  intros Hn Hu.
  destruct (firstSiblingWins_children _ _ _ Hu) as [Hone Huch].
  assert (Hwf : forall c, In c (children root) ->
                  nested c = true /\ firstSiblingWins position incl c = true).
  { intros c Hc. split; [apply (nested_children root c Hn Hc) | auto]. }
  unfold getNode.
  destruct (getNode_loop_total position incl (node_size root) (children root) None)
    as [res Hres].
  { rewrite node_size_children. lia. }
  rewrite Hres. split; [|split; [|reflexivity]].
  - destruct (getNode_loop_deepest _ _ _ _ _ _ Hwf Hone Hres)
      as [[-> Hnone] | (m & d & c & -> & Hin & Hocc & Hm & Hmax)]; simpl.
    + intros d' n' Hocc. inversion Hocc; subst. eauto.
    + exists d. repeat split; [econstructor; eauto | exact Hm |].
      intros d' n' Hocc' Hc. inversion Hocc'; subst. eauto.
  - intros Hch. rewrite Hch in Hres. destruct (node_size root); simpl in Hres; congruence.
Qed.

Lemma getNode_deepest_witness :
  getNode (Some disjointRoot) (mkPosition 0 15) false = Some disjointInner
  /\ deepestContaining disjointRoot (mkPosition 0 15) false
       (getNode (Some disjointRoot) (mkPosition 0 15) false)
  /\ getNode (Some touchingRoot) (mkPosition 0 20) true = Some touchingFirst
  /\ deepestContaining touchingRoot (mkPosition 0 20) true
       (getNode (Some touchingRoot) (mkPosition 0 20) true).
Proof.
  split; [reflexivity|]. split; [|split; [reflexivity|]].
  - apply (getNode_deepest disjointRoot (mkPosition 0 15) false); reflexivity.
  - apply (getNode_deepest touchingRoot (mkPosition 0 20) true); reflexivity.
Defined.

(** C1 as stated fails for some trees: with [includeNodeBoundary] set and
    the position on the common boundary of two adjacent siblings, the walk
    settles on the first sibling although the second one has a deeper node
    that contains the position (a child that starts where its parent
    starts). *)
Lemma getNode_not_deepest :
  nested adjacentRoot = true
  /\ orderedTree adjacentRoot = true
  /\ getNode (Some adjacentRoot) (mkPosition 0 20) true = Some adjacentA
  /\ ~ deepestContaining adjacentRoot (mkPosition 0 20) true
         (getNode (Some adjacentRoot) (mkPosition 0 20) true).
Proof.
  split; [reflexivity|]. split; [reflexivity|]. split; [reflexivity|].
  change (getNode (Some adjacentRoot) (mkPosition 0 20) true) with (Some adjacentA).
  intros (d & Hocc & _ & Hmax).
  assert (Hd : d = 0).
  { apply occurs_S_inv in Hocc as (c & Hin & Hc).
    simpl in Hin. destruct Hin as [<-|[<-|[]]].
    - now apply occurs_leaf in Hc.
    - destruct d as [|d]; [apply occurs_0_inv in Hc; discriminate|].
      apply occurs_S_inv in Hc as (c & Hin & Hc).
      simpl in Hin. destruct Hin as [<-|[]].
      apply occurs_leaf in Hc as [_ Hc]; [discriminate | reflexivity]. }
  subst d.
  assert (H2 : occurs 2 adjacentD adjacentRoot).
  { apply occurs_below with (c := adjacentC); [simpl; auto|].
    apply occurs_below with (c := adjacentD); [simpl; auto | constructor]. }
  specialize (Hmax 1 adjacentD H2 eq_refl). lia.
Qed.

(** ** The sibling-range collector *)

(** C2 (as amended).  For three siblings A = [10,20], C = [20,30] and
    B = [30,40], in this order and whatever encloses them,
    [getNodesInBetween A B] is the sequence A, C, B: B's start is before
    B's end, so the collecting loop takes B as well. *)
Theorem getNodesInBetween_siblings (up : option Loc) :
  getNodesInBetween (mkLoc siblingA [siblingC; siblingB] up) (mkLoc siblingB [] up)
  = [ mkLoc siblingA [siblingC; siblingB] up;
      mkLoc siblingC [siblingB] up;
      mkLoc siblingB [] up ].
Proof.
  unfold getNodesInBetween. simpl sameNodes at 1. cbv iota.
  destruct up as [p|].
  - assert (Hs : sameNodes (Some p) (Some p) = true).
    { unfold sameNodes. now rewrite !isEqual_refl. }
    simpl parent. rewrite Hs. reflexivity.
  - reflexivity.
Qed.

(** C2 as stated fails: the result is not the two-element sequence A, C. *)
Lemma getNodesInBetween_siblings_not_AC :
  map here (getNodesInBetween (mkLoc siblingA [siblingC; siblingB] None)
                              (mkLoc siblingB [] None))
  <> [siblingA; siblingC].
Proof. vm_compute. discriminate. Qed.

(** ** Template-aware resolution on the Emmet tree *)

(** Whatever the tree, a node returned by the loop contains the position
    and occurs in the forest the loop started from. *)
Lemma getNode_loop_sound position incl fuel :
  forall currentNode foundNode res,
    getNode_loop fuel position incl currentNode foundNode = Some res ->
    res = foundNode
    \/ exists m d c, res = Some m /\ In c currentNode /\ occurs d m c
                     /\ containsPosition position incl m = true.
Proof.
  induction fuel as [|fuel IH]; intros cur found res Hrun.
  - destruct cur; simpl in Hrun; [injection Hrun as <-; now left | discriminate].
  - destruct cur as [|n rest]; simpl in Hrun; [injection Hrun as <-; now left|].
    destruct (containsPosition position incl n) eqn:Hn.
    + right. apply IH in Hrun as [-> | (m & d & c & -> & Hin & Hocc & Hm)].
      * exists n, 0, n. repeat split; [now left | constructor | exact Hn].
      * exists m, (S d), n. repeat split; [now left | econstructor; eauto | exact Hm].
    + apply IH in Hrun as [-> | (m & d & c & -> & Hin & Hocc & Hm)]; [now left|].
      right. exists m, d, c. repeat split; [now right | exact Hocc | exact Hm].
Qed.

Lemma getNode_sound root position incl m :
  getNode (Some root) position incl = Some m ->
  containsPosition position incl m = true /\ exists d, occurs (S d) m root.
Proof.
  unfold getNode.
  destruct (getNode_loop (node_size root) position incl (children root) None)
    as [res|] eqn:Hrun; [|discriminate].
  intros ->. apply getNode_loop_sound in Hrun as [Hn | (m' & d & c & [= ->] & Hin & Hocc & Hm)].
  - discriminate.
  - split; [exact Hm|]. exists d. econstructor; eauto.
Qed.

(** The test on the attributes passes when an attribute named [type] has
    an allowed value and every attribute named [type] before it has a
    value. *)
Lemma someTemplateType_intro pre x post value :
  Forall (fun y => attr_name y = "type" -> attr_value y <> None) pre ->
  attr_name x = "type" -> attr_value x = Some value ->
  In value allowedMimeTypesInScriptTag ->
  someTemplateType (pre ++ x :: post) = Returned true.
Proof.
  intros Hpre Htype Hvalue Hallowed.
  assert (Hx : someTemplateType (x :: post) = Returned true).
  { cbn [someTemplateType]. rewrite Htype, String.eqb_refl, Hvalue.
    replace (existsb (String.eqb value) allowedMimeTypesInScriptTag) with true;
      [reflexivity|].
    symmetry. apply existsb_exists. exists value. split; [exact Hallowed|].
    apply String.eqb_refl. }
  induction Hpre as [|y pre Hy Hpre IH]; [exact Hx|].
  cbn [app someTemplateType].
  destruct (String.eqb (attr_name y) "type") eqn:Hn; [|exact IH].
  apply String.eqb_eq in Hn. specialize (Hy Hn).
  destruct (attr_value y) as [v|]; [|congruence].
  destruct (existsb (String.eqb v) allowedMimeTypesInScriptTag); [reflexivity | exact IH].
Qed.

(** The test throws nothing but a [TypeError], and only at an attribute
    named [type] without a value that the visit reaches. *)
Lemma someTemplateType_thrown attrs e :
  someTemplateType attrs = Thrown e ->
  e = TypeError
  /\ exists pre x post,
       attrs = pre ++ x :: post /\ someTemplateType pre = Returned false
       /\ attr_name x = "type" /\ attr_value x = None.
Proof.
  induction attrs as [|y attrs IH]; [discriminate|]. cbn [someTemplateType].
  assert (Hrest : someTemplateType attrs = Thrown e ->
                  (String.eqb (attr_name y) "type" = false
                   \/ exists v, attr_value y = Some v
                                /\ existsb (String.eqb v) allowedMimeTypesInScriptTag = false) ->
                  e = TypeError
                  /\ exists pre x post,
                       y :: attrs = pre ++ x :: post
                       /\ someTemplateType pre = Returned false
                       /\ attr_name x = "type" /\ attr_value x = None).
  { intros Hthrow Hy. destruct (IH Hthrow) as (He & pre & x & post & -> & Hpre & Hx).
    split; [exact He|]. exists (y :: pre), x, post. split; [reflexivity|].
    split; [|exact Hx]. cbn [someTemplateType].
    destruct Hy as [Hn | (v & Hv & Hallowed)].
    - now rewrite Hn.
    - rewrite Hv, Hallowed. now destruct (String.eqb (attr_name y) "type"). }
  destruct (String.eqb (attr_name y) "type") eqn:Hn.
  - destruct (attr_value y) as [v|] eqn:Hv.
    + destruct (existsb (String.eqb v) allowedMimeTypesInScriptTag) eqn:Hallowed;
        [discriminate|].
      intros Hthrow. apply Hrest; [exact Hthrow|]. right. now exists v.
    + intros [= <-]. split; [reflexivity|]. exists [], y, attrs.
      apply String.eqb_eq in Hn. auto.
  - intros Hthrow. apply Hrest; [exact Hthrow | now left].
Qed.

Lemma someTemplateType_valueless pre x post :
  someTemplateType pre = Returned false ->
  attr_name x = "type" -> attr_value x = None ->
  someTemplateType (pre ++ x :: post) = Thrown TypeError.
Proof.
  intros Hpre Htype Hvalue. induction pre as [|y pre IH].
  - cbn [app someTemplateType]. now rewrite Htype, String.eqb_refl, Hvalue.
  - cbn [app someTemplateType] in *.
    destruct (String.eqb (attr_name y) "type").
    + destruct (attr_value y) as [v|]; [|discriminate].
      destruct (existsb (String.eqb v) allowedMimeTypesInScriptTag); [discriminate|].
      now apply IH.
    + now apply IH.
Qed.



(** ** Parse failures *)

(** The operations that guard their parse never throw the exception of
    the parser: [parseDocument] always returns, and so does
    [parsePartialStylesheet] once its scans have returned. *)
Lemma parseDocument_never_throws parse parseStylesheet doc showError :
  exists tree, fst (parseDocument parse parseStylesheet doc showError) = Returned tree.
Proof.
  unfold parseDocument.
  destruct ((if isStyleSheet (languageId doc) then parseStylesheet else parse) _);
    simpl; eauto.
Qed.

Lemma parsePartialStylesheet_guards_parser doc position parseStylesheet fuel sc :
  selectorScan doc position fuel = Some (Returned sc) ->
  exists tree,
    parsePartialStylesheet doc position parseStylesheet fuel = Some (Returned tree).
Proof.
  unfold parsePartialStylesheet. intros ->.
  destruct (parseStylesheet _); simpl; eauto.
Qed.

(** The two lookups inside a style element pass the exception of the
    stylesheet parser on to their caller. *)
Lemma getCssPropertyFromDocument_propagates parse parseStylesheet doc position
    tree htmlNode closeTag e :
  isStyleSheet (languageId doc) = false ->
  parse (newStream doc None None) = Returned tree ->
  getNode (Some tree) position true = Some htmlNode ->
  name htmlNode = "style" ->
  close htmlNode = Some closeTag ->
  isBefore (tok_end (open htmlNode)) position = true ->
  isAfter (tok_start closeTag) position = true ->
  parseStylesheet (newStream doc (Some (start htmlNode))
                     (Some (mkRange (start htmlNode) (end_ htmlNode)))) = Thrown e ->
  fst (getCssPropertyFromDocument parse parseStylesheet doc position) = Thrown e.
Proof.
  intros Hlang Hparse Hnode Hname Hclose Hb Ha Hthrow.
  unfold getCssPropertyFromDocument, parseDocument.
  rewrite Hlang, Hparse. cbn [fst bind]. rewrite Hnode, Hname, Hclose, Hb, Ha.
  rewrite String.eqb_refl. cbn [andb]. now rewrite Hthrow.
Qed.

Lemma getEmbeddedCssNodeIfAny_propagates parseStylesheet doc currentNode closeTag
    position e :
  close currentNode = Some closeTag ->
  name currentNode = "style" ->
  isBefore (tok_end (open currentNode)) position = true ->
  isAfter (tok_start closeTag) position = true ->
  parseStylesheet (newStream doc (Some (tok_end (open currentNode)))
                     (Some (mkRange (tok_end (open currentNode)) (tok_start closeTag))))
    = Thrown e ->
  getEmbeddedCssNodeIfAny parseStylesheet doc (Some currentNode) position = Thrown e.
Proof.
  intros Hclose Hname Hb Ha Hthrow.
  unfold getEmbeddedCssNodeIfAny, getInnerRange. rewrite Hclose, Hname, Hb, Ha.
  assert (Hin : rangeContains
                  (mkRange (tok_end (open currentNode)) (tok_start closeTag)) position
                = true).
  { apply isAfter_gt in Ha. apply isBefore_lt in Hb, Ha.
    unfold rangeContains, mkRange.
    destruct (isBefore (tok_start closeTag) (tok_end (open currentNode))) eqn:Hsw.
    - apply isBefore_lt in Hsw. lia.
    - simpl. apply andb_true_iff. split.
      + apply isAfterOrEqual_ge, isBeforeOrEqual_le. lia.
      + apply isBeforeOrEqual_le. lia. }
  rewrite Hin, String.eqb_refl. cbn [andb]. now rewrite Hthrow.
Qed.

(** C7, at the failing input: when the node under the position is a
    closed [style] element of a markup document and the position lies in
    its body, the exception that the stylesheet parser throws on the text
    of the element leaves [getCssPropertyFromDocument], and the exception
    that it throws on the body leaves [getEmbeddedCssNodeIfAny]: neither
    call is guarded, and no "no tree" is returned. *)
Theorem getCssPropertyFromDocument_throws (parse parseStylesheet : Parser)
    (doc : TextDocument) (position : Position) (tree htmlNode : Node)
    (closeTag : Token) (e : Exn) :
  isStyleSheet (languageId doc) = false ->
  parse (newStream doc None None) = Returned tree ->
  getNode (Some tree) position true = Some htmlNode ->
  name htmlNode = "style" ->
  close htmlNode = Some closeTag ->
  isBefore (tok_end (open htmlNode)) position = true ->
  isAfter (tok_start closeTag) position = true ->
  (parseStylesheet (newStream doc (Some (start htmlNode))
                      (Some (mkRange (start htmlNode) (end_ htmlNode)))) = Thrown e ->
   getCssPropertyFromDocument parse parseStylesheet doc position = (Thrown e, []))
  /\ (parseStylesheet (newStream doc (Some (tok_end (open htmlNode)))
                         (Some (mkRange (tok_end (open htmlNode)) (tok_start closeTag))))
      = Thrown e ->
      getEmbeddedCssNodeIfAny parseStylesheet doc (Some htmlNode) position = Thrown e).
Proof.
  intros Hlang Hparse Hnode Hname Hclose Hb Ha. split; intros Hthrow.
  - pose proof (getCssPropertyFromDocument_propagates parse parseStylesheet doc position
                  tree htmlNode closeTag e Hlang Hparse Hnode Hname Hclose Hb Ha Hthrow)
      as Hfst.
    revert Hfst. unfold getCssPropertyFromDocument, parseDocument.
    rewrite Hlang, Hparse. cbn [fst]. now intros ->.
  - now apply (getEmbeddedCssNodeIfAny_propagates parseStylesheet doc htmlNode closeTag).
Qed.

Lemma getCssPropertyFromDocument_throws_witness :
  getCssPropertyFromDocument markupParserOfSelectorlessRule
    (parserRejecting ["<style>a{}{}</style>"; "a{}{}"])
    selectorlessRuleDocument (onLine0 9)
  = (Thrown ParseError, [])
  /\ getEmbeddedCssNodeIfAny (parserRejecting ["<style>a{}{}</style>"; "a{}{}"])
       selectorlessRuleDocument (Some selectorlessRuleNode) (onLine0 9)
     = Thrown ParseError.
Proof.
  destruct (getCssPropertyFromDocument_throws markupParserOfSelectorlessRule
              (parserRejecting ["<style>a{}{}</style>"; "a{}{}"])
              selectorlessRuleDocument (onLine0 9) selectorlessRuleRoot
              selectorlessRuleNode (mkToken (onLine0 12) (onLine0 20)) ParseError
              eq_refl eq_refl eq_refl eq_refl eq_refl eq_refl eq_refl) as [H1 H2].
  split; [apply H1 | apply H2]; reflexivity.
Defined.

(** ** The language-service store *)

Lemma LSTree_nested_ind (P : LSTree -> Prop) :
  (forall tg s e ste ets attrs ch,
      Forall P ch -> P (LSTreeNode tg s e ste ets attrs ch)) ->
  forall t, P t.
Proof.
  intros H. fix IH 1. intros [tg s e ste ets attrs ch]. apply H.
  induction ch as [|c r IHr]; constructor; [apply IH | exact IHr].
Qed.

Lemma allocTree_unfold tg s e ste ets attrs ch parent h n :
  allocTree (LSTreeNode tg s e ste ets attrs ch) parent h n
  = let '(ids, h1, n1) := allocList (Some n) ch h (S n) in
    (n, <[n := mkLSNode tg s e ste ets attrs ids parent]> h1, n1).
Proof.
  simpl.
  assert (Heq : forall l h0 n0,
             (fix allocChildren (l : list LSTree) (h : gmap nat LSNode) (n1 : nat)
                : list nat * gmap nat LSNode * nat :=
                match l with
                | [] => ([], h, n1)
                | c :: r =>
                    let '(i, h1, n2) := allocTree c (Some n) h n1 in
                    let '(ids, h2, n3) := allocChildren r h1 n2 in
                    (i :: ids, h2, n3)
                end) l h0 n0 = allocList (Some n) l h0 n0).
  { induction l as [|c r IHl]; intros h0 n0; simpl; [reflexivity|].
    destruct (allocTree c (Some n) h0 n0) as [[i h1] n1]. now rewrite IHl. }
  now rewrite Heq.
Qed.

Lemma allocated_refl n h : allocated n n h h.
Proof. split; [lia|]. split; [auto | intros k Hk; lia]. Qed.

Lemma allocated_trans n1 n2 n3 h1 h2 h3 :
  allocated n1 n2 h1 h2 -> allocated n2 n3 h2 h3 -> allocated n1 n3 h1 h3.
Proof.
  intros (Hle1 & Hout1 & Hin1) (Hle2 & Hout2 & Hin2).
  split; [lia|]. split.
  - intros k Hk. rewrite Hout2 by lia. apply Hout1. lia.
  - intros k Hk. destruct (Nat.lt_ge_cases k n2) as [Hlt|Hge].
    + destruct (Hin1 k ltac:(lia)) as (nd & Hnd & Hch).
      exists nd. split; [rewrite Hout2 by lia; exact Hnd|].
      intros c Hc. specialize (Hch c Hc). lia.
    + destruct (Hin2 k ltac:(lia)) as (nd & Hnd & Hch).
      exists nd. split; [exact Hnd|]. intros c Hc. specialize (Hch c Hc). lia.
Qed.

Lemma allocList_allocated parent l :
  Forall (fun t => forall p h n id h' n',
              allocTree t p h n = (id, h', n') ->
              id = n /\ n < n' /\ allocated n n' h h') l ->
  forall h n ids h' n',
    allocList parent l h n = (ids, h', n') ->
    allocated n n' h h' /\ forall i, In i ids -> n <= i < n'.
Proof.
  induction 1 as [|t r Ht Hr IH]; intros h n ids h' n' Halloc; simpl in Halloc.
  - injection Halloc as <- <- <-. split; [apply allocated_refl | intros i []].
  - destruct (allocTree t parent h n) as [[i h1] n1] eqn:Ht1.
    destruct (allocList parent r h1 n1) as [[ids' h2] n2] eqn:Hr1.
    injection Halloc as <- <- <-.
    destruct (Ht _ _ _ _ _ _ Ht1) as (-> & Hlt & Ha1).
    destruct (IH _ _ _ _ _ Hr1) as (Ha2 & Hids).
    split; [eapply allocated_trans; eauto|].
    destruct Ha2 as (Hle & _). intros j [<-|Hj]; [lia|].
    specialize (Hids j Hj). lia.
Qed.

Lemma allocTree_allocated t :
  forall p h n id h' n',
    allocTree t p h n = (id, h', n') ->
    id = n /\ n < n' /\ allocated n n' h h'.
Proof.
  induction t as [tg s e ste ets attrs ch IH] using LSTree_nested_ind.
  intros p h n id h' n'. rewrite allocTree_unfold.
  destruct (allocList (Some n) ch h (S n)) as [[ids h1] n1] eqn:Hl.
  intros [= <- <- <-].
  destruct (allocList_allocated _ _ IH _ _ _ _ _ Hl) as ((Hle & Hout & Hin) & Hids).
  split; [reflexivity|]. split; [lia|]. split; [lia|]. split.
  - intros k Hk. rewrite lookup_insert_ne by lia. apply Hout. lia.
  - intros k Hk. destruct (decide (k = n)) as [->|Hne].
    + rewrite lookup_insert_eq. eexists. split; [reflexivity|].
      simpl. intros c Hc. specialize (Hids c Hc). lia.
    + rewrite lookup_insert_ne by congruence.
      destruct (Hin k ltac:(lia)) as (nd & Hnd & Hch).
      exists nd. split; [exact Hnd|]. intros c Hc. specialize (Hch c Hc). lia.
Qed.

(** From a fresh object only fresh objects are reachable. *)
Lemma reach_allocated n n' h h' i j :
  allocated n n' h h' -> n <= i < n' -> reach h' i j -> n <= j < n'.
Proof.
  intros (Hle & Hout & Hin) Hi Hreach. induction Hreach as [i|i nd c j Hnd Hc Hreach IH].
  - exact Hi.
  - apply IH. destruct (Hin i Hi) as (nd' & Hnd' & Hch).
    rewrite Hnd in Hnd'. injection Hnd' as <-. auto.
Qed.

Lemma wfState_allocated st h' n' :
  wfState st -> allocated (nextId st) n' (heap st) h' ->
  wfState (mkLSState h' n' (parseCache st)).
Proof.
  intros Hwf (Hle & Hout & Hin) id nd. simpl. intros Hid.
  destruct (Nat.lt_ge_cases id n') as [Hlt|Hge]; [exact Hlt|].
  rewrite Hout in Hid by lia. apply Hwf in Hid. lia.
Qed.

Lemma wfState_splice cur inner st : wfState st -> wfState (splice cur inner st).
Proof.
  intros Hwf id nd. unfold splice. simpl. intros Hid.
  destruct (heap st !! id) as [x|] eqn:Hx; [eapply Hwf; eauto|].
  assert (Hnone : alter (pushChild inner) cur
                    (alter (setParent cur) inner (heap st)) !! id = None).
  { apply lookup_alter_None, lookup_alter_None. exact Hx. }
  congruence.
Qed.

Lemma splice_other cur inner st k :
  k <> cur -> k <> inner -> heap (splice cur inner st) !! k = heap st !! k.
Proof.
  intros H1 H2. unfold splice. simpl.
  rewrite lookup_alter_ne by congruence. now rewrite lookup_alter_ne by congruence.
Qed.

Lemma splice_outer cur inner st nd :
  cur <> inner -> heap st !! cur = Some nd ->
  heap (splice cur inner st) !! cur = Some (pushChild inner nd).
Proof.
  intros Hne Hcur. unfold splice. simpl.
  rewrite lookup_alter_eq, lookup_alter_ne by congruence. now rewrite Hcur.
Qed.

Lemma splice_inner cur inner st nd :
  cur <> inner -> heap st !! inner = Some nd ->
  heap (splice cur inner st) !! inner = Some (setParent cur nd).
Proof.
  intros Hne Hin. unfold splice. simpl.
  rewrite lookup_alter_ne by congruence. rewrite lookup_alter_eq. now rewrite Hin.
Qed.

(** ** Template-aware resolution with the language service *)

Section LanguageServiceProperties.

Variable parseHTMLDocument : LSTextDocument -> LSTree.
Variable findNodeAt : gmap nat LSNode -> nat -> Z -> nat.
Variable lsOffsetAt : LSTextDocument -> Position -> Z.

(** [findNodeAt] answers with a node of the tree it is asked about. *)
Hypothesis findNodeAt_reachable :
  forall h root offset, reach h root (findNodeAt h root offset).

Lemma parseFresh_allocated doc st :
  wfState st ->
  fst (parseFresh parseHTMLDocument doc st) = nextId st
  /\ nextId st < nextId (snd (parseFresh parseHTMLDocument doc st))
  /\ allocated (nextId st) (nextId (snd (parseFresh parseHTMLDocument doc st)))
       (heap st) (heap (snd (parseFresh parseHTMLDocument doc st)))
  /\ parseCache (snd (parseFresh parseHTMLDocument doc st)) = parseCache st
  /\ wfState (snd (parseFresh parseHTMLDocument doc st)).
Proof.
  intros Hwf. unfold parseFresh.
  destruct (allocTree (parseHTMLDocument doc) None (heap st) (nextId st))
    as [[root h] n] eqn:Halloc.
  apply allocTree_allocated in Halloc as (-> & Hlt & Ha). simpl.
  repeat (split; [first [reflexivity | assumption]|]).
  now apply wfState_allocated.
Qed.

(** A call on a synthetic document neither reads nor writes the cache. *)
Lemma template_call_keeps_cache fuel :
  forall doc offset st,
    parseCache (snd (getHtmlNodeLSInternal parseHTMLDocument findNodeAt fuel
                       doc offset true st)) = parseCache st.
Proof.
  induction fuel as [|fuel IH]; intros doc offset st; [reflexivity|].
  cbn [getHtmlNodeLSInternal negb parseMarkupDocument].
  destruct (parseFresh parseHTMLDocument doc st) as [root st1] eqn:Hfresh.
  assert (Hc : parseCache st1 = parseCache st).
  { unfold parseFresh in Hfresh.
    destruct (allocTree _ _ _ _) as [[r h] n]. now injection Hfresh as <- <-. }
  destruct (heap st1 !! findNodeAt (heap st1) root offset) as [node|]; [|exact Hc].
  destruct (negb (truthyString (tag node))); [exact Hc|].
  destruct (insideTemplateBody node offset); [|exact Hc].
  specialize (IH (scriptBodyDocument doc node) offset st1).
  destruct (getHtmlNodeLSInternal _ _ fuel _ offset true st1) as [[|[i|]] st2];
    simpl in *; congruence.
Qed.

Lemma template_call_ignores_cache fuel :
  forall doc offset h n c c',
    let run := getHtmlNodeLSInternal parseHTMLDocument findNodeAt fuel doc offset true in
    fst (run (mkLSState h n c)) = fst (run (mkLSState h n c'))
    /\ heap (snd (run (mkLSState h n c))) = heap (snd (run (mkLSState h n c')))
    /\ nextId (snd (run (mkLSState h n c))) = nextId (snd (run (mkLSState h n c'))).
Proof.
  induction fuel as [|fuel IH]; intros doc offset h n c c'; [now cbn|].
  cbn zeta. cbn [getHtmlNodeLSInternal negb parseMarkupDocument].
  unfold parseFresh. cbn [heap nextId parseCache].
  destruct (allocTree (parseHTMLDocument doc) None h n) as [[root h1] n1].
  cbn [heap].
  destruct (h1 !! findNodeAt h1 root offset) as [node|]; [|now cbn].
  destruct (negb (truthyString (tag node))); [now cbn|].
  destruct (insideTemplateBody node offset); [|now cbn].
  specialize (IH (scriptBodyDocument doc node) offset h1 n1 c c').
  cbn zeta in IH. destruct IH as (Hr & Hh & Hn).
  destruct (getHtmlNodeLSInternal _ _ fuel _ offset true (mkLSState h1 n1 c))
    as [r2 st2].
  destruct (getHtmlNodeLSInternal _ _ fuel _ offset true (mkLSState h1 n1 c'))
    as [r2' st2'].
  simpl in Hr, Hh, Hn. subst r2'.
  destruct r2 as [|[i|]]; cbn; unfold splice; cbn; rewrite ?Hh, ?Hn; auto.
Qed.

(** What a call on a synthetic document leaves behind: the objects that
    existed before are untouched and the returned node is a new one. *)
Lemma template_call_frame fuel :
  forall doc offset st r,
    wfState st ->
    fst (getHtmlNodeLSInternal parseHTMLDocument findNodeAt fuel doc offset true st)
      = Done r ->
    let st' := snd (getHtmlNodeLSInternal parseHTMLDocument findNodeAt fuel
                      doc offset true st) in
    wfState st'
    /\ nextId st <= nextId st'
    /\ (forall k, k < nextId st -> heap st' !! k = heap st !! k)
    /\ (forall i, r = Some i -> nextId st <= i /\ is_Some (heap st' !! i)).
Proof.
  induction fuel as [|fuel IH]; intros doc offset st r Hwf; [discriminate|].
  cbn zeta. cbn [getHtmlNodeLSInternal negb parseMarkupDocument].
  destruct (parseFresh_allocated doc st Hwf) as (Hroot & Hlt & Ha & _ & Hwf1).
  destruct (parseFresh parseHTMLDocument doc st) as [root st1]. simpl in *.
  subst root.
  pose proof (reach_allocated _ _ _ _ _ _ Ha (conj (Nat.le_refl _) Hlt)
                (findNodeAt_reachable (heap st1) (nextId st) offset)) as Hcur.
  set (cur := findNodeAt (heap st1) (nextId st) offset) in *.
  destruct Ha as (Hle & Hout & Hin).
  destruct (Hin cur Hcur) as (node & Hnode & _). rewrite Hnode.
  assert (Hbase : forall r0, r0 = None \/ r0 = Some cur ->
            wfState st1 /\ nextId st <= nextId st1
            /\ (forall k, k < nextId st -> heap st1 !! k = heap st !! k)
            /\ (forall i, r0 = Some i -> nextId st <= i /\ is_Some (heap st1 !! i))).
  { intros r0 Hr0. repeat (split; [first [assumption | lia]|]). split.
    - intros k Hk. apply Hout. lia.
    - intros i Hi. destruct Hr0 as [->| ->]; [discriminate|].
      injection Hi as <-. split; [lia | eauto]. }
  destruct (negb (truthyString (tag node))).
  { simpl. intros [= <-]. apply Hbase. now left. }
  destruct (insideTemplateBody node offset).
  2:{ simpl. intros [= <-]. apply Hbase. now right. }
  specialize (IH (scriptBodyDocument doc node) offset st1).
  destruct (getHtmlNodeLSInternal _ _ fuel _ offset true st1) as [[|[i|]] st2];
    cbn [fst snd] in *; [discriminate | |].
  - intros [= <-].
    destruct (IH (Some i) Hwf1 eq_refl) as (Hwf2 & Hle2 & Hframe & Hi).
    destruct (Hi i eq_refl) as (Hige & [ndi Hndi]).
    split; [now apply wfState_splice|].
    split; [change (nextId st <= nextId st2); lia|]. split.
    + intros k Hk. rewrite splice_other by lia. rewrite Hframe by lia.
      apply Hout. lia.
    + intros j [= <-]. split; [lia|].
      rewrite (splice_inner cur i st2 ndi) by (try lia; assumption). eauto.
  - intros [= <-].
    destruct (IH None Hwf1 eq_refl) as (Hwf2 & Hle2 & Hframe & _).
    split; [assumption|]. split; [lia|]. split.
    + intros k Hk. rewrite Hframe by lia. apply Hout. lia.
    + intros j [= <-]. split; [lia|]. rewrite Hframe by lia. eauto.
Qed.

(** The text of the synthetic document. *)
Lemma length_repeatSpace n : String.length (repeatSpace n) = n.
Proof. induction n; simpl; congruence. Qed.

Lemma get_repeatSpace n i : i < n -> String.get i (repeatSpace n) = Some " "%char.
Proof.
  revert i. induction n as [|n IH]; intros i Hi; [lia|].
  destruct i as [|i]; simpl; [reflexivity | apply IH; lia].
Qed.

Lemma get_beyond s i : String.length s <= i -> String.get i s = None.
Proof.
  revert i. induction s as [|c s IH]; intros i Hi; simpl; [reflexivity|].
  simpl in Hi. destruct i as [|i]; [lia | apply IH; lia].
Qed.

Lemma scriptBodyText_padding text node ste i :
  startTagEnd node = Some ste -> (0 <= i < ste)%Z ->
  charAt (scriptBodyText text node) i = Some " "%char.
Proof.
  intros Hste Hi. unfold charAt, scriptBodyText. rewrite Hste.
  destruct (i <? 0)%Z eqn:Hneg; [lia|].
  rewrite <- append_correct1 by (rewrite length_repeatSpace; lia).
  apply get_repeatSpace. lia.
Qed.

Lemma scriptBodyText_body text node ste i :
  startTagEnd node = Some ste -> (0 <= ste)%Z ->
  (ste <= i < match endTagStart node with
              | Some ets => ets
              | None => ls_end node
              end)%Z ->
  charAt (scriptBodyText text node) i = charAt text i.
Proof.
  intros Hste Hpos Hi. unfold charAt, scriptBodyText. rewrite Hste.
  set (bodyEnd := match endTagStart node with
                  | Some ets => ets
                  | None => ls_end node
                  end) in *.
  destruct (i <? 0)%Z eqn:Hneg; [lia|].
  replace (Z.to_nat i)
    with (Z.to_nat (i - ste) + String.length (repeatSpace (Z.to_nat ste)))
    at 1 by (rewrite length_repeatSpace; lia).
  rewrite <- append_correct2. unfold jsSubstring.
  set (len := Z.of_nat (String.length text)).
  destruct (Z.lt_ge_cases i len) as [Hlt|Hge].
  - rewrite substring_correct1 by lia. f_equal. lia.
  - rewrite substring_correct2 by lia. symmetry. apply get_beyond. lia.
Qed.

(** C10.  When the node that the parsed document yields at the (adjusted)
    offset has no tag, [getHtmlNodeLS] returns nothing. *)
Theorem getHtmlNodeLS_untagged (fuel : nat) (doc : LSTextDocument)
    (position : Position) (incl : bool) (st : LSState) (node : LSNode) :
  let offset := selectionStartOffset lsOffsetAt doc position incl in
  let parsed := parseMarkupDocument parseHTMLDocument doc true st in
  heap (snd parsed) !! findNodeAt (heap (snd parsed)) (fst parsed) offset = Some node ->
  tag node = None ->
  getHtmlNodeLS parseHTMLDocument findNodeAt lsOffsetAt (S fuel) doc position incl st
  = (Done None, snd parsed).
Proof.
  cbn zeta. intros Hnode Htag. unfold getHtmlNodeLS.
  cbn [getHtmlNodeLSInternal negb].
  destruct (parseMarkupDocument parseHTMLDocument doc true st) as [root st1].
  cbn [fst snd] in *. now rewrite Hnode, Htag.
Qed.

Lemma scriptBodyText_beyond text node ste i :
  startTagEnd node = Some ste -> (0 <= ste)%Z ->
  let bodyEnd := match endTagStart node with
                 | Some ets => ets
                 | None => ls_end node
                 end in
  (ste <= bodyEnd)%Z -> (bodyEnd <= i)%Z ->
  charAt (scriptBodyText text node) i = None.
Proof.
  cbn zeta. intros Hste Hpos Hle Hi. unfold charAt, scriptBodyText. rewrite Hste.
  set (bodyEnd := match endTagStart node with
                  | Some ets => ets
                  | None => ls_end node
                  end) in *.
  destruct (i <? 0)%Z eqn:Hneg; [reflexivity|].
  replace (Z.to_nat i)
    with (Z.to_nat (i - ste) + String.length (repeatSpace (Z.to_nat ste)))
    by (rewrite length_repeatSpace; lia).
  rewrite <- append_correct2. unfold jsSubstring.
  apply substring_correct2. lia.
Qed.

(** C9.  When the node found at the offset is a template script tag and
    the offset lies strictly inside its body, the resolution calls itself
    on a synthetic document that has the uri, the language and the version
    of the document and whose text is the body preceded by as many spaces
    as the start tag end offset and followed by nothing, at the same
    offset and without the cache (the call neither changes the cache nor
    depends on what it holds); a node found there is a new object, gets
    the script node as its parent and keeps its other fields, is appended
    to the children of the script node, whose other fields stay as they
    were, and is returned; when nothing is found there, the script node is
    returned. *)
Theorem getHtmlNodeLSInternal_template_body (fuel : nat) (doc : LSTextDocument)
    (offset : Z) (isInTemplateNode : bool) (st : LSState) (node : LSNode) (ste : Z) :
  let parsed := parseMarkupDocument parseHTMLDocument doc (negb isInTemplateNode) st in
  let st1 := snd parsed in
  let currentNode := findNodeAt (heap st1) (fst parsed) offset in
  let synthetic := scriptBodyDocument doc node in
  let bodyEnd := match endTagStart node with
                 | Some ets => ets
                 | None => ls_end node
                 end in
  let inner := getHtmlNodeLSInternal parseHTMLDocument findNodeAt fuel
                 synthetic offset true st1 in
  wfState st1 ->
  heap st1 !! currentNode = Some node ->
  tag node = Some "script" ->
  isNodeTemplateScriptLS node = true ->
  startTagEnd node = Some ste -> (0 < ste)%Z -> (ste < offset)%Z ->
  (forall ets, endTagStart node = Some ets -> (offset < ets)%Z) ->
  (ls_uri synthetic = ls_uri doc
   /\ ls_languageId synthetic = ls_languageId doc
   /\ ls_version synthetic = ls_version doc)
  /\ (forall i, (0 <= i < ste)%Z -> charAt (ls_text synthetic) i = Some " "%char)
  /\ (forall i, (ste <= i < bodyEnd)%Z ->
                charAt (ls_text synthetic) i = charAt (ls_text doc) i)
  /\ ((ste <= bodyEnd)%Z ->
      forall i, (bodyEnd <= i)%Z -> charAt (ls_text synthetic) i = None)
  /\ parseCache (snd inner) = parseCache st1
  /\ (forall cache,
        fst (getHtmlNodeLSInternal parseHTMLDocument findNodeAt fuel synthetic offset
               true (mkLSState (heap st1) (nextId st1) cache))
        = fst inner)
  /\ getHtmlNodeLSInternal parseHTMLDocument findNodeAt (S fuel)
       doc offset isInTemplateNode st
     = match fst inner with
       | OutOfFuel => (OutOfFuel, snd inner)
       | Done (Some scriptBodyNode) =>
           (Done (Some scriptBodyNode), splice currentNode scriptBodyNode (snd inner))
       | Done None => (Done (Some currentNode), snd inner)
       end
  /\ (forall scriptBodyNode,
        fst inner = Done (Some scriptBodyNode) ->
        let st' := splice currentNode scriptBodyNode (snd inner) in
        exists found,
          heap st1 !! scriptBodyNode = None
          /\ heap (snd inner) !! scriptBodyNode = Some found
          /\ heap (snd inner) !! currentNode = Some node
          /\ heap st' !! currentNode
             = Some (mkLSNode (tag node) (ls_start node) (ls_end node)
                       (startTagEnd node) (endTagStart node) (ls_attributes node)
                       (ls_children node ++ [scriptBodyNode]) (ls_parent node))
          /\ heap st' !! scriptBodyNode
             = Some (mkLSNode (tag found) (ls_start found) (ls_end found)
                       (startTagEnd found) (endTagStart found) (ls_attributes found)
                       (ls_children found) (Some currentNode))).
Proof.
  cbn zeta. intros Hwf1 Hnode Htag Hts Hste Hpos Hoff Hets.
  split; [repeat split|].
  split; [intros i Hi; now apply (scriptBodyText_padding _ _ ste)|].
  split; [intros i Hi; apply (scriptBodyText_body _ _ ste); auto; lia|].
  split; [intros Hle i Hi; apply (scriptBodyText_beyond _ _ ste); auto; lia|].
  split; [apply template_call_keeps_cache|].
  split.
  { intros cache.
    destruct (snd (parseMarkupDocument parseHTMLDocument doc
                     (negb isInTemplateNode) st)) as [h1 n1 c1].
    apply (template_call_ignores_cache fuel (scriptBodyDocument doc node) offset
             h1 n1 cache c1). }
  split.
  - cbn [getHtmlNodeLSInternal].
    destruct (parseMarkupDocument parseHTMLDocument doc (negb isInTemplateNode) st)
      as [root st1].
    cbn [fst snd] in *. rewrite Hnode, Htag. cbn [truthyString negb].
    assert (Hinside : insideTemplateBody node offset = true).
    { unfold insideTemplateBody, truthyNumber. rewrite Hts, Hste.
      destruct (endTagStart node) as [ets|].
      - specialize (Hets ets eq_refl).
        repeat (apply andb_true_iff; split); try reflexivity;
          [apply negb_true_iff; lia | lia |].
        apply orb_true_iff. right. lia.
      - repeat (apply andb_true_iff; split); try reflexivity;
          [apply negb_true_iff; lia | lia]. }
    rewrite Hinside.
    destruct (getHtmlNodeLSInternal _ _ fuel _ offset true st1) as [[|[i|]] st2];
      reflexivity.
  - intros i Hi.
    destruct (template_call_frame fuel _ offset _ (Some i) Hwf1 Hi)
      as (Hwf2 & Hle & Hframe & Hfresh).
    destruct (Hfresh i eq_refl) as (Hige & [ndi Hndi]).
    assert (Hlt : findNodeAt
                    (heap (snd (parseMarkupDocument parseHTMLDocument doc
                                  (negb isInTemplateNode) st)))
                    (fst (parseMarkupDocument parseHTMLDocument doc
                            (negb isInTemplateNode) st)) offset
                  < nextId (snd (parseMarkupDocument parseHTMLDocument doc
                                   (negb isInTemplateNode) st))).
    { eapply Hwf1; eauto. }
    exists ndi. split.
    { match goal with
      | |- ?l = None => destruct l as [x|] eqn:Hx; [|reflexivity]
      end.
      apply Hwf1 in Hx. lia. }
    split; [exact Hndi|].
    split; [rewrite Hframe by lia; exact Hnode|].
    split.
    + rewrite (splice_outer _ _ _ node); [reflexivity | lia |].
      rewrite Hframe by lia. exact Hnode.
    + rewrite (splice_inner _ _ _ ndi); [reflexivity | lia | exact Hndi].
Qed.

(** C3 (as amended).  A resolution that starts outside a template parses
    with the cache, so the tree it works on is the one the cache holds
    afterwards, and the node found in it belongs to that tree.  The
    splicing step changes that node, by appending the node returned from
    the synthetic document to its children, and sets the parent of the
    returned node, which is a new object; every other object that existed
    is left as it was, and the trees of synthetic documents never enter
    the cache. *)
Theorem getHtmlNodeLSInternal_frame (fuel : nat) (doc : LSTextDocument) (offset : Z)
    (st : LSState) (r : option nat) :
  let parsed := parseMarkupDocument parseHTMLDocument doc true st in
  let st1 := snd parsed in
  let currentNode := findNodeAt (heap st1) (fst parsed) offset in
  let st' := snd (getHtmlNodeLSInternal parseHTMLDocument findNodeAt fuel
                    doc offset false st) in
  wfState st ->
  fst (getHtmlNodeLSInternal parseHTMLDocument findNodeAt fuel doc offset false st)
    = Done r ->
  parseCache st' = Some (ls_uri doc, ls_version doc, fst parsed)
  /\ reach (heap st1) (fst parsed) currentNode
  /\ (forall id nd, heap st1 !! id = Some nd -> id <> currentNode ->
                    heap st' !! id = Some nd)
  /\ (forall nd, heap st1 !! currentNode = Some nd ->
        heap st' !! currentNode = Some nd
        \/ exists scriptBodyNode ndi,
             r = Some scriptBodyNode
             /\ heap st1 !! scriptBodyNode = None
             /\ heap st' !! currentNode = Some (pushChild scriptBodyNode nd)
             /\ heap st' !! scriptBodyNode = Some ndi
             /\ ls_parent ndi = Some currentNode).
Proof.
  cbn zeta. intros Hwf Hrun.
  destruct fuel as [|fuel]; [discriminate|].
  assert (Hparsed : wfState (snd (parseMarkupDocument parseHTMLDocument doc true st))
            /\ parseCache (snd (parseMarkupDocument parseHTMLDocument doc true st))
               = Some (ls_uri doc, ls_version doc,
                       fst (parseMarkupDocument parseHTMLDocument doc true st))).
  { unfold parseMarkupDocument, cacheHit.
    destruct (parseCache st) as [[[key version] tree]|] eqn:Hcache.
    - destruct (String.eqb key (ls_uri doc) && (version =? ls_version doc)%Z) eqn:Hhit.
      + apply andb_true_iff in Hhit as [Hk Hv].
        apply String.eqb_eq in Hk. apply Z.eqb_eq in Hv. subst. simpl.
        split; [exact Hwf | exact Hcache].
      + destruct (parseFresh_allocated doc st Hwf) as (_ & _ & Ha & _ & Hwf1).
        destruct (parseFresh parseHTMLDocument doc st) as [root st1]. simpl in *.
        split; [|reflexivity]. intros id nd Hid. exact (Hwf1 id nd Hid).
    - destruct (parseFresh_allocated doc st Hwf) as (_ & _ & Ha & _ & Hwf1).
      destruct (parseFresh parseHTMLDocument doc st) as [root st1]. simpl in *.
      split; [|reflexivity]. intros id nd Hid. exact (Hwf1 id nd Hid). }
  destruct Hparsed as [Hwf1 Hcache1].
  cbn [getHtmlNodeLSInternal negb] in *.
  destruct (parseMarkupDocument parseHTMLDocument doc true st) as [root st1].
  cbn [fst snd] in *.
  set (cur := findNodeAt (heap st1) root offset) in *.
  assert (Hsame : forall res : Fuelled (option nat),
            parseCache (snd (res, st1)) = Some (ls_uri doc, ls_version doc, root)
            /\ reach (heap st1) root cur
            /\ (forall id nd, heap st1 !! id = Some nd -> id <> cur ->
                              heap (snd (res, st1)) !! id = Some nd)
            /\ (forall nd, heap st1 !! cur = Some nd ->
                  heap (snd (res, st1)) !! cur = Some nd
                  \/ exists scriptBodyNode ndi,
                       r = Some scriptBodyNode
                       /\ heap st1 !! scriptBodyNode = None
                       /\ heap (snd (res, st1)) !! cur
                          = Some (pushChild scriptBodyNode nd)
                       /\ heap (snd (res, st1)) !! scriptBodyNode = Some ndi
                       /\ ls_parent ndi = Some cur)).
  { intros res. cbn [snd]. split; [exact Hcache1|].
    split; [apply findNodeAt_reachable|]. split; [auto | intros nd Hnd; now left]. }
  destruct (heap st1 !! cur) as [node|] eqn:Hnode; [|apply Hsame].
  destruct (negb (truthyString (tag node))); [apply Hsame|].
  destruct (insideTemplateBody node offset); [|apply Hsame].
  pose proof (template_call_keeps_cache fuel (scriptBodyDocument doc node) offset st1)
    as Hkeep.
  pose proof (template_call_frame fuel (scriptBodyDocument doc node) offset st1) as Hfr.
  destruct (getHtmlNodeLSInternal _ _ fuel _ offset true st1) as [[|[i|]] st2];
    cbn [fst snd] in *; [discriminate | |].
  - injection Hrun as <-.
    destruct (Hfr (Some i) Hwf1 eq_refl) as (Hwf2 & Hle & Hframe & Hfresh).
    destruct (Hfresh i eq_refl) as (Hige & [ndi Hndi]).
    pose proof (Hwf1 _ _ Hnode) as Hcur.
    split; [change (parseCache st2 = Some (ls_uri doc, ls_version doc, root));
            congruence|].
    split; [apply findNodeAt_reachable|]. split.
    + intros id nd Hid Hne. pose proof (Hwf1 _ _ Hid) as Hlt.
      rewrite splice_other by lia. rewrite Hframe by lia. exact Hid.
    + intros nd [= <-]. right. exists i, (setParent cur ndi).
      split; [reflexivity|]. split.
      { destruct (heap st1 !! i) as [x|] eqn:Hx; [|reflexivity].
        apply Hwf1 in Hx. lia. }
      split; [apply splice_outer; [lia|]; rewrite Hframe by lia; exact Hnode|].
      split; [apply splice_inner; [lia | exact Hndi] | reflexivity].
  - injection Hrun as <-.
    destruct (Hfr None Hwf1 eq_refl) as (Hwf2 & Hle & Hframe & _).
    split; [congruence|]. split; [apply findNodeAt_reachable|]. split.
    + intros id nd Hid Hne. pose proof (Hwf1 _ _ Hid) as Hlt.
      rewrite Hframe by lia. exact Hid.
    + intros nd [= <-]. left. pose proof (Hwf1 _ _ Hnode) as Hlt.
      rewrite Hframe by lia. exact Hnode.
Qed.

End LanguageServiceProperties.

Lemma parseMarkupDocument_wf parseHTMLDocument doc useCache st :
  wfState st -> wfState (snd (parseMarkupDocument parseHTMLDocument doc useCache st)).
Proof.
  intros Hwf. unfold parseMarkupDocument.
  destruct (parseFresh_allocated parseHTMLDocument doc st Hwf) as (_ & _ & _ & _ & Hwf1).
  destruct useCache; [|exact Hwf1].
  destruct (cacheHit doc st); [exact Hwf|].
  destruct (parseFresh parseHTMLDocument doc st) as [root st1]. exact Hwf1.
Qed.

Lemma wfState_emptyState : wfState emptyState.
Proof. intros id nd. simpl. rewrite lookup_empty. discriminate. Qed.

(** The sample [findNodeAt] stays inside the tree it is asked about. *)
Lemma lastStartingBefore_In h offset ids c :
  lastStartingBefore h offset ids = Some c -> In c ids.
Proof.
  unfold lastStartingBefore.
  assert (Hgen : forall acc,
             fold_left (fun acc c =>
                          match h !! c with
                          | Some nd => if (ls_start nd <? offset)%Z then Some c else acc
                          | None => acc
                          end) ids acc = Some c ->
             acc = Some c \/ In c ids).
  { induction ids as [|x ids IH]; intros acc Hfold; simpl in Hfold; [now left|].
    apply IH in Hfold as [Hacc|Hin]; [|right; now right].
    destruct (h !! x) as [nd|]; [|now left].
    destruct (ls_start nd <? offset)%Z; [|now left].
    injection Hacc as ->. right. now left. }
  intros Hfold. apply Hgen in Hfold as [Hacc|Hin]; [discriminate | exact Hin].
Qed.

Lemma sampleFindNodeAt_reachable h root offset :
  reach h root (sampleFindNodeAt h root offset).
Proof.
  unfold sampleFindNodeAt. generalize (S (size h)) as fuel. intros fuel. revert root.
  induction fuel as [|fuel IH]; intros node; simpl; [constructor|].
  destruct (h !! node) as [nd|] eqn:Hnd; [|constructor].
  destruct (lastStartingBefore h offset (ls_children nd)) as [c|] eqn:Hc; [|constructor].
  destruct (h !! c) as [child|]; [|constructor].
  destruct ((ls_start child <? offset)%Z && (offset <=? ls_end child)%Z); [|constructor].
  eapply reach_child; [exact Hnd | eapply lastStartingBefore_In; exact Hc | apply IH].
Qed.

Lemma getHtmlNodeLS_untagged_witness :
  getHtmlNodeLS sampleParser sampleFindNodeAt sampleOffsetAt 1 plainTextDocument
    (mkPosition 0 2) false emptyState
  = (Done None, snd (parseMarkupDocument sampleParser plainTextDocument true emptyState)).
Proof.
  apply (getHtmlNodeLS_untagged sampleParser sampleFindNodeAt sampleOffsetAt 0
           plainTextDocument (mkPosition 0 2) false emptyState
           (mkLSNode None 0 5 None None None [] None)); reflexivity.
Defined.

Lemma getHtmlNodeLSInternal_template_body_witness :
  let run := getHtmlNodeLSInternal sampleParser sampleFindNodeAt 2 sampleDocument 27
               false emptyState in
  fst run = Done (Some 3)
  /\ ls_text (scriptBodyDocument sampleDocument sampleScriptNode)
     = (repeatSpace 25 ++ "<p></p>")%string
  /\ heap (snd run) !! 1
     = Some (mkLSNode (Some "script") 0 41 (Some 25%Z) (Some 32%Z)
               (Some {[ "type" := Some (doubleQuote ++ "text/html" ++ doubleQuote)%string ]})
               [3] (Some 0))
  /\ heap (snd run) !! 3
     = Some (mkLSNode (Some "p") 25 32 (Some 28%Z) (Some 28%Z) (Some ∅) [] (Some 1)).
Proof.
  cbn zeta.
  pose proof (getHtmlNodeLSInternal_template_body sampleParser sampleFindNodeAt
                sampleFindNodeAt_reachable 1 sampleDocument 27 false emptyState
                sampleScriptNode 25
                (parseMarkupDocument_wf sampleParser sampleDocument true emptyState
                   wfState_emptyState)
                eq_refl eq_refl eq_refl eq_refl ltac:(lia) ltac:(lia)
                ltac:(intros ets [= <-]; lia)) as (_ & _ & _ & _ & _ & _ & Heq & Hsplice).
  destruct (Hsplice 3 eq_refl) as (found & _ & Hfound & _ & Houter & Hinner).
  assert (Hp : found = mkLSNode (Some "p") 25 32 (Some 28%Z) (Some 28%Z) (Some ∅) []
                         (Some 2)).
  { vm_compute in Hfound. now injection Hfound as <-. }
  subst found. rewrite Heq.
  split; [reflexivity|]. split; [reflexivity|].
  split; [exact Houter | exact Hinner].
Defined.

Lemma getHtmlNodeLSInternal_frame_witness :
  parseCache (snd (getHtmlNodeLSInternal sampleParser sampleFindNodeAt 2
                     sampleDocument 27 false emptyState))
  = Some ("file:///sample.html", 1%Z, 0).
Proof.
  exact (proj1 (getHtmlNodeLSInternal_frame sampleParser sampleFindNodeAt
                  sampleFindNodeAt_reachable 2 sampleDocument 27 emptyState (Some 3)
                  wfState_emptyState eq_refl)).
Defined.

(** C3 as stated fails: after a resolution inside the body of the sample
    script tag, the cache holds the tree of the document, the script node
    (object 1) is a child of its root, and that node has been changed: the
    node found in the synthetic document (object 3) is now among its
    children. *)
Lemma cached_tree_is_mutated :
  let parsed := parseMarkupDocument sampleParser sampleDocument true emptyState in
  let st' := snd (getHtmlNodeLSInternal sampleParser sampleFindNodeAt 2
                    sampleDocument 27 false emptyState) in
  parseCache st' = Some ("file:///sample.html", 1%Z, fst parsed)
  /\ reach (heap st') (fst parsed) 1
  /\ ls_children <$> heap (snd parsed) !! 1 = Some []
  /\ ls_children <$> heap st' !! 1 = Some [3]
  /\ heap (snd parsed) !! 1 <> heap st' !! 1.
Proof.
  cbn zeta. split; [reflexivity|]. split.
  - eapply reach_child with (c := 1); [reflexivity | simpl; auto | constructor].
  - split; [reflexivity|]. split; [reflexivity|].
    intros Heq. apply (f_equal (fmap ls_children)) in Heq.
    vm_compute in Heq. discriminate.
Qed.

(** ** Positions and offsets of a document *)

Lemma lineStart_succ ls l :
  l < length ls -> lineStart ls (S l) = lineStart ls l + length (nth l ls []) + 1.
Proof.
  revert l. induction ls as [|x ls IH]; intros l Hl; simpl in Hl; [lia|].
  destruct l as [|l].
  - simpl. destruct ls; simpl; lia.
  - change (lineStart (x :: ls) (S (S l))) with (length x + 1 + lineStart ls (S l)).
    rewrite IH by lia. simpl. lia.
Qed.

Lemma lineStart_mono ls l l' : l <= l' -> lineStart ls l <= lineStart ls l'.
Proof.
  revert l l'. induction ls as [|x ls IH]; intros l l' Hl.
  - destruct l, l'; simpl; lia.
  - destruct l as [|l]; [simpl; lia|]. destruct l' as [|l']; [lia|].
    simpl. specialize (IH l l'). lia.
Qed.

Lemma lineStart_next ls l l' :
  l < l' -> l < length ls ->
  lineStart ls l + length (nth l ls []) + 1 <= lineStart ls l'.
Proof.
  intros Hl Hlen. rewrite <- lineStart_succ by exact Hlen.
  apply lineStart_mono. lia.
Qed.

Lemma lineCount_pos d : 0 < lineCount d.
Proof. unfold lineCount, docLines. simpl. lia. Qed.

Lemma validPos_endOfDocument d : validPos d (endOfDocument d).
Proof.
  pose proof (lineCount_pos d). unfold validPos, endOfDocument.
  cbn [line character]. lia.
Qed.

Lemma offsetOf_lt d p q :
  validPos d p -> isBefore p q = true -> offsetOf d p < offsetOf d q.
Proof.
  intros [Hl Hc] Hb. apply isBefore_lt in Hb. unfold offsetOf.
  destruct Hb as [Hlt | [Heq Hlt]].
  - pose proof (lineStart_next (docLines d) (line p) (line q) Hlt Hl).
    unfold lineAt in Hc. lia.
  - rewrite Heq. lia.
Qed.

Lemma offsetOf_le d p q :
  validPos d p -> isBeforeOrEqual p q = true -> offsetOf d p <= offsetOf d q.
Proof.
  intros [Hl Hc] Hb. apply isBeforeOrEqual_le in Hb. unfold offsetOf.
  destruct Hb as [Hlt | [Heq Hle]].
  - pose proof (lineStart_next (docLines d) (line p) (line q) Hlt Hl).
    unfold lineAt in Hc. lia.
  - rewrite Heq. lia.
Qed.

Lemma isBefore_total p q : isBefore p q = false -> isBeforeOrEqual q p = true.
Proof.
  intros H. apply isAfterOrEqual_ge. unfold isAfterOrEqual. now rewrite H.
Qed.

Lemma isBeforeOrEqual_total p q : isBeforeOrEqual p q = false -> isBefore q p = true.
Proof.
  intros H. apply isAfter_gt. unfold isAfter. now rewrite H.
Qed.

Lemma isBefore_offsetOf d p q :
  validPos d p -> validPos d q ->
  isBefore p q = true <-> offsetOf d p < offsetOf d q.
Proof.
  intros Hp Hq. split; [now apply offsetOf_lt|].
  intros Hlt. destruct (isBefore p q) eqn:Hb; [reflexivity|].
  apply isBefore_total in Hb. pose proof (offsetOf_le d q p Hq Hb). lia.
Qed.

Lemma isBeforeOrEqual_offsetOf d p q :
  validPos d p -> validPos d q ->
  isBeforeOrEqual p q = true <-> offsetOf d p <= offsetOf d q.
Proof.
  intros Hp Hq. split; [now apply offsetOf_le|].
  intros Hle. destruct (isBeforeOrEqual p q) eqn:Hb; [reflexivity|].
  apply isBeforeOrEqual_total in Hb. pose proof (offsetOf_lt d q p Hq Hb). lia.
Qed.

(** Two positions of the document with the same offset are the same. *)
Lemma offsetOf_inj d p q :
  validPos d p -> validPos d q -> offsetOf d p = offsetOf d q -> p = q.
Proof.
  intros Hp Hq Heq.
  destruct (isBefore p q) eqn:H1.
  { apply (offsetOf_lt d) in H1; [lia | exact Hp]. }
  destruct (isBefore q p) eqn:H2.
  { apply (offsetOf_lt d) in H2; [lia | exact Hq]. }
  apply isBefore_total, isBeforeOrEqual_le in H1.
  apply isBefore_total, isBeforeOrEqual_le in H2.
  destruct p, q; simpl in *. f_equal; lia.
Qed.

Lemma offsetOf_le_total d p : validPos d p -> offsetOf d p <= totalLength d.
Proof.
  intros Hp. apply offsetOf_le; [exact Hp|].
  destruct Hp as [Hl Hc]. apply isBeforeOrEqual_le. unfold endOfDocument.
  cbn [line character].
  destruct (Nat.eq_dec (line p) (lineCount d - 1)) as [Heq|Hne]; [|lia].
  right. rewrite <- Heq. lia.
Qed.

Lemma validatePosition_valid d p : validPos d p -> validatePosition d p = p.
Proof.
  intros [Hl Hc]. unfold validatePosition.
  destruct (lineCount d <=? line p) eqn:Hle; [apply Nat.leb_le in Hle; lia|].
  rewrite Nat.min_l by exact Hc. now destruct p.
Qed.

Lemma offsetAt_valid d p : validPos d p -> offsetAt d p = offsetOf d p.
Proof. intros Hp. unfold offsetAt. now rewrite validatePosition_valid. Qed.

Lemma validPos_validatePosition d p : validPos d (validatePosition d p).
Proof.
  unfold validatePosition.
  destruct (lineCount d <=? line p) eqn:Hle; [apply validPos_endOfDocument|].
  apply Nat.leb_gt in Hle. split; cbn [line character]; lia.
Qed.

Lemma offsetAt_le_total d p : offsetAt d p <= totalLength d.
Proof. apply (offsetOf_le_total d), validPos_validatePosition. Qed.

(** [positionAt] answers with the position of the document at the given
    offset, or with the end of the document when the offset is beyond. *)
Lemma positionFrom_spec ls :
  ls <> [] ->
  forall l off,
    let p := positionFrom ls l off in
    l <= line p < l + length ls
    /\ character p <= length (nth (line p - l) ls [])
    /\ lineStart ls (line p - l) + character p
       = Nat.min off (lineStart ls (length ls - 1) + length (nth (length ls - 1) ls [])).
Proof.
  induction ls as [|x ls IH]; [congruence|]. intros _ l off.
  destruct ls as [|y r].
  - simpl. rewrite Nat.sub_diag. simpl. lia.
  - cbn zeta. change (positionFrom (x :: y :: r) l off)
      with (if off <=? length x then mkPosition l off
            else positionFrom (y :: r) (S l) (off - (length x + 1))).
    destruct (off <=? length x) eqn:Hoff.
    + apply Nat.leb_le in Hoff. simpl line. simpl character.
      rewrite Nat.sub_diag.
      change (length (x :: y :: r) - 1) with (S (length r)).
      change (lineStart (x :: y :: r) (S (length r)))
        with (length x + 1 + lineStart (y :: r) (length r)).
      simpl. lia.
    + apply Nat.leb_gt in Hoff.
      specialize (IH ltac:(discriminate) (S l) (off - (length x + 1))).
      cbn zeta in IH.
      set (p := positionFrom (y :: r) (S l) (off - (length x + 1))) in *.
      destruct IH as ((Hl1 & Hl2) & Hc & Hsum).
      change (length (x :: y :: r)) with (S (length (y :: r))).
      replace (line p - l) with (S (line p - S l)) by lia.
      change (nth (S (line p - S l)) (x :: y :: r) [])
        with (nth (line p - S l) (y :: r) []).
      change (lineStart (x :: y :: r) (S (line p - S l)))
        with (length x + 1 + lineStart (y :: r) (line p - S l)).
      replace (S (length (y :: r)) - 1) with (S (length (y :: r) - 1))
        by (simpl; lia).
      change (nth (S (length (y :: r) - 1)) (x :: y :: r) [])
        with (nth (length (y :: r) - 1) (y :: r) []).
      change (lineStart (x :: y :: r) (S (length (y :: r) - 1)))
        with (length x + 1 + lineStart (y :: r) (length (y :: r) - 1)).
      split; [lia|]. split; [exact Hc|]. lia.
Qed.

Lemma positionAt_spec d (k : nat) :
  validPos d (positionAt d (Z.of_nat k))
  /\ offsetOf d (positionAt d (Z.of_nat k)) = Nat.min k (totalLength d).
Proof.
  unfold positionAt. rewrite Nat2Z.id.
  pose proof (positionFrom_spec (docLines d) ltac:(discriminate) 0 k) as H.
  cbn zeta in H. destruct H as ((_ & Hl) & Hc & Hsum).
  rewrite Nat.sub_0_r in Hc, Hsum.
  split; [split; [exact Hl | exact Hc]|].
  unfold offsetOf, totalLength, endOfDocument, lineAt, lineCount. simpl line.
  simpl character. exact Hsum.
Qed.

Lemma positionAt_offsetOf d p :
  validPos d p -> positionAt d (Z.of_nat (offsetOf d p)) = p.
Proof.
  intros Hp. destruct (positionAt_spec d (offsetOf d p)) as [Hv Ho].
  apply (offsetOf_inj d); [exact Hv | exact Hp|].
  rewrite Ho. pose proof (offsetOf_le_total d p Hp). lia.
Qed.

(** ** The stream reader on a whole document *)

Lemma wholeDocument_seek d s p : wholeDocument d s -> wholeDocument d (seek s p).
Proof. intros (H1 & H2 & H3). repeat split; assumption. Qed.

Lemma wholeDocument_newStream d p : wholeDocument d (newStream d (Some p) None).
Proof. repeat split. Qed.

Lemma eof_iff_end d s :
  wholeDocument d s -> validPos d (pos s) ->
  eof s = true <-> pos s = endOfDocument d.
Proof.
  intros (_ & _ & He) Hv. unfold eof. rewrite He. split.
  - intros H. apply isAfterOrEqual_ge in H.
    apply (offsetOf_le d) in H; [|apply validPos_endOfDocument].
    pose proof (offsetOf_le_total d _ Hv). unfold totalLength in *.
    apply (offsetOf_inj d); [exact Hv | apply validPos_endOfDocument | lia].
  - intros ->. apply isAfterOrEqual_ge, isBeforeOrEqual_le. lia.
Qed.

Lemma eof_false_offset d s :
  wholeDocument d s -> validPos d (pos s) -> eof s = false ->
  offsetOf d (pos s) < totalLength d.
Proof.
  intros Hw Hv He. pose proof (offsetOf_le_total d _ Hv) as Hle.
  destruct (Nat.eq_dec (offsetOf d (pos s)) (totalLength d)) as [Heq|Hne]; [|lia].
  apply (offsetOf_inj d) in Heq; [|exact Hv | apply validPos_endOfDocument].
  apply (eof_iff_end d s Hw Hv) in Heq. congruence.
Qed.

Lemma eof_true_offset d s :
  wholeDocument d s -> validPos d (pos s) -> totalLength d <= offsetOf d (pos s) ->
  eof s = true.
Proof.
  intros Hw Hv Hle. destruct (eof s) eqn:He; [reflexivity|].
  pose proof (eof_false_offset d s Hw Hv He). lia.
Qed.

Lemma peek_valid d s :
  wholeDocument d s -> eof s = false -> peek s = codeAt d (pos s).
Proof. intros (Hd & _) He. unfold peek. now rewrite He, Hd. Qed.

Lemma codeAt_in_line d p c :
  codeAt d p = Some c -> c <> lineFeed ->
  character p < length (lineAt d (line p)).
Proof.
  intros Hcode Hne. unfold codeAt in Hcode. cbn zeta in Hcode.
  destruct (character p <? length (lineAt d (line p))) eqn:Hlt;
    [now apply Nat.ltb_lt in Hlt|].
  destruct (character p - length (lineAt d (line p))) as [|[|k]];
    simpl in Hcode; congruence.
Qed.

(** [next] moves on by one character. *)
Lemma next_spec d s :
  wholeDocument d s -> validPos d (pos s) -> eof s = false ->
  wholeDocument d (snd (next s))
  /\ validPos d (pos (snd (next s)))
  /\ offsetOf d (pos (snd (next s))) = S (offsetOf d (pos s))
  /\ fst (next s) = codeAt d (pos s)
  /\ (character (pos s) < length (lineAt d (line (pos s))) ->
      pos (snd (next s)) = mkPosition (line (pos s)) (character (pos s) + 1)).
Proof.
  intros Hw Hv He. pose proof Hw as (Hd & Hs & Hend).
  unfold next. rewrite He, Hd. cbn zeta.
  set (q := if character (pos s) <? length (lineAt d (line (pos s)))
            then seek s (mkPosition (line (pos s)) (character (pos s) + 1))
            else seek s (mkPosition (line (pos s) + 1) 0)).
  assert (Hq : wholeDocument d q /\ validPos d (pos q)
               /\ offsetOf d (pos q) = S (offsetOf d (pos s))).
  { destruct Hv as [Hl Hc]. subst q.
    destruct (character (pos s) <? length (lineAt d (line (pos s)))) eqn:Hlt.
    - apply Nat.ltb_lt in Hlt. split; [now apply wholeDocument_seek|].
      split; [split; cbn [seek pos line character]; lia|].
      unfold offsetOf. cbn [seek pos line character]. lia.
    - apply Nat.ltb_ge in Hlt.
      assert (Hnl : line (pos s) <> lineCount d - 1).
      { intros Heq. assert (Hp : pos s = endOfDocument d).
        { unfold endOfDocument. rewrite <- Heq. destruct (pos s); simpl in *.
          f_equal. lia. }
        apply (eof_iff_end d s Hw (conj Hl Hc)) in Hp. congruence. }
      split; [now apply wholeDocument_seek|].
      split; [split; cbn [seek pos line character]; lia|].
      unfold offsetOf. cbn [seek pos line character].
      rewrite Nat.add_1_r, lineStart_succ by (unfold lineCount in Hl; exact Hl).
      unfold lineAt in *. lia. }
  destruct Hq as (Hwq & Hvq & Hoq).
  assert (Hres : (if eof q then seek q (eofPosition q) else q) = q).
  { destruct (eof q) eqn:Heq; [|reflexivity].
    apply (eof_iff_end d q Hwq Hvq) in Heq.
    destruct Hwq as (_ & _ & Hendq). rewrite Hendq.
    destruct q as [dq pq sq eq]. cbn [pos] in Heq. subst pq. reflexivity. }
  cbn [fst snd]. rewrite Hres.
  split; [exact Hwq|]. split; [exact Hvq|]. split; [exact Hoq|].
  split; [reflexivity|].
  intros Hlt. subst q. apply Nat.ltb_lt in Hlt. now rewrite Hlt.
Qed.

Lemma backUpRows_nonneg d row column :
  (0 <= column)%Z ->
  backUpRows d row column = Returned (mkPosition row (Z.to_nat column)).
Proof.
  intros H. destruct row; simpl;
    (destruct (column <? 0)%Z eqn:Hneg; [lia | reflexivity]).
Qed.

Lemma lineStart_zero ls : lineStart ls 0 = 0.
Proof. destruct ls; reflexivity. Qed.

(** [backUp(1)] moves back by one character. *)
Lemma backUp_spec d s :
  wholeDocument d s -> validPos d (pos s) -> 0 < offsetOf d (pos s) ->
  exists ch s2,
    backUp 1 s = Returned (ch, s2)
    /\ wholeDocument d s2
    /\ validPos d (pos s2)
    /\ S (offsetOf d (pos s2)) = offsetOf d (pos s)
    /\ ch = codeAt d (pos s2).
Proof.
  intros Hw Hv Hpos. pose proof Hw as (Hd & Hs & Hend).
  unfold backUp. cbn zeta. cbn [Nat.eqb]. rewrite Hd.
  assert (Hq : exists q,
             backUpRows d (line (pos s)) (Z.of_nat (character (pos s)) - Z.of_nat 1)
             = Returned q
             /\ validPos d q /\ S (offsetOf d q) = offsetOf d (pos s)).
  { destruct Hv as [Hl Hc].
    destruct (character (pos s)) as [|c] eqn:Hch.
    - unfold offsetOf in Hpos. rewrite Hch, Nat.add_0_r in Hpos.
      destruct (line (pos s)) as [|r] eqn:Hln; [rewrite lineStart_zero in Hpos; lia|].
      simpl backUpRows.
      assert (Hll : lineLength d r = length (lineAt d r) + 1).
      { unfold lineLength. destruct (r =? lineCount d - 1) eqn:Hr; [|reflexivity].
        apply Nat.eqb_eq in Hr. lia. }
      rewrite Hll, backUpRows_nonneg by lia. eexists. split; [reflexivity|].
      split; [split; cbn [line character]; lia|].
      unfold offsetOf. cbn [line character]. rewrite Hch, Hln.
      rewrite lineStart_succ by (unfold lineCount in Hl; lia).
      unfold lineAt. lia.
    - rewrite backUpRows_nonneg by lia. eexists. split; [reflexivity|].
      split; [split; cbn [line character]; lia|].
      unfold offsetOf. cbn [line character]. rewrite Hch. lia. }
  destruct Hq as (q & -> & Hvq & Hoq). cbn [bind].
  assert (Hwq : wholeDocument d (seek s q)) by now apply wholeDocument_seek.
  exists (peek (seek s q)), (seek s q). split; [reflexivity|].
  split; [exact Hwq|]. split; [exact Hvq|]. split; [exact Hoq|].
  apply (peek_valid d); [exact Hwq|].
  destruct (eof (seek s q)) eqn:He; [|reflexivity].
  apply (eof_iff_end d _ Hwq Hvq) in He. cbn [seek pos] in He.
  pose proof (offsetOf_le_total d _ Hv). unfold totalLength in *.
  rewrite He in Hoq. lia.
Qed.

(** At the start of the document there is nothing to back up to: the
    reader throws. *)
Lemma backUp_start s : pos s = mkPosition 0 0 -> backUp 1 s = Thrown IllegalLine.
Proof. intros Hp. unfold backUp. now rewrite Hp. Qed.

Lemma eat_spec d s code :
  wholeDocument d s -> validPos d (pos s) ->
  eat code s = if codeIs (peek s) code then (true, snd (next s)) else (false, s).
Proof.
  intros Hw Hv. unfold eat, codeIs. destruct (peek s) as [ch|]; [|reflexivity].
  destruct (ch =? code); reflexivity.
Qed.

Lemma codeIs_peek d s code :
  wholeDocument d s -> codeIs (peek s) code = true ->
  eof s = false /\ codeAt d (pos s) = Some code.
Proof.
  intros (Hd & _) H. unfold peek in H. destruct (eof s); [discriminate|].
  split; [reflexivity|]. rewrite Hd in H. unfold codeIs in H.
  destruct (codeAt d (pos s)) as [c|]; [|discriminate].
  apply Nat.eqb_eq in H. now subst.
Qed.


(** ** The backward scan: braces *)

Lemma exit_stops_loops doc position sc :
  exit sc = true ->
  (forall fuel, backwardLoop doc position fuel sc = Some (Returned sc))
  /\ (forall fuel,
        selectorLoop doc fuel (selectorEntry sc) = Some (Returned (selectorEntry sc))).
Proof.
  intros He. split; intros fuel.
  - destruct fuel; cbn [backwardLoop]; unfold backwardCond; now rewrite He.
  - assert (He' : exit (selectorEntry sc) = true) by exact He.
    destruct fuel; cbn [selectorLoop]; unfold selectorCond; now rewrite He'.
Qed.


(** ** The forward scan *)

Lemma eat_valid d s code :
  wholeDocument d s -> validPos d (pos s) ->
  wholeDocument d (snd (eat code s))
  /\ validPos d (pos (snd (eat code s)))
  /\ (fst (eat code s) = true ->
      eof s = false /\ codeAt d (pos s) = Some code
      /\ snd (eat code s) = snd (next s)
      /\ offsetOf d (pos (snd (eat code s))) = S (offsetOf d (pos s)))
  /\ (fst (eat code s) = false ->
      snd (eat code s) = s /\ codeIs (peek s) code = false).
Proof.
  intros Hw Hv. rewrite (eat_spec d s code Hw Hv).
  destruct (codeIs (peek s) code) eqn:Hc; cbn [fst snd].
  - destruct (codeIs_peek d s code Hw Hc) as [He Hcode].
    destruct (next_spec d s Hw Hv He) as (Hw' & Hv' & Ho' & _).
    repeat (split; [assumption|]). split; [auto | discriminate].
  - repeat (split; [assumption|]). split; [discriminate | auto].
Qed.

Lemma eof_past_last_line d s l :
  wholeDocument d s -> lineCount d <= l -> eof (seek s (mkPosition l 0)) = true.
Proof.
  intros (_ & _ & He) Hl. unfold eof. cbn [seek pos eofPosition]. rewrite He.
  apply isAfterOrEqual_ge, isBeforeOrEqual_le. unfold endOfDocument.
  cbn [line character]. pose proof (lineCount_pos d). lia.
Qed.

Lemma positionAt_progress d s (k : nat) p :
  wholeDocument d s -> validPos d p -> offsetOf d p < k ->
  eof (seek s (positionAt d (Z.of_nat k))) = true
  \/ (validPos d (positionAt d (Z.of_nat k))
      /\ offsetOf d p < offsetOf d (positionAt d (Z.of_nat k))).
Proof.
  intros Hw Hp Hk. destruct (positionAt_spec d k) as [Hv Ho].
  destruct (Nat.le_gt_cases (totalLength d) k) as [Hge|Hlt].
  - left. apply (eof_true_offset d); [now apply wholeDocument_seek | exact Hv|].
    cbn [seek pos]. lia.
  - right. split; [exact Hv | lia].
Qed.

Lemma consumeCommentForwards_progress d s :
  wholeDocument d s -> validPos d (pos s) -> codeIs (peek s) slash = true ->
  let s' := consumeCommentForwards d (endOfDocument d) s in
  wholeDocument d s'
  /\ (eof s' = true
      \/ (validPos d (pos s') /\ offsetOf d (pos s) < offsetOf d (pos s'))).
Proof.
  intros Hw Hv Hslash. cbn zeta. unfold consumeCommentForwards.
  pose proof (eat_valid d s slash Hw Hv) as H1.
  rewrite (eat_spec d s slash Hw Hv), Hslash in H1 |- *. cbn [fst snd] in *.
  destruct H1 as (Hw1 & Hv1 & Ht1 & _).
  destruct (Ht1 eq_refl) as (He & Hcode & _ & Ho1). clear Ht1.
  set (s1 := snd (next s)) in *.
  destruct (eat_valid d s1 slash Hw1 Hv1) as (Hw2 & Hv2 & Ht2 & Hf2).
  assert (Ho2 : offsetOf d (pos s1) <= offsetOf d (pos (snd (eat slash s1)))).
  { destruct (fst (eat slash s1)) eqn:Hate.
    - destruct (Ht2 eq_refl) as (_ & _ & _ & Ho). lia.
    - destruct (Hf2 eq_refl) as [-> _]. lia. }
  destruct (eat slash s1) as [ate2 s2]. cbn [fst snd] in *. clear Ht2 Hf2.
  destruct (ate2 && negb (isCSS d)).
  - split; [now apply wholeDocument_seek|].
    destruct (Nat.le_gt_cases (lineCount d) (line (pos s2) + 1)) as [Hlast|Hin].
    + left. now apply (eof_past_last_line d).
    + right. cbn [seek pos]. split; [split; cbn [line character]; lia|].
      destruct Hv2 as [Hl2 Hc2]. unfold offsetOf in *. cbn [line character].
      rewrite Nat.add_1_r, lineStart_succ by (unfold lineCount in Hl2; exact Hl2).
      unfold lineAt in Hc2. lia.
  - destruct (eat_valid d s2 star Hw2 Hv2) as (Hw3 & Hv3 & Ht3 & Hf3).
    destruct (eat star s2) as [ate3 s3]. cbn [fst snd] in *.
    destruct ate3.
    + destruct (Ht3 eq_refl) as (_ & _ & _ & Ho3).
      split; [now apply wholeDocument_seek|].
      unfold findClosingCommentAfterPosition.
      destruct (indexOf [star; slash] _) as [offset|].
      * apply (positionAt_progress d s3 _ (pos s) Hw3 Hv).
        rewrite (offsetAt_valid d _ Hv3). lia.
      * left. apply (eof_iff_end d); [now apply wholeDocument_seek| |reflexivity].
        apply validPos_endOfDocument.
    + destruct (Hf3 eq_refl) as [-> _]. split; [exact Hw2|]. right.
      split; [exact Hv2 | lia].
Qed.

Lemma forwardStep_progress d s :
  wholeDocument d s -> validPos d (pos s) -> eof s = false ->
  let s' := forwardStep d (endOfDocument d) s in
  wholeDocument d s'
  /\ (eof s' = true
      \/ (validPos d (pos s') /\ offsetOf d (pos s) < offsetOf d (pos s'))).
Proof.
  intros Hw Hv He. cbn zeta. unfold forwardStep.
  destruct (codeIs (peek s) slash) eqn:Hslash.
  - now apply consumeCommentForwards_progress.
  - destruct (next_spec d s Hw Hv He) as (Hw' & Hv' & Ho' & _).
    split; [exact Hw'|]. right. split; [exact Hv' | lia].
Qed.

Lemma forwardLoop_eof d e fuel s : eof s = true -> forwardLoop d fuel e s = Some s.
Proof. intros He. destruct fuel; cbn [forwardLoop]; now rewrite He. Qed.

(** The forward loop comes to an end; it ends at the end of the document
    or just after a closing brace that lies at or after its start. *)
Lemma forwardLoop_result d fuel :
  forall s,
    wholeDocument d s ->
    eof s = true \/ (validPos d (pos s) /\ totalLength d - offsetOf d (pos s) <= fuel) ->
    exists s',
      forwardLoop d fuel (endOfDocument d) s = Some s'
      /\ wholeDocument d s'
      /\ (endBoundary d s' = endOfDocument d
          \/ exists b, validPos d b
                       /\ (validPos d (pos s) -> offsetOf d (pos s) <= offsetOf d b)
                       /\ codeAt d b = Some closeBrace
                       /\ endBoundary d s' = mkPosition (line b) (character b + 1)).
Proof.
  induction fuel as [|fuel IH]; intros s Hw Hs.
  - assert (He : eof s = true).
    { destruct Hs as [He | [Hv Hle]]; [exact He|].
      apply (eof_true_offset d s Hw Hv). lia. }
    exists s. split; [now apply forwardLoop_eof|]. split; [exact Hw|].
    left. unfold endBoundary. now rewrite He.
  - destruct (eof s) eqn:He.
    { exists s. split; [now apply forwardLoop_eof|]. split; [exact Hw|].
      left. unfold endBoundary. now rewrite He. }
    destruct Hs as [Hs | [Hv Hle]]; [discriminate|].
    cbn [forwardLoop]. rewrite He.
    destruct (eat_valid d s closeBrace Hw Hv) as (Hw1 & Hv1 & Ht1 & Hf1).
    destruct (eat closeBrace s) as [ate s1]. cbn [fst snd] in *.
    destruct ate.
    + destruct (Ht1 eq_refl) as (_ & Hcode & Hnext & Ho1).
      exists s1. split; [reflexivity|]. split; [exact Hw1|]. right.
      exists (pos s). split; [exact Hv|]. split; [lia|]. split; [exact Hcode|].
      assert (Hpos : pos s1 = mkPosition (line (pos s)) (character (pos s) + 1)).
      { rewrite Hnext. apply (next_spec d s Hw Hv He).
        apply (codeAt_in_line d _ closeBrace Hcode). discriminate. }
      unfold endBoundary. destruct (eof s1) eqn:He1; [|exact Hpos].
      cbn [negb]. apply (eof_iff_end d s1 Hw1 Hv1) in He1. congruence.
    + destruct (Hf1 eq_refl) as [-> _].
      destruct (forwardStep_progress d s Hw Hv He) as (Hw2 & Hs2).
      destruct (IH (forwardStep d (endOfDocument d) s) Hw2) as (s' & Hrun & Hw' & Hres).
      { destruct Hs2 as [He2 | [Hv2 Ho2]]; [now left|]. right. split; [exact Hv2|].
        pose proof (eof_false_offset d s Hw Hv He). lia. }
      exists s'. split; [exact Hrun|]. split; [exact Hw'|].
      destruct Hres as [Hend | (b & Hvb & Hob & Hcb & Hb)]; [now left|].
      destruct Hs2 as [He2 | [Hv2 Ho2]].
      * left. rewrite (forwardLoop_eof _ _ _ _ He2) in Hrun. injection Hrun as <-.
        unfold endBoundary. now rewrite He2.
      * right. exists b. split; [exact Hvb|]. split; [intros _; specialize (Hob Hv2); lia|].
        split; [exact Hcb | exact Hb].
Qed.

Lemma codeIs_codeAt d p code :
  codeIs (codeAt d p) code = true <-> codeAt d p = Some code.
Proof.
  unfold codeIs. destruct (codeAt d p) as [c|]; [|split; discriminate].
  rewrite Nat.eqb_eq. split; [now intros -> | now intros [= ->]].
Qed.

Lemma forwardScan_unfold doc position fuel :
  forwardScan doc position fuel
  = match forwardLoop doc fuel (endOfDocument doc)
            (newStream doc (Some position) None) with
    | None => None
    | Some s => Some (setStream (seek s position)
                        (backwardEntry doc position (endBoundary doc s)))
    end.
Proof. reflexivity. Qed.

Lemma isPrefix_two a b text :
  isPrefix [a; b] text = true -> exists r, text = a :: b :: r.
Proof.
  destruct text as [|x [|y r]]; simpl; try discriminate.
  - rewrite andb_false_r. discriminate.
  - rewrite andb_true_r, andb_true_iff, !Nat.eqb_eq. intros [-> ->]. eauto.
Qed.

Lemma isPrefix_length pat text : isPrefix pat text = true -> length pat <= length text.
Proof.
  revert text. induction pat as [|p pat IH]; intros text H; simpl; [lia|].
  destruct text as [|t text]; simpl in *; [discriminate|].
  apply andb_true_iff in H as [_ H]. apply IH in H. lia.
Qed.

Lemma indexOf_two a b text i :
  indexOf [a; b] text = Some i ->
  nth_error text i = Some a /\ i + 2 <= length text.
Proof.
  revert i. induction text as [|x text IH]; intros i H.
  - simpl in H. discriminate.
  - cbn [indexOf] in H. destruct (isPrefix [a; b] (x :: text)) eqn:Hp.
    + injection H as <-. apply isPrefix_length in Hp as Hlen.
      apply isPrefix_two in Hp as (r & Hr). injection Hr as -> ->.
      split; [reflexivity | simpl in *; lia].
    + destruct (indexOf [a; b] text) as [j|]; [|discriminate].
      injection H as <-. destruct (IH j eq_refl) as [Hn Hl].
      split; [exact Hn | simpl; lia].
Qed.

(** ** The text of a document and its positions *)

Lemma skipn_join x n J : skipn (length x + 1 + n) (x ++ lineFeed :: J) = skipn n J.
Proof. induction x as [|a x IH]; [reflexivity | exact IH]. Qed.

Lemma skipn_within c (x rest : list nat) :
  c <= length x -> skipn c (x ++ rest) = skipn c x ++ rest.
Proof.
  revert c. induction x as [|a x IH]; intros c Hc.
  - simpl in Hc. replace c with 0 by lia. reflexivity.
  - destruct c as [|c]; [reflexivity|]. simpl. apply IH. simpl in Hc. lia.
Qed.

(** The text from a position on: the rest of its line and, when a line
    follows, a line feed and the text from the start of that line on. *)
Lemma joinLines_skipn ls :
  forall l c,
    l < length ls -> c <= length (nth l ls []) ->
    skipn (lineStart ls l + c) (joinLines ls)
    = skipn c (nth l ls [])
      ++ (if S l <? length ls
          then lineFeed :: skipn (lineStart ls (S l)) (joinLines ls)
          else []).
Proof.
  induction ls as [|x ls IH]; intros l c Hl Hc; [simpl in Hl; lia|].
  destruct l as [|l].
  - rewrite lineStart_zero. cbn [nth Nat.add] in *. destruct ls as [|y r].
    + cbn. now rewrite app_nil_r.
    + change (joinLines (x :: y :: r)) with (x ++ lineFeed :: joinLines (y :: r)).
      rewrite skipn_within by exact Hc. f_equal.
      change (S 0 <? length (x :: y :: r)) with true. cbn iota. f_equal.
      change (lineStart (x :: y :: r) 1) with (length x + 1 + lineStart (y :: r) 0).
      rewrite lineStart_zero, skipn_join. reflexivity.
  - destruct ls as [|y r]; [simpl in Hl; lia|].
    change (joinLines (x :: y :: r)) with (x ++ lineFeed :: joinLines (y :: r)).
    change (lineStart (x :: y :: r) (S l)) with (length x + 1 + lineStart (y :: r) l).
    change (lineStart (x :: y :: r) (S (S l)))
      with (length x + 1 + lineStart (y :: r) (S l)).
    change (nth (S l) (x :: y :: r) []) with (nth l (y :: r) []) in *.
    rewrite <- Nat.add_assoc, !skipn_join.
    rewrite IH by (simpl in Hl |- *; lia || exact Hc).
    reflexivity.
Qed.

Lemma joinLines_length ls :
  ls <> [] ->
  length (joinLines ls)
  = lineStart ls (length ls - 1) + length (nth (length ls - 1) ls []).
Proof.
  induction ls as [|x ls IH]; [congruence|]. intros _.
  destruct ls as [|y r]; [cbn; lia|].
  change (joinLines (x :: y :: r)) with (x ++ lineFeed :: joinLines (y :: r)).
  rewrite length_app. cbn [length]. rewrite IH by discriminate.
  replace (length (y :: r) - 1) with (length r) by (cbn; lia).
  replace (S (S (length r)) - 1) with (S (length r)) by lia.
  change (lineStart (x :: y :: r) (S (length r)))
    with (length x + 1 + lineStart (y :: r) (length r)).
  cbn [nth]. lia.
Qed.

Lemma length_fullText d : length (fullText d) = totalLength d.
Proof.
  unfold fullText. rewrite joinLines_length by discriminate. reflexivity.
Qed.

Lemma skipn_fullText d p :
  validPos d p ->
  skipn (offsetOf d p) (fullText d)
  = skipn (character p) (lineAt d (line p))
    ++ (if S (line p) <? lineCount d
        then lineFeed :: skipn (lineStart (docLines d) (S (line p))) (fullText d)
        else []).
Proof. intros [Hl Hc]. now apply joinLines_skipn. Qed.

Lemma skipn_hd (l : list nat) k c :
  nth_error (skipn k l) 0 = Some c -> skipn k l = c :: skipn (S k) l.
Proof.
  revert k. induction l as [|a l IH]; intros k H.
  - destruct k; discriminate.
  - destruct k as [|k]; [simpl in H; injection H as ->; reflexivity|].
    cbn [skipn] in *. now apply IH.
Qed.

(** The character under a position that is not the end of the document
    is the first character of the text from that position on. *)
Lemma codeAt_fullText d p :
  validPos d p -> offsetOf d p < totalLength d ->
  exists c,
    codeAt d p = Some c
    /\ skipn (offsetOf d p) (fullText d) = c :: skipn (S (offsetOf d p)) (fullText d).
Proof.
  intros Hv Hlt. pose proof (skipn_fullText d p Hv) as Hskip.
  destruct Hv as [Hl Hc].
  assert (Hhead : exists c, codeAt d p = Some c
                            /\ nth_error (skipn (offsetOf d p) (fullText d)) 0 = Some c).
  { rewrite Hskip. unfold codeAt. cbn zeta.
    destruct (character p <? length (lineAt d (line p))) eqn:Hin.
    - apply Nat.ltb_lt in Hin.
      destruct (nth_error (lineAt d (line p)) (character p)) as [c|] eqn:Hc0.
      2:{ apply nth_error_None in Hc0. lia. }
      exists c. split; [reflexivity|].
      rewrite <- (firstn_skipn (character p) (lineAt d (line p))) in Hc0 at 1.
      rewrite nth_error_app2 in Hc0 by (rewrite length_firstn; lia).
      rewrite length_firstn, Nat.min_l, Nat.sub_diag in Hc0 by lia.
      destruct (skipn (character p) (lineAt d (line p))); [discriminate|].
      exact Hc0.
    - apply Nat.ltb_ge in Hin.
      assert (Hceq : character p = length (lineAt d (line p))) by lia.
      rewrite Hceq, Nat.sub_diag, skipn_all. cbn [app nth_error].
      destruct (S (line p) <? lineCount d) eqn:Hnext; [eauto|].
      exfalso. apply Nat.ltb_ge in Hnext.
      unfold offsetOf, totalLength, endOfDocument, offsetOf in Hlt.
      cbn [line character] in Hlt.
      replace (lineCount d - 1) with (line p) in Hlt by lia. lia. }
  destruct Hhead as (c & Hcode & Hnth). exists c. split; [exact Hcode|].
  now apply skipn_hd.
Qed.

Lemma skipn_fullText_end d k : totalLength d <= k -> skipn k (fullText d) = [].
Proof. intros H. apply skipn_all2. rewrite length_fullText. exact H. Qed.

(** ** The amended words for the end of the block *)

Lemma closing_nil css mode i : closingBraceOutsideComments css mode i [] = None.
Proof. destruct mode; reflexivity. Qed.

Lemma closing_plain css i c rest :
  c <> closeBrace -> c <> slash ->
  closingBraceOutsideComments css inCode i (c :: rest)
  = closingBraceOutsideComments css inCode (S i) rest.
Proof.
  intros Hb Hs. cbn [closingBraceOutsideComments].
  apply Nat.eqb_neq in Hb, Hs. rewrite Hb, Hs. cbn [andb].
  destruct rest; [now rewrite closing_nil | reflexivity].
Qed.

Lemma closing_slash_other css i c2 rest :
  c2 <> slash -> c2 <> star ->
  closingBraceOutsideComments css inCode i (slash :: c2 :: rest)
  = closingBraceOutsideComments css inCode (S i) (c2 :: rest).
Proof.
  intros Hs Ht. cbn [closingBraceOutsideComments].
  apply Nat.eqb_neq in Hs, Ht. rewrite Hs, Ht. reflexivity.
Qed.

(** A line comment runs up to the next line feed. *)
Lemma closing_line_comment css pre :
  forallb (fun c => negb (c =? lineFeed)) pre = true ->
  forall i,
    closingBraceOutsideComments css inLineComment i pre = None
    /\ forall post,
         closingBraceOutsideComments css inLineComment i (pre ++ lineFeed :: post)
         = closingBraceOutsideComments css inCode (i + length pre + 1) post.
Proof.
  induction pre as [|c pre IH]; intros Hpre i.
  - split; [reflexivity|]. intros post. cbn. f_equal. lia.
  - cbn [forallb] in Hpre. apply andb_true_iff in Hpre as [Hc Hpre].
    apply negb_true_iff in Hc.
    cbn [closingBraceOutsideComments app]. rewrite Hc.
    destruct (IH Hpre (S i)) as [Hnone Hpost]. split; [exact Hnone|].
    intros post. rewrite Hpost. f_equal. cbn [length]. lia.
Qed.

(** A block comment runs up to the first star and slash. *)
Lemma closing_block_comment css text :
  forall i,
    closingBraceOutsideComments css inBlockComment i text
    = match indexOf [star; slash] text with
      | Some j =>
          closingBraceOutsideComments css inCode (i + j + 2) (skipn (j + 2) text)
      | None => None
      end.
Proof.
  induction text as [|c text IH]; intros i; [reflexivity|].
  cbn [closingBraceOutsideComments indexOf isPrefix].
  destruct text as [|c2 rest].
  - cbn. rewrite andb_false_r. reflexivity.
  - rewrite (Nat.eqb_sym star c), (Nat.eqb_sym slash c2). rewrite andb_true_r.
    destruct ((c =? star) && (c2 =? slash)) eqn:Hend.
    + cbn. f_equal. lia.
    + rewrite IH. destruct (indexOf [star; slash] (c2 :: rest)) as [j|]; [|reflexivity].
      cbn [option_map]. f_equal. lia.
Qed.

(** ** The forward scan against the amended words *)

Lemma stream_head d s :
  wholeDocument d s -> validPos d (pos s) -> eof s = false ->
  exists c,
    codeAt d (pos s) = Some c /\ peek s = Some c
    /\ skipn (offsetOf d (pos s)) (fullText d)
       = c :: skipn (S (offsetOf d (pos s))) (fullText d).
Proof.
  intros Hw Hv He. pose proof (eof_false_offset d s Hw Hv He) as Hlt.
  destruct (codeAt_fullText d (pos s) Hv Hlt) as (c & Hcode & Hskip).
  exists c. split; [exact Hcode|]. split; [|exact Hskip].
  now rewrite (peek_valid d s Hw He).
Qed.

Lemma stream_end d s :
  wholeDocument d s -> validPos d (pos s) -> eof s = true ->
  skipn (offsetOf d (pos s)) (fullText d) = [].
Proof.
  intros Hw Hv He. apply (eof_iff_end d s Hw Hv) in He. rewrite He.
  now apply skipn_fullText_end.
Qed.

Lemma closing_at_eof d s :
  wholeDocument d s -> validPos d (pos s) ->
  closingBraceOutsideComments (isCSS d) inCode (offsetOf d (pos s))
    (skipn (offsetOf d (pos s)) (fullText d))
  = if eof s then None
    else closingBraceOutsideComments (isCSS d) inCode (offsetOf d (pos s))
           (skipn (offsetOf d (pos s)) (fullText d)).
Proof.
  intros Hw Hv. destruct (eof s) eqn:He; [|reflexivity].
  now rewrite (stream_end d s Hw Hv He).
Qed.

Lemma eat_at_eof s code : eof s = true -> eat code s = (false, s).
Proof. intros He. unfold eat, peek. now rewrite He. Qed.

Lemma eat_head d s code c :
  wholeDocument d s -> validPos d (pos s) -> eof s = false -> peek s = Some c ->
  (c = code ->
   eat code s = (true, snd (next s))
   /\ wholeDocument d (snd (next s)) /\ validPos d (pos (snd (next s)))
   /\ offsetOf d (pos (snd (next s))) = S (offsetOf d (pos s)))
  /\ (c <> code -> eat code s = (false, s)).
Proof.
  intros Hw Hv He Hpeek. split.
  - intros ->. destruct (next_spec d s Hw Hv He) as (Hw' & Hv' & Ho' & _).
    split; [|auto]. unfold eat. now rewrite Hpeek, Nat.eqb_refl.
  - intros Hne. unfold eat. rewrite Hpeek. apply Nat.eqb_neq in Hne. now rewrite Hne.
Qed.

Lemma getText_to_end d p :
  validPos d p ->
  getText d (mkRange p (endOfDocument d)) = skipn (offsetOf d p) (fullText d).
Proof.
  intros Hv. unfold getText, mkRange.
  assert (Hord : isBefore (endOfDocument d) p = false).
  { destruct (isBefore (endOfDocument d) p) eqn:Hb; [|reflexivity].
    apply (offsetOf_lt d _ _ (validPos_endOfDocument d)) in Hb.
    pose proof (offsetOf_le_total d p Hv). unfold totalLength in *. lia. }
  rewrite Hord. cbn [fst snd].
  rewrite (offsetAt_valid d p Hv), (offsetAt_valid d _ (validPos_endOfDocument d)).
  apply firstn_all2. rewrite length_skipn, length_fullText. unfold totalLength. lia.
Qed.

Lemma forallb_skipn {A} (f : A -> bool) n l :
  forallb f l = true -> forallb f (skipn n l) = true.
Proof.
  revert n. induction l as [|a l IH]; intros n H; [now destruct n|].
  destruct n as [|n]; [exact H|]. cbn [skipn]. apply IH.
  cbn [forallb] in H. now apply andb_true_iff in H.
Qed.

Lemma linesWithoutLineFeed_line d l :
  linesWithoutLineFeed d = true ->
  forallb (fun c => negb (c =? lineFeed)) (lineAt d l) = true.
Proof.
  unfold linesWithoutLineFeed, lineAt. generalize (docLines d). intros ls. revert l.
  induction ls as [|x ls IH]; intros l H; [now destruct l|].
  cbn [forallb] in H. apply andb_true_iff in H as [Hx Hls].
  destruct l as [|l]; [exact Hx | now apply IH].
Qed.

(** A line comment is skipped up to the start of the next line, which is
    where the text goes on after the next line feed. *)
Lemma line_comment_jump d s :
  wholeDocument d s -> validPos d (pos s) -> linesWithoutLineFeed d = true ->
  let s' := seek s (mkPosition (line (pos s) + 1) 0) in
  closingBraceOutsideComments (isCSS d) inLineComment (offsetOf d (pos s))
    (skipn (offsetOf d (pos s)) (fullText d))
  = if eof s' then None
    else closingBraceOutsideComments (isCSS d) inCode (offsetOf d (pos s'))
           (skipn (offsetOf d (pos s')) (fullText d)).
Proof.
  intros Hw Hv Hlf. cbn zeta. rewrite (skipn_fullText d _ Hv).
  pose proof (forallb_skipn _ (character (pos s)) _
                (linesWithoutLineFeed_line d (line (pos s)) Hlf)) as Hpre.
  destruct (closing_line_comment (isCSS d) _ Hpre (offsetOf d (pos s))) as [Hnone Hpost].
  rewrite Nat.add_1_r.
  destruct (S (line (pos s)) <? lineCount d) eqn:Hnext.
  - apply Nat.ltb_lt in Hnext. rewrite Hpost.
    set (s' := seek s (mkPosition (S (line (pos s))) 0)).
    assert (Hw' : wholeDocument d s') by now apply wholeDocument_seek.
    assert (Hv' : validPos d (pos s')) by (split; cbn [s' seek pos line character]; lia).
    assert (Ho' : offsetOf d (pos s')
                  = offsetOf d (pos s) + length (skipn (character (pos s))
                                                   (lineAt d (line (pos s)))) + 1).
    { destruct Hv as [Hl Hc]. unfold offsetOf. cbn [s' seek pos line character].
      rewrite lineStart_succ by (unfold lineCount in Hl; exact Hl).
      rewrite length_skipn. unfold lineAt in *. lia. }
    rewrite <- Ho'.
    replace (lineStart (docLines d) (S (line (pos s)))) with (offsetOf d (pos s'))
      by (unfold offsetOf; cbn [s' seek pos line character]; lia).
    apply (closing_at_eof d s' Hw' Hv').
  - apply Nat.ltb_ge in Hnext. rewrite app_nil_r, Hnone.
    rewrite (eof_past_last_line d s _ Hw) by lia. reflexivity.
Qed.

(** A block comment is skipped up to the end of its closing mark. *)
Lemma block_comment_jump d s :
  wholeDocument d s -> validPos d (pos s) ->
  let s' := seek s (match findClosingCommentAfterPosition d (pos s) with
                    | Some p => p
                    | None => endOfDocument d
                    end) in
  wholeDocument d s'
  /\ closingBraceOutsideComments (isCSS d) inBlockComment (offsetOf d (pos s))
       (skipn (offsetOf d (pos s)) (fullText d))
     = if eof s' then None
       else closingBraceOutsideComments (isCSS d) inCode (offsetOf d (pos s'))
              (skipn (offsetOf d (pos s')) (fullText d)).
Proof.
  intros Hw Hv. cbn zeta. split; [now apply wholeDocument_seek|].
  rewrite closing_block_comment. unfold findClosingCommentAfterPosition.
  rewrite (getText_to_end d _ Hv), (offsetAt_valid d _ Hv).
  destruct (indexOf [star; slash] (skipn (offsetOf d (pos s)) (fullText d)))
    as [j|] eqn:Hj.
  - apply indexOf_two in Hj as [_ Hlen].
    rewrite length_skipn, length_fullText in Hlen.
    destruct (positionAt_spec d (j + (2 + offsetOf d (pos s)))) as [Hv' Ho'].
    rewrite Nat.min_l in Ho' by lia.
    set (s' := seek s (positionAt d (Z.of_nat (j + (2 + offsetOf d (pos s)))))).
    assert (Hw' : wholeDocument d s') by now apply wholeDocument_seek.
    assert (Hos : offsetOf d (pos s') = j + (2 + offsetOf d (pos s))) by exact Ho'.
    rewrite skipn_skipn.
    replace (offsetOf d (pos s) + j + 2) with (offsetOf d (pos s')) by lia.
    replace (j + 2 + offsetOf d (pos s)) with (offsetOf d (pos s')) by lia.
    apply (closing_at_eof d s' Hw' Hv').
  - replace (eof (seek s (endOfDocument d))) with true; [reflexivity|].
    symmetry. apply (eof_iff_end d); [now apply wholeDocument_seek| |reflexivity].
    apply validPos_endOfDocument.
Qed.

(** One iteration of the forward loop that does not begin at a closing
    brace follows the amended words. *)
Lemma forwardStep_refines d s :
  wholeDocument d s -> validPos d (pos s) -> linesWithoutLineFeed d = true ->
  eof s = false -> codeAt d (pos s) <> Some closeBrace ->
  let s' := forwardStep d (endOfDocument d) s in
  closingBraceOutsideComments (isCSS d) inCode (offsetOf d (pos s))
    (skipn (offsetOf d (pos s)) (fullText d))
  = if eof s' then None
    else closingBraceOutsideComments (isCSS d) inCode (offsetOf d (pos s'))
           (skipn (offsetOf d (pos s')) (fullText d)).
Proof.
  intros Hw Hv Hlf He Hnb. cbn zeta.
  destruct (stream_head d s Hw Hv He) as (c & Hcode & Hpeek & Hsuffix).
  rewrite Hsuffix. unfold forwardStep. rewrite Hpeek.
  assert (Hcb : c <> closeBrace) by congruence.
  destruct (eat_head d s slash c Hw Hv He Hpeek) as [Hyes Hno].
  destruct (Nat.eq_dec c slash) as [->|Hns].
  2:{ replace (codeIs (Some c) slash) with false
        by (symmetry; now apply Nat.eqb_neq).
      destruct (next_spec d s Hw Hv He) as (Hw' & Hv' & Ho' & _).
      rewrite closing_plain by assumption. rewrite <- Ho'.
      apply (closing_at_eof d _ Hw' Hv'). }
  clear Hno. destruct (Hyes eq_refl) as (Heat & Hw1 & Hv1 & Ho1). clear Hyes.
  cbn [codeIs Nat.eqb slash]. change 47 with slash.
  unfold consumeCommentForwards. rewrite Heat.
  set (s1 := snd (next s)) in *. rewrite <- Ho1.
  destruct (eof s1) eqn:He1.
  { rewrite (eat_at_eof s1 slash He1). cbn [andb].
    rewrite (eat_at_eof s1 star He1), He1, (stream_end d s1 Hw1 Hv1 He1).
    reflexivity. }
  destruct (stream_head d s1 Hw1 Hv1 He1) as (c2 & Hcode2 & Hpeek2 & Hsuffix2).
  rewrite Hsuffix2.
  destruct (eat_head d s1 slash c2 Hw1 Hv1 He1 Hpeek2) as [Hyes2 Hno2].
  destruct (eat_head d s1 star c2 Hw1 Hv1 He1 Hpeek2) as [Hyes2' Hno2'].
  destruct (Nat.eq_dec c2 slash) as [->|Hns2].
  - (* two slashes *)
    clear Hno2 Hyes2' Hno2'. destruct (Hyes2 eq_refl) as (Heat2 & Hw2 & Hv2 & Ho2).
    rewrite Heat2. set (s2 := snd (next s1)) in *. rewrite <- Ho2.
    destruct (isCSS d) eqn:Hcss; cbn [andb negb].
    + (* CSS: no line comment *)
      assert (Hlhs : forall R,
                closingBraceOutsideComments true inCode (offsetOf d (pos s))
                  (slash :: slash :: R)
                = closingBraceOutsideComments true inCode (offsetOf d (pos s1))
                    (slash :: R)).
      { intros R. rewrite Ho1. reflexivity. }
      rewrite Hlhs.
      destruct (eof s2) eqn:He2.
      { rewrite (eat_at_eof s2 star He2), He2, (stream_end d s2 Hw2 Hv2 He2).
        reflexivity. }
      destruct (stream_head d s2 Hw2 Hv2 He2) as (c3 & Hcode3 & Hpeek3 & Hsuffix3).
      rewrite Hsuffix3.
      destruct (eat_head d s2 star c3 Hw2 Hv2 He2 Hpeek3) as [Hyes3 Hno3].
      destruct (Nat.eq_dec c3 star) as [->|Hnt3].
      * destruct (Hyes3 eq_refl) as (Heat3 & Hw3 & Hv3 & Ho3). rewrite Heat3.
        destruct (block_comment_jump d _ Hw3 Hv3) as [_ Hjump].
        rewrite Hcss in Hjump. rewrite <- Hjump, Ho3, Ho2. reflexivity.
      * rewrite (Hno3 Hnt3), He2, Hsuffix3, Ho2.
        cbn [closingBraceOutsideComments]. apply Nat.eqb_neq in Hnt3.
        rewrite Hnt3. cbn. rewrite andb_false_r. reflexivity.
    + (* another dialect: a line comment *)
      pose proof (line_comment_jump d s2 Hw2 Hv2 Hlf) as Hjump. cbn zeta in Hjump.
      rewrite Hcss in Hjump. rewrite <- Hjump, Ho2, Ho1. reflexivity.
  - rewrite (Hno2 Hns2). cbn [andb].
    destruct (Nat.eq_dec c2 star) as [->|Hnt2].
    + (* a block comment *)
      destruct (Hyes2' eq_refl) as (Heat3 & Hw3 & Hv3 & Ho3). rewrite Heat3.
      destruct (block_comment_jump d _ Hw3 Hv3) as [_ Hjump].
      rewrite <- Hjump, Ho3, Ho1. reflexivity.
    + rewrite (Hno2' Hnt2), He1, Hsuffix2, Ho1.
      now apply closing_slash_other.
Qed.

(** The forward loop ends just after the first closing brace outside the
    comments, or at the end of the document when there is none. *)
Lemma forwardLoop_refines d fuel :
  linesWithoutLineFeed d = true ->
  forall s,
    wholeDocument d s ->
    eof s = true \/ (validPos d (pos s) /\ totalLength d - offsetOf d (pos s) <= fuel) ->
    exists s',
      forwardLoop d fuel (endOfDocument d) s = Some s'
      /\ endBoundary d s'
         = match (if eof s then None
                  else closingBraceOutsideComments (isCSS d) inCode (offsetOf d (pos s))
                         (skipn (offsetOf d (pos s)) (fullText d))) with
           | Some brace => positionAt d (Z.of_nat (S brace))
           | None => endOfDocument d
           end.
Proof.
  intros Hlf. induction fuel as [|fuel IH]; intros s Hw Hs.
  - assert (He : eof s = true).
    { destruct Hs as [He | [Hv Hle]]; [exact He|].
      apply (eof_true_offset d s Hw Hv). lia. }
    exists s. split; [now apply forwardLoop_eof|].
    unfold endBoundary. now rewrite He.
  - destruct (eof s) eqn:He.
    { exists s. split; [now apply forwardLoop_eof|]. unfold endBoundary. now rewrite He. }
    destruct Hs as [Hs | [Hv Hle]]; [discriminate|].
    cbn [forwardLoop]. rewrite He.
    destruct (stream_head d s Hw Hv He) as (c & Hcode & Hpeek & Hsuffix).
    destruct (eat_head d s closeBrace c Hw Hv He Hpeek) as [Hyes Hno].
    destruct (Nat.eq_dec c closeBrace) as [->|Hnb].
    + destruct (Hyes eq_refl) as (Heat & Hw1 & Hv1 & Ho1). rewrite Heat.
      exists (snd (next s)). split; [reflexivity|].
      rewrite Hsuffix. cbn [closingBraceOutsideComments Nat.eqb closeBrace].
      rewrite <- Ho1, (positionAt_offsetOf d _ Hv1).
      unfold endBoundary. destruct (eof (snd (next s))) eqn:He1; [|reflexivity].
      cbn [negb]. apply (eof_iff_end d _ Hw1 Hv1) in He1. congruence.
    + rewrite (Hno Hnb).
      destruct (forwardStep_progress d s Hw Hv He) as (Hw2 & Hs2).
      rewrite (forwardStep_refines d s Hw Hv Hlf He) by congruence.
      apply IH; [exact Hw2|].
      destruct Hs2 as [He2 | [Hv2 Ho2]]; [now left|]. right. split; [exact Hv2|].
      pose proof (eof_false_offset d s Hw Hv He). lia.
Qed.

(** What the amended words answer is a closing brace of the text, at or
    after its start. *)
Lemma closing_sound css n :
  forall text mode i brace,
    length text <= n ->
    closingBraceOutsideComments css mode i text = Some brace ->
    i <= brace /\ nth_error text (brace - i) = Some closeBrace.
Proof.
  induction n as [|n IH]; intros text mode i brace Hlen H.
  - destruct text; [now rewrite closing_nil in H | simpl in Hlen; lia].
  - destruct text as [|c rest]; [now rewrite closing_nil in H|].
    cbn [length] in Hlen.
    assert (Hone : forall m, closingBraceOutsideComments css m (S i) rest = Some brace ->
                             i <= brace /\ nth_error (c :: rest) (brace - i)
                                           = Some closeBrace).
    { intros m Hm. apply IH in Hm as [Hle Hnth]; [|lia]. split; [lia|].
      replace (brace - i) with (S (brace - S i)) by lia. exact Hnth. }
    assert (Htwo : forall m c2 rest', rest = c2 :: rest' ->
                     closingBraceOutsideComments css m (S (S i)) rest' = Some brace ->
                     i <= brace /\ nth_error (c :: rest) (brace - i) = Some closeBrace).
    { intros m c2 rest' -> Hm. apply IH in Hm as [Hle Hnth]; [|cbn [length] in Hlen; lia].
      split; [lia|]. replace (brace - i) with (S (S (brace - S (S i)))) by lia.
      exact Hnth. }
    destruct mode; cbn [closingBraceOutsideComments] in H.
    + destruct (c =? closeBrace) eqn:Hc.
      * injection H as <-. apply Nat.eqb_eq in Hc. subst c.
        rewrite Nat.sub_diag. auto.
      * destruct rest as [|c2 rest']; [discriminate|].
        destruct ((c =? slash) && (c2 =? slash) && negb css); [eapply Htwo; [reflexivity | exact H]|].
        destruct ((c =? slash) && (c2 =? star)); [eapply Htwo; [reflexivity | exact H] | eapply Hone; exact H].
    + destruct (c =? lineFeed); eapply Hone; exact H.
    + destruct rest as [|c2 rest']; [discriminate|].
      destruct ((c =? star) && (c2 =? slash)); [eapply Htwo; [reflexivity | exact H] | eapply Hone; exact H].
Qed.

(** C4 (as amended).  The forward scan comes to an end, and the end
    boundary that it leaves is what the amended words say: the position
    just after the first closing brace, from the cursor on, that lies
    outside the line comments (two slashes up to the end of the line, in
    dialects other than CSS only) and outside the block comments (a slash
    and a star up to the next star and slash), whether or not an opening
    brace after the cursor matches that brace; it is the end of the
    document when there is no such brace. *)
Theorem forwardScan_end_boundary (doc : TextDocument) (position : Position)
    (fuel : nat) :
  validPos doc position ->
  linesWithoutLineFeed doc = true ->
  scanFuel doc <= fuel ->
  exists sc,
    forwardScan doc position fuel = Some sc
    /\ endPosition sc
       = match closingBraceOutsideComments (isCSS doc) inCode (offsetOf doc position)
                 (skipn (offsetOf doc position) (fullText doc)) with
         | Some brace => positionAt doc (Z.of_nat (S brace))
         | None => endOfDocument doc
         end
    /\ (forall brace,
          closingBraceOutsideComments (isCSS doc) inCode (offsetOf doc position)
            (skipn (offsetOf doc position) (fullText doc)) = Some brace ->
          offsetOf doc position <= brace
          /\ nth_error (fullText doc) brace = Some closeBrace
          /\ validPos doc (endPosition sc)
          /\ offsetOf doc (endPosition sc) = S brace).
Proof.
  intros Hv Hlf Hfuel.
  pose proof (wholeDocument_newStream doc position) as Hw.
  set (s0 := newStream doc (Some position) None) in *.
  assert (Hv0 : validPos doc (pos s0)) by exact Hv.
  destruct (forwardLoop_refines doc fuel Hlf s0 Hw) as (s' & Hrun & Hend).
  { right. split; [exact Hv0|]. unfold scanFuel in Hfuel. lia. }
  rewrite <- (closing_at_eof doc s0 Hw Hv0) in Hend.
  change (pos s0) with position in Hend.
  rewrite forwardScan_unfold. fold s0. rewrite Hrun.
  eexists. split; [reflexivity|].
  change (endPosition (setStream (seek s' position)
                         (backwardEntry doc position (endBoundary doc s'))))
    with (endBoundary doc s').
  split; [exact Hend|].
  intros brace Hbrace. rewrite Hend, Hbrace.
  destruct (closing_sound _ _ _ _ _ _ (Nat.le_refl _) Hbrace) as [Hle Hnth].
  rewrite nth_error_skipn in Hnth.
  replace (offsetOf doc position + (brace - offsetOf doc position)) with brace
    in Hnth by lia.
  assert (Hlt : brace < totalLength doc).
  { rewrite <- length_fullText. apply nth_error_Some. congruence. }
  destruct (positionAt_spec doc (S brace)) as [Hvb Hob].
  rewrite Nat.min_l in Hob by lia. auto.
Qed.

Lemma forwardScan_end_boundary_witness :
  (exists sc,
     forwardScan commentedDocument (mkPosition 0 0) (scanFuel commentedDocument) = Some sc
     /\ endPosition sc = mkPosition 1 4)
  /\ (exists sc,
        forwardScan slashesInCssDocument (mkPosition 0 0)
          (scanFuel slashesInCssDocument) = Some sc
        /\ endPosition sc = mkPosition 0 4)
  /\ (exists sc,
        forwardScan slashesInScssDocument (mkPosition 0 0)
          (scanFuel slashesInScssDocument) = Some sc
        /\ endPosition sc = mkPosition 0 6).
Proof.
  split; [|split].
  - destruct (forwardScan_end_boundary commentedDocument (mkPosition 0 0)
                (scanFuel commentedDocument) ltac:(split; cbn; lia) eq_refl
                (Nat.le_refl _)) as (sc & Hrun & Hend & _).
    exists sc. split; [exact Hrun|]. rewrite Hend. reflexivity.
  - destruct (forwardScan_end_boundary slashesInCssDocument (mkPosition 0 0)
                (scanFuel slashesInCssDocument) ltac:(split; cbn; lia) eq_refl
                (Nat.le_refl _)) as (sc & Hrun & Hend & _).
    exists sc. split; [exact Hrun|]. rewrite Hend. reflexivity.
  - destruct (forwardScan_end_boundary slashesInScssDocument (mkPosition 0 0)
                (scanFuel slashesInScssDocument) ltac:(split; cbn; lia) eq_refl
                (Nat.le_refl _)) as (sc & Hrun & Hend & _).
    exists sc. split; [exact Hrun|]. rewrite Hend. reflexivity.
Defined.

(** C4 as stated fails: in [{}}] with the cursor at the start, the first
    closing brace that no opening brace after the cursor matches is the
    one at offset 2, so the claimed end boundary is column 3; the scan
    stops at the first closing brace and leaves column 2. *)
Lemma forwardScan_stops_at_matched_brace :
  firstUnmatchedClose 0 0 (fullText nestedBlockDocument) = Some 2
  /\ exists sc,
       forwardScan nestedBlockDocument (mkPosition 0 0) (scanFuel nestedBlockDocument)
       = Some sc
       /\ endPosition sc = mkPosition 0 2
       /\ endPosition sc <> mkPosition 0 3.
Proof.
  split; [reflexivity|]. eexists. split; [vm_compute; reflexivity|].
  split; [reflexivity | discriminate].
Qed.

(** ** The backward scan: termination and cut-off *)

Lemma lastIndexOf_bound pat text i :
  lastIndexOf pat text = Some i -> i + length pat <= length text.
Proof.
  revert i. induction text as [|x text IH]; intros i H.
  - simpl in H. destruct (isPrefix pat []) eqn:Hp; [|discriminate].
    injection H as <-. apply isPrefix_length in Hp. lia.
  - cbn [lastIndexOf] in H. destruct (lastIndexOf pat text) as [j|].
    + injection H as <-. specialize (IH j eq_refl). simpl. lia.
    + destruct (isPrefix pat (x :: text)) eqn:Hp; [|discriminate].
      injection H as <-. apply isPrefix_length in Hp. lia.
Qed.

Lemma validPos_origin d : validPos d (mkPosition 0 0).
Proof. pose proof (lineCount_pos d). split; cbn [line character]; lia. Qed.

Lemma offsetOf_origin d : offsetOf d (mkPosition 0 0) = 0.
Proof. unfold offsetOf. cbn [line character]. now rewrite lineStart_zero. Qed.

Lemma offsetOf_zero d p : validPos d p -> offsetOf d p = 0 -> p = mkPosition 0 0.
Proof.
  intros Hv H0. apply (offsetOf_inj d); [exact Hv | apply validPos_origin|].
  now rewrite offsetOf_origin.
Qed.

Lemma sof_false_offset d s :
  wholeDocument d s -> validPos d (pos s) -> sof s = false -> 0 < offsetOf d (pos s).
Proof.
  intros (_ & Hs & _) Hv H. unfold sof in H. rewrite Hs in H.
  apply isBeforeOrEqual_total in H.
  apply (offsetOf_lt d) in H; [|apply validPos_origin]. lia.
Qed.

Lemma sof_true_offset d s :
  wholeDocument d s -> pos s = mkPosition 0 0 -> sof s = true.
Proof.
  intros (_ & Hs & _) Hp. unfold sof. rewrite Hs, Hp.
  apply isBeforeOrEqual_le. lia.
Qed.

Lemma codeAt_nth d l i c :
  nth_error (lineAt d l) i = Some c -> codeAt d (mkPosition l i) = Some c.
Proof.
  intros H. unfold codeAt. cbn [line character].
  assert (Hlt : i < length (lineAt d l)) by (apply nth_error_Some; congruence).
  apply Nat.ltb_lt in Hlt. now rewrite Hlt.
Qed.

(** The opening mark of a block comment lies before the position it is
    looked for from. *)
Lemma findOpeningCommentBeforePosition_before d p q :
  validPos d p -> findOpeningCommentBeforePosition d p = Some q ->
  validPos d q /\ offsetOf d q <= offsetOf d p.
Proof.
  intros Hv. unfold findOpeningCommentBeforePosition.
  destruct (lastIndexOf [slash; star] _) as [k|] eqn:Hk; [|discriminate].
  intros [= <-]. destruct (positionAt_spec d k) as [Hvq Hoq].
  split; [exact Hvq|]. rewrite Hoq.
  apply lastIndexOf_bound in Hk. unfold getText in Hk.
  rewrite length_firstn in Hk.
  assert (Hrange : mkRange (mkPosition 0 0) p = (mkPosition 0 0, p)).
  { unfold mkRange. destruct (isBefore p (mkPosition 0 0)) eqn:Hb; [|reflexivity].
    apply isBefore_lt in Hb. cbn [line character] in Hb. lia. }
  rewrite Hrange in Hk. cbn [fst snd] in Hk.
  rewrite (offsetAt_valid d p Hv) in Hk. simpl length in Hk. lia.
Qed.

Lemma consumeLineCommentBackwards_fields d sc :
  exit (consumeLineCommentBackwards d sc) = exit sc
  /\ openBracesToFind (consumeLineCommentBackwards d sc) = openBracesToFind sc
  /\ startPosition (consumeLineCommentBackwards d sc) = startPosition sc.
Proof.
  unfold consumeLineCommentBackwards.
  destruct (negb (isCSS d) && negb (currentLine sc =? line (pos (stream sc))));
    [|repeat split].
  cbn zeta. destruct (indexOf _ _); repeat split.
Qed.

Lemma consumeBlockCommentBackwards_fields d sc sc' :
  consumeBlockCommentBackwards d sc = Returned sc' ->
  exit sc' = exit sc
  /\ openBracesToFind sc' = openBracesToFind sc
  /\ startPosition sc' = startPosition sc
  /\ currentLine sc' = currentLine sc.
Proof.
  unfold consumeBlockCommentBackwards.
  destruct (codeIs (peek (stream sc)) slash); [|intros [= <-]; repeat split].
  destruct (backUp 1 (stream sc)) as [[ch s1]|e]; [|discriminate].
  cbn [bind fst snd]. destruct (codeIs ch star); intros [= <-]; repeat split.
Qed.

Lemma consumeLineCommentBackwards_spec d sc :
  scanning d sc ->
  let sc1 := consumeLineCommentBackwards d sc in
  scanning d sc1
  /\ offsetOf d (pos (stream sc1)) <= backwardMeasure d sc
  /\ lineCommentPending d sc1 = false
  /\ line (pos (stream sc1)) = line (pos (stream sc))
  /\ (pos (stream sc1) = pos (stream sc)
      \/ codeAt d (pos (stream sc1)) = Some slash)
  /\ (lineCommentPending d sc = false -> sc1 = sc).
Proof.
  intros (Hw & Hv & Hstart). cbn zeta.
  unfold consumeLineCommentBackwards, backwardMeasure.
  fold (lineCommentPending d sc).
  destruct (lineCommentPending d sc) eqn:Hp.
  2:{ split; [exact (conj Hw (conj Hv Hstart))|]. split; [lia|]. auto. }
  cbn zeta. cbn [setCurrentLine currentLine stream].
  assert (Hcss : isCSS d = false).
  { unfold lineCommentPending in Hp. destruct (isCSS d); [discriminate | reflexivity]. }
  destruct Hv as [Hl Hc].
  destruct (indexOf [slash; slash] (lineAt d (line (pos (stream sc))))) as [i|] eqn:Hi.
  - apply indexOf_two in Hi as [Hnth Hlen].
    cbn [setStream stream seek pos line character].
    split.
    { split; [now apply wholeDocument_seek|]. split.
      - split; cbn [setStream setCurrentLine currentLine stream seek pos line character];
          lia.
      - destruct Hstart as [Hs | [Hs _]]; [now left | congruence]. }
    split; [unfold offsetOf;
            cbn [setStream setCurrentLine currentLine stream seek pos line character];
            lia|].
    split; [unfold lineCommentPending; cbn; now rewrite Nat.eqb_refl, andb_false_r|].
    split; [reflexivity|]. split; [right; now apply codeAt_nth | discriminate].
  - split.
    { split; [exact Hw|]. split; [split; assumption|].
      destruct Hstart as [Hs | [Hs _]]; [now left | congruence]. }
    split; [unfold offsetOf; cbn [setCurrentLine stream]; lia|].
    split; [unfold lineCommentPending; cbn; now rewrite Nat.eqb_refl, andb_false_r|].
    split; [reflexivity|]. split; [now left | discriminate].
Qed.

(** The stream reader throws only at the start of the document, and a
    scan backs up there only from a slash: an exception of the scan means
    that the document begins with a slash. *)
Lemma consumeBlockCommentBackwards_spec d sc :
  scanning d sc -> startPosition sc = mkPosition 0 0 ->
  match consumeBlockCommentBackwards d sc with
  | Returned sc' =>
      scanning d sc'
      /\ offsetOf d (pos (stream sc')) <= offsetOf d (pos (stream sc))
  | Thrown e =>
      e = IllegalLine /\ pos (stream sc) = mkPosition 0 0
      /\ codeAt d (mkPosition 0 0) = Some slash
  end.
Proof.
  intros (Hw & Hv & Hstart) Hs0. unfold consumeBlockCommentBackwards.
  destruct (codeIs (peek (stream sc)) slash) eqn:Hslash.
  2:{ split; [exact (conj Hw (conj Hv Hstart)) | lia]. }
  destruct (codeIs_peek d _ _ Hw Hslash) as [He Hcode].
  destruct (Nat.eq_dec (offsetOf d (pos (stream sc))) 0) as [Ho|Ho].
  { apply (offsetOf_zero d _ Hv) in Ho. rewrite (backUp_start _ Ho).
    cbn [bind]. rewrite <- Ho. auto. }
  destruct (backUp_spec d _ Hw Hv ltac:(lia)) as (ch & s1 & -> & Hw1 & Hv1 & Ho1 & Hch).
  cbn [bind fst snd].
  destruct (codeIs ch star).
  - destruct (findOpeningCommentBeforePosition d (pos s1)) as [q|] eqn:Hq.
    + destruct (findOpeningCommentBeforePosition_before d _ _ Hv1 Hq) as [Hvq Hoq].
      split; [|cbn [setStream stream seek pos]; lia].
      split; [now apply wholeDocument_seek|]. split; [exact Hvq | now left].
    + rewrite Hs0. split; [|cbn [setStream stream seek pos]; rewrite offsetOf_origin; lia].
      split; [now apply wholeDocument_seek|].
      split; [apply validPos_origin | now left].
  - assert (He1 : eof s1 = false).
    { destruct (eof s1) eqn:He1; [|reflexivity].
      apply (eof_iff_end d s1 Hw1 Hv1) in He1.
      pose proof (offsetOf_le_total d _ Hv). unfold totalLength in *.
      rewrite He1 in Ho1. lia. }
    destruct (next_spec d s1 Hw1 Hv1 He1) as (Hw2 & Hv2 & Ho2 & _).
    split; [|cbn [setStream stream]; lia].
    split; [exact Hw2|]. split; [exact Hv2 | now left].
Qed.

(** One iteration of the backward loop ends the scan, or brings the
    variant down, or ends with the exception of the stream reader. *)
Lemma backwardStep_progress d position sc :
  scanning d sc -> backwardCond sc = true ->
  match backwardStep d position sc with
  | Returned sc' =>
      scanning d sc'
      /\ (exit sc' = true \/ backwardMeasure d sc' < backwardMeasure d sc)
  | Thrown e => e = IllegalLine /\ codeAt d (mkPosition 0 0) = Some slash
  end.
Proof.
  intros Hsc Hcond.
  unfold backwardCond in Hcond. apply andb_true_iff in Hcond as [Hcond Hsof].
  apply andb_true_iff in Hcond as [Hexit _].
  apply negb_true_iff in Hexit, Hsof.
  destruct (consumeLineCommentBackwards_spec d sc Hsc)
    as (Hsc1 & Hm1 & Hp1 & Hline1 & Hpos1 & Hsame1).
  destruct (consumeLineCommentBackwards_fields d sc) as (He1 & _ & Hst1).
  unfold backwardStep.
  set (sc1 := consumeLineCommentBackwards d sc) in *.
  destruct Hsc1 as (Hw1 & Hv1 & Hstart1).
  assert (Hs1 : startPosition sc1 = mkPosition 0 0).
  { destruct Hstart1 as [Hs | [_ Hs]]; [exact Hs | congruence]. }
  destruct (Nat.eq_dec (offsetOf d (pos (stream sc1))) 0) as [Hoff1|Hoff1].
  { apply (offsetOf_zero d _ Hv1) in Hoff1. rewrite (backUp_start _ Hoff1).
    cbn [bind]. split; [reflexivity|].
    destruct Hpos1 as [Heq | Hcode]; [|now rewrite <- Hoff1].
    exfalso. destruct Hsc as (Hw & Hv & _).
    pose proof (sof_false_offset d _ Hw Hv Hsof) as Hlt.
    rewrite <- Heq, Hoff1, offsetOf_origin in Hlt. lia. }
  destruct (backUp_spec d _ Hw1 Hv1 ltac:(lia)) as (ch & s2 & -> & Hw2 & Hv2 & Ho2 & Hch).
  cbn [bind fst snd].
  set (sc2 := setStream s2 sc1).
  assert (Hsc2 : scanning d sc2) by (split; [exact Hw2|]; split; [exact Hv2 | now left]).
  set (r3 := if codeIs ch openBrace then _ else _).
  assert (H3 : match r3 with
               | Returned sc3 =>
                   scanning d sc3
                   /\ (exit sc3 = true
                       \/ (offsetOf d (pos (stream sc3)) < offsetOf d (pos (stream sc1))
                           /\ currentLine sc3 = currentLine sc1))
               | Thrown e => e = IllegalLine /\ codeAt d (mkPosition 0 0) = Some slash
               end).
  { subst r3. destruct (codeIs ch openBrace).
    { split; [exact Hsc2|]. right.
      unfold sc2. cbn [setOpenBracesToFind setStream stream currentLine].
      split; [lia | reflexivity]. }
    destruct (codeIs ch closeBrace).
    { destruct (isCSS d) eqn:Hcss.
      - cbn zeta. split; [|now left].
        assert (He2 : eof s2 = false).
        { destruct (eof s2) eqn:He2; [|reflexivity].
          apply (eof_iff_end d s2 Hw2 Hv2) in He2.
          pose proof (offsetOf_le_total d _ Hv1). unfold totalLength in *.
          rewrite He2 in Ho2. lia. }
        destruct (next_spec d s2 Hw2 Hv2 He2) as (Hw3 & Hv3 & _).
        split; [exact Hw3|]. split; [exact Hv3|]. right.
        split; [exact Hcss | reflexivity].
      - split; [exact Hsc2|]. right.
        unfold sc2. cbn [setOpenBracesToFind setStream stream currentLine].
        split; [lia | reflexivity]. }
    destruct (codeIs ch slash).
    { pose proof (consumeBlockCommentBackwards_spec d sc2 Hsc2 Hs1) as Hblock.
      pose proof (consumeBlockCommentBackwards_fields d sc2) as Hfields.
      destruct (consumeBlockCommentBackwards d sc2) as [sc3|e]; [|tauto].
      destruct Hblock as [Hsc3 Ho3].
      destruct (Hfields sc3 eq_refl) as (_ & _ & _ & Hcl).
      split; [exact Hsc3|]. right. split; [|exact Hcl].
      change (pos (stream sc2)) with (pos s2) in Ho3. lia. }
    split; [exact Hsc2|]. right.
    unfold sc2. cbn [setStream stream currentLine]. split; [lia | reflexivity]. }
  clearbody r3. destruct r3 as [sc3|e]; [|exact H3]. cbn [bind].
  destruct H3 as ((Hw3 & Hv3 & Hstart3) & Hprog).
  assert (Hfinal : forall sc4, sc4 = sc3 \/ sc4 = setExit true sc3 ->
            scanning d sc4 /\ (exit sc4 = true \/ sc4 = sc3)).
  { intros sc4 [-> | ->].
    - split; [exact (conj Hw3 (conj Hv3 Hstart3)) | now right].
    - split; [|now left]. split; [exact Hw3|]. split; [exact Hv3|].
      destruct Hstart3 as [Hs | [Hc _]]; [now left | right; split; [exact Hc | reflexivity]]. }
  destruct (Hfinal (if pastLimit d position (pos (stream sc3))
                    then setExit true sc3 else sc3)) as [Hsc4 Hex4].
  { destruct (pastLimit d position (pos (stream sc3))); [now right | now left]. }
  split; [exact Hsc4|].
  destruct Hex4 as [Hex4 | ->]; [now left|].
  destruct Hprog as [Hex3 | [Ho3 Hcl3]]; [now left|]. right.
  unfold backwardMeasure at 1.
  destruct (lineCommentPending d sc3) eqn:Hp3; [|lia].
  unfold lineCommentPending in Hp3, Hp1. rewrite Hcl3 in Hp3.
  apply andb_true_iff in Hp3 as [Hncss Hne3]. rewrite Hncss in Hp1. cbn [andb] in Hp1.
  apply negb_false_iff, Nat.eqb_eq in Hp1. apply negb_true_iff, Nat.eqb_neq in Hne3.
  assert (Hlt : line (pos (stream sc3)) < line (pos (stream sc1))).
  { assert (Hb : isBefore (pos (stream sc3)) (pos (stream sc1)) = true)
      by (apply (isBefore_offsetOf d); [assumption..|lia]).
    apply isBefore_lt in Hb. lia. }
  pose proof (lineStart_next (docLines d) _ _ Hlt
                ltac:(destruct Hv3 as [Hl3 _]; exact Hl3)) as Hnext.
  unfold offsetOf in Hm1. unfold lineAt. lia.
Qed.

Lemma backwardLoop_done d position fuel sc :
  backwardCond sc = false -> backwardLoop d position fuel sc = Some (Returned sc).
Proof. intros H. destruct fuel; cbn [backwardLoop]; now rewrite H. Qed.

(** The backward loop comes to an end on every document: it leaves the
    loop, or it ends with the exception of the stream reader, which
    happens only on a document that begins with a slash. *)
Lemma backwardLoop_terminates d position fuel :
  forall sc,
    scanning d sc -> backwardMeasure d sc < fuel ->
    exists r,
      backwardLoop d position fuel sc = Some r
      /\ match r with
         | Returned sc' => scanning d sc' /\ backwardCond sc' = false
         | Thrown e => e = IllegalLine /\ codeAt d (mkPosition 0 0) = Some slash
         end.
Proof.
  induction fuel as [|fuel IH]; intros sc Hsc Hm; [lia|].
  destruct (backwardCond sc) eqn:Hcond.
  2:{ exists (Returned sc). split; [now apply backwardLoop_done | auto]. }
  cbn [backwardLoop]. rewrite Hcond.
  pose proof (backwardStep_progress d position sc Hsc Hcond) as Hstep.
  destruct (backwardStep d position sc) as [sc'|e]; [|eauto].
  destruct Hstep as [Hsc' [Hexit | Hlt]].
  - exists (Returned sc').
    assert (Hc : backwardCond sc' = false) by (unfold backwardCond; now rewrite Hexit).
    split; [now apply backwardLoop_done | auto].
  - apply IH; [exact Hsc' | lia].
Qed.

(** The limit, in numbers: a position more than 100 lines above the
    cursor's line, or 5000 characters or more before the cursor, is past
    the limit. *)
Lemma pastLimit_intro d position p :
  line p + 100 < line position
  \/ (validPos d position /\ validPos d p
      /\ offsetOf d p + 5000 <= offsetOf d position) ->
  pastLimit d position p = true.
Proof.
  intros H. unfold pastLimit. apply orb_true_iff.
  destruct H as [Hlines | (Hv & Hp & Hchars)]; [left; lia|]. right.
  unfold limitPosition, limitCharacter. rewrite (offsetAt_valid d _ Hv).
  destruct (0 <? Z.of_nat (offsetOf d position) - 5000)%Z eqn:Hlim.
  - apply Z.ltb_lt in Hlim.
    replace (Z.of_nat (offsetOf d position) - 5000)%Z
      with (Z.of_nat (offsetOf d position - 5000)) by lia.
    destruct (positionAt_spec d (offsetOf d position - 5000)) as [Hvl Hol].
    apply (isBeforeOrEqual_offsetOf d _ _ Hp Hvl). rewrite Hol.
    pose proof (offsetOf_le_total d _ Hv). lia.
  - apply Z.ltb_ge in Hlim.
    apply (isBeforeOrEqual_offsetOf d _ _ Hp (validPos_origin d)).
    rewrite offsetOf_origin. lia.
Qed.

(** The limit: an iteration that ends past the limit sets [exit]; it does
    not touch the start boundary. *)
Lemma backwardStep_abort d position sc sc' :
  backwardStep d position sc = Returned sc' ->
  pastLimit d position (pos (stream sc')) = true ->
  exit sc' = true
  /\ (startPosition sc' = startPosition sc
      \/ (isCSS d = true
          /\ exists s2, backUp 1 (stream (consumeLineCommentBackwards d sc))
                        = Returned (Some closeBrace, s2))).
Proof.
  unfold backwardStep.
  destruct (consumeLineCommentBackwards_fields d sc) as (_ & _ & Hst1).
  set (sc1 := consumeLineCommentBackwards d sc) in *.
  destruct (backUp 1 (stream sc1)) as [[ch s2]|e]; [|discriminate].
  cbn [bind fst snd].
  set (r3 := if codeIs ch openBrace then _ else _).
  assert (H3 : forall sc3, r3 = Returned sc3 ->
                 startPosition sc3 = startPosition sc
                 \/ (isCSS d = true /\ ch = Some closeBrace)).
  { subst r3. intros sc3. destruct (codeIs ch openBrace); [intros [= <-]; now left|].
    destruct (codeIs ch closeBrace) eqn:Hclose.
    - destruct (isCSS d); [|intros [= <-]; now left]. intros _. right.
      split; [reflexivity|].
      unfold codeIs in Hclose. destruct ch as [c|]; [|discriminate].
      apply Nat.eqb_eq in Hclose. now subst.
    - destruct (codeIs ch slash); [|intros [= <-]; now left]. intros Hblock. left.
      destruct (consumeBlockCommentBackwards_fields d _ _ Hblock) as (_ & _ & Hst & _).
      rewrite Hst. exact Hst1. }
  clearbody r3. destruct r3 as [sc3|e]; [|discriminate]. cbn [bind].
  specialize (H3 sc3 eq_refl).
  assert (Hstart : startPosition sc3 = startPosition sc
                   \/ (isCSS d = true
                       /\ exists s0, Returned (ch, s2) = Returned (Some closeBrace, s0))).
  { destruct H3 as [H3 | [Hcss ->]]; [now left | right; eauto]. }
  destruct (pastLimit d position (pos (stream sc3))) eqn:Hp; intros [= <-].
  - intros _. split; [reflexivity | exact Hstart].
  - intros Hp'. congruence.
Qed.

Lemma pastLimit_false_offset d position p :
  validPos d position -> validPos d p -> pastLimit d position p = false ->
  offsetOf d position < offsetOf d p + 5000.
Proof.
  intros Hv Hp H. unfold pastLimit in H. apply orb_false_iff in H as [_ H].
  apply isBeforeOrEqual_total in H.
  unfold limitPosition, limitCharacter in H. rewrite (offsetAt_valid d _ Hv) in H.
  destruct (0 <? Z.of_nat (offsetOf d position) - 5000)%Z eqn:Hlim.
  - apply Z.ltb_lt in Hlim.
    replace (Z.of_nat (offsetOf d position) - 5000)%Z
      with (Z.of_nat (offsetOf d position - 5000)) in H by lia.
    destruct (positionAt_spec d (offsetOf d position - 5000)) as [Hvl Hol].
    apply (offsetOf_lt d _ _ Hvl) in H.
    pose proof (offsetOf_le_total d _ Hv). lia.
  - apply Z.ltb_ge in Hlim.
    apply (offsetOf_lt d _ _ (validPos_origin d)) in H. lia.
Qed.

(** One iteration over text without comments moves the stream back by
    exactly one character, unless it ends the scan. *)
Lemma backwardStep_clean d position sc :
  validPos d position ->
  (forall q, validPos d q -> offsetOf d q < offsetOf d position ->
             codeAt d q <> Some slash) ->
  withinCutoff d position sc -> backwardCond sc = true ->
  exists sc',
    backwardStep d position sc = Returned sc'
    /\ withinCutoff d position sc'
    /\ (exit sc' = true
        \/ S (offsetOf d (pos (stream sc'))) = offsetOf d (pos (stream sc))).
Proof.
  intros Hvp Hclean (Hsc & Hle & HK & HB & HJ) Hcond.
  pose proof Hsc as (Hw & Hv & Hstart).
  assert (Hoff : 0 < offsetOf d (pos (stream sc))).
  { unfold backwardCond in Hcond. apply andb_true_iff in Hcond as [_ Hsof].
    apply negb_true_iff in Hsof. now apply (sof_false_offset d). }
  assert (H0 : codeAt d (mkPosition 0 0) <> Some slash).
  { apply Hclean; [apply validPos_origin | rewrite offsetOf_origin; lia]. }
  assert (Hexit : exit sc = false).
  { unfold backwardCond in Hcond. apply andb_true_iff in Hcond as [Hc _].
    apply andb_true_iff in Hc as [Hc _]. now apply negb_true_iff in Hc. }
  specialize (HJ Hexit).
  pose proof (backwardStep_progress d position sc Hsc Hcond) as Hprogress.
  destruct (consumeLineCommentBackwards_spec d sc Hsc)
    as (Hsc1 & _ & Hp1 & Hline1 & Hpos1 & Hsame1).
  destruct (consumeLineCommentBackwards_fields d sc) as (He1 & _ & _).
  revert Hprogress. unfold backwardStep.
  set (sc1 := consumeLineCommentBackwards d sc) in *.
  destruct Hsc1 as (Hw1 & Hv1 & _).
  (* the line comment step leaves the stream where it is *)
  assert (Hpos : pos (stream sc1) = pos (stream sc)
                 /\ line (pos (stream sc1)) <= currentLine sc1 <= line position).
  { destruct (lineCommentPending d sc) eqn:Hpend.
    - unfold lineCommentPending in Hpend, Hp1.
      apply andb_true_iff in Hpend as [Hncss Hne]. rewrite Hncss in Hp1.
      cbn [andb] in Hp1. apply negb_false_iff, Nat.eqb_eq in Hp1.
      apply negb_true_iff, Nat.eqb_neq in Hne.
      split; [|lia].
      destruct Hpos1 as [Heq | Hcode]; [exact Heq|]. exfalso.
      apply (Hclean _ Hv1); [|exact Hcode].
      assert (Hlt : line (pos (stream sc1)) < line position) by lia.
      pose proof (lineStart_next (docLines d) _ _ Hlt
                    ltac:(destruct Hv1 as [Hl1 _]; exact Hl1)) as Hnext.
      destruct Hv1 as [_ Hc1]. unfold offsetOf, lineAt in *. lia.
    - rewrite (Hsame1 eq_refl). split; [reflexivity | exact HK]. }
  destruct Hpos as [Hpos HK1].
  assert (Hoff1 : 0 < offsetOf d (pos (stream sc1))) by (rewrite Hpos; exact Hoff).
  destruct (backUp_spec d _ Hw1 Hv1 Hoff1) as (ch & s2 & -> & Hw2 & Hv2 & Ho2 & Hch).
  cbn [bind fst snd].
  rewrite Hpos in Ho2.
  assert (Hnoslash : codeIs ch slash = false).
  { destruct (codeIs ch slash) eqn:Hs; [|reflexivity]. exfalso.
    rewrite Hch in Hs. apply codeIs_codeAt in Hs.
    apply (Hclean _ Hv2); [lia | exact Hs]. }
  assert (Hline2 : line (pos s2) <= line (pos (stream sc1))).
  { assert (Hb : isBefore (pos s2) (pos (stream sc1)) = true)
      by (apply (isBefore_offsetOf d); [assumption..|rewrite Hpos; lia]).
    apply isBefore_lt in Hb. lia. }
  set (r3 := if codeIs ch openBrace then _ else _).
  assert (H3 : exists sc3,
             r3 = Returned sc3
             /\ currentLine sc3 = currentLine sc1
             /\ ((pos (stream sc3) = pos s2 /\ exit sc3 = false)
                 \/ (exit sc3 = true
                     /\ offsetOf d (pos (stream sc3))
                        = offsetOf d (pos (stream sc))
                     /\ line (pos (stream sc3)) <= currentLine sc1))).
  { subst r3. destruct (codeIs ch openBrace).
    { eexists. split; [reflexivity|]. split; [reflexivity|]. left.
      split; [reflexivity | exact (eq_trans He1 Hexit)]. }
    destruct (codeIs ch closeBrace).
    { destruct (isCSS d).
      - cbn zeta. eexists. split; [reflexivity|]. split; [reflexivity|].
        right. split; [reflexivity|].
        assert (He2 : eof s2 = false).
        { destruct (eof s2) eqn:He2; [|reflexivity].
          apply (eof_iff_end d s2 Hw2 Hv2) in He2.
          pose proof (offsetOf_le_total d _ Hv). unfold totalLength in *.
          rewrite He2 in Ho2. lia. }
        destruct (next_spec d s2 Hw2 Hv2 He2) as (Hw3 & Hv3 & Ho3 & _).
        cbn [setExit setStartPosition setStream stream].
        split; [lia|].
        assert (Heq : pos (snd (next s2)) = pos (stream sc1)).
        { apply (offsetOf_inj d); [assumption..|]. rewrite Hpos. lia. }
        rewrite Heq. lia.
      - eexists. split; [reflexivity|]. split; [reflexivity|]. left.
        split; [reflexivity | exact (eq_trans He1 Hexit)]. }
    rewrite Hnoslash. eexists. split; [reflexivity|]. split; [reflexivity|]. left.
    split; [reflexivity | exact (eq_trans He1 Hexit)]. }
  clearbody r3. destruct H3 as (sc3 & -> & Hcl3 & H3). cbn [bind].
  set (sc4 := if pastLimit d position (pos (stream sc3)) then setExit true sc3 else sc3).
  assert (H4 : pos (stream sc4) = pos (stream sc3) /\ currentLine sc4 = currentLine sc3
               /\ (exit sc4 = true
                   \/ (exit sc4 = exit sc3
                       /\ pastLimit d position (pos (stream sc3)) = false))).
  { subst sc4. destruct (pastLimit d position (pos (stream sc3)));
      [split; [reflexivity|]; split; [reflexivity | now left]
      |split; [reflexivity|]; split; [reflexivity | now right]]. }
  clearbody sc4. destruct H4 as (Hp4 & Hcl4 & Hex4).
  intros [Hsc4 _]. pose proof Hsc4 as (_ & Hv4 & _).
  exists sc4. split; [reflexivity|].
  unfold withinCutoff. rewrite Hp4 in *. rewrite Hcl4, Hcl3.
  destruct H3 as [[Hp3 Hex3] | (Hex3 & Ho3 & Hl3)].
  - rewrite Hp3 in *. split.
    + split; [exact Hsc4|]. split; [lia|]. split; [lia|]. split; [lia|].
      intros Hne. destruct Hex4 as [Hex4 | [_ Hpl]]; [congruence|].
      now apply pastLimit_false_offset.
    + right. exact Ho2.
  - split.
    + split; [exact Hsc4|]. split; [lia|]. split; [lia|]. split; [lia|].
      intros Hne. destruct Hex4 as [Hex4 | [Hex4 _]]; congruence.
    + left. destruct Hex4 as [Hex4 | [Hex4 _]]; congruence.
Qed.

(** Over text without comments, 5000 iterations suffice, and the stream
    ends within 5000 characters before the cursor. *)
Lemma backwardLoop_clean d position fuel :
  validPos d position ->
  (forall q, validPos d q -> offsetOf d q < offsetOf d position ->
             codeAt d q <> Some slash) ->
  forall sc,
    withinCutoff d position sc ->
    offsetOf d (pos (stream sc)) + 5000 - offsetOf d position <= fuel ->
    exists sc', backwardLoop d position fuel sc = Some (Returned sc')
                /\ withinCutoff d position sc' /\ backwardCond sc' = false.
Proof.
  intros Hvp Hclean. induction fuel as [|fuel IH]; intros sc Hin Hfuel.
  - exists sc. assert (Hc : backwardCond sc = false).
    { destruct Hin as (_ & _ & _ & _ & HJ). unfold backwardCond.
      destruct (exit sc); [reflexivity|]. specialize (HJ eq_refl). lia. }
    split; [now apply backwardLoop_done | auto].
  - destruct (backwardCond sc) eqn:Hcond.
    2:{ exists sc. split; [now apply backwardLoop_done | auto]. }
    cbn [backwardLoop]. rewrite Hcond.
    destruct (backwardStep_clean d position sc Hvp Hclean Hin Hcond)
      as (sc1 & -> & Hin' & Hstep).
    destruct Hstep as [Hexit | Hdec].
    + exists sc1.
      assert (Hc : backwardCond sc1 = false) by (unfold backwardCond; now rewrite Hexit).
      split; [now apply backwardLoop_done | auto].
    + apply IH; [exact Hin' | lia].
Qed.

Lemma scanning_backwardEntry d position e :
  validPos d position -> scanning d (backwardEntry d position e).
Proof.
  intros Hv. split; [apply wholeDocument_newStream|]. split; [exact Hv | now left].
Qed.

Lemma backwardMeasure_backwardEntry d position e :
  backwardMeasure d (backwardEntry d position e) = offsetOf d position.
Proof.
  unfold backwardMeasure, lineCommentPending. cbn.
  now rewrite Nat.eqb_refl, andb_false_r.
Qed.

Lemma scanning_startPosition d sc :
  scanning d sc -> isCSS d = false -> startPosition sc = mkPosition 0 0.
Proof. intros (_ & _ & [Hs | [Hc _]]) Hcss; [exact Hs | congruence]. Qed.

(** C5 (as amended).  The backward scan always comes to an end: with
    enough iterations the loop is left, or ended by the exception that the
    stream reader throws when it is asked to back up at the start of the
    document.  An iteration that ends more than 100 lines above the
    cursor's line, or 5000 characters or more before the cursor, sets
    [exit]: both backward loops stop there, and the start boundary is left
    as it was (the start of the document), not moved to the current
    position.  Over text without a slash before the cursor the loop is
    left within 5000 iterations, with the stream at most 5000 characters
    before the cursor. *)
Theorem backwardScan_cutoff (doc : TextDocument) (position : Position)
    (endPosition0 : Position) :
  (forall sc sc',
     backwardStep doc position sc = Returned sc' ->
     line (pos (stream sc')) + 100 < line position
     \/ (validPos doc position /\ validPos doc (pos (stream sc'))
         /\ offsetOf doc (pos (stream sc')) + 5000 <= offsetOf doc position) ->
     exit sc' = true
     /\ (forall fuel, backwardLoop doc position fuel sc' = Some (Returned sc'))
     /\ (forall fuel, selectorLoop doc fuel (selectorEntry sc')
                      = Some (Returned (selectorEntry sc')))
     /\ (startPosition sc' = startPosition sc
         \/ (isCSS doc = true
             /\ exists s2, backUp 1 (stream (consumeLineCommentBackwards doc sc))
                           = Returned (Some closeBrace, s2))))
  /\ (validPos doc position ->
      forall fuel, scanFuel doc <= fuel ->
      exists r,
        backwardLoop doc position fuel (backwardEntry doc position endPosition0) = Some r
        /\ match r with
           | Returned sc =>
               backwardCond sc = false
               /\ (isCSS doc = false -> startPosition sc = mkPosition 0 0)
           | Thrown e => e = IllegalLine /\ codeAt doc (mkPosition 0 0) = Some slash
           end)
  /\ (validPos doc position ->
      (forall q, validPos doc q -> offsetOf doc q < offsetOf doc position ->
                 codeAt doc q <> Some slash) ->
      forall fuel, 5000 <= fuel ->
      exists sc,
        backwardLoop doc position fuel (backwardEntry doc position endPosition0)
        = Some (Returned sc)
        /\ backwardCond sc = false
        /\ offsetOf doc position <= offsetOf doc (pos (stream sc)) + 5000
        /\ (isCSS doc = false -> startPosition sc = mkPosition 0 0)).
Proof.
  split; [|split].
  - intros sc sc' Hstep Hpast. apply (pastLimit_intro doc position) in Hpast.
    destruct (backwardStep_abort doc position sc sc' Hstep Hpast) as [Hexit Hstart].
    destruct (exit_stops_loops doc position _ Hexit) as [Hb Hs]. auto.
  - intros Hv fuel Hfuel.
    destruct (backwardLoop_terminates doc position fuel
                (backwardEntry doc position endPosition0))
      as (r & Hrun & Hr).
    + now apply scanning_backwardEntry.
    + rewrite backwardMeasure_backwardEntry.
      pose proof (offsetOf_le_total doc _ Hv). unfold scanFuel in Hfuel. lia.
    + exists r. split; [exact Hrun|]. destruct r as [sc|e]; [|exact Hr].
      destruct Hr as [Hsc Hcond]. split; [exact Hcond|].
      now apply scanning_startPosition.
  - intros Hv Hclean fuel Hfuel.
    destruct (backwardLoop_clean doc position fuel Hv Hclean
                (backwardEntry doc position endPosition0))
      as (sc & Hrun & (Hsc & _ & _ & HB & _) & Hcond).
    + split; [now apply scanning_backwardEntry|].
      change (pos (stream (backwardEntry doc position endPosition0))) with position.
      change (currentLine (backwardEntry doc position endPosition0)) with (line position).
      repeat split; lia.
    + change (pos (stream (backwardEntry doc position endPosition0))) with position. lia.
    + exists sc. split; [exact Hrun|]. split; [exact Hcond|]. split; [exact HB|].
      now apply scanning_startPosition.
Qed.

(** The forward scan followed by the backward loop. *)
Lemma backwardScan_terminates d position fuel :
  validPos d position -> scanFuel d <= fuel ->
  exists r,
    backwardScan d position fuel = Some r
    /\ match r with
       | Returned sc => backwardCond sc = false
       | Thrown e => e = IllegalLine /\ codeAt d (mkPosition 0 0) = Some slash
       end.
Proof.
  intros Hv Hfuel. unfold backwardScan. rewrite forwardScan_unfold.
  destruct (forwardLoop_result d fuel (newStream d (Some position) None)
              (wholeDocument_newStream d position)) as (s' & Hrun & Hw' & _).
  { right. split; [exact Hv|]. unfold scanFuel in Hfuel.
    change (pos (newStream d (Some position) None)) with position. lia. }
  rewrite Hrun.
  assert (Hentry : setStream (seek s' position)
                     (backwardEntry d position (endBoundary d s'))
                   = backwardEntry d position (endBoundary d s')).
  { destruct Hw' as (Hd & Hs & He). unfold setStream, seek, backwardEntry, newStream.
    cbn. now rewrite Hd, Hs, He. }
  rewrite Hentry.
  destruct (backwardLoop_terminates d position fuel
              (backwardEntry d position (endBoundary d s')))
    as (r & Hloop & Hr).
  - now apply scanning_backwardEntry.
  - rewrite backwardMeasure_backwardEntry.
    pose proof (offsetOf_le_total d _ Hv). unfold scanFuel in Hfuel. lia.
  - exists r. split; [exact Hloop|]. destruct r as [sc|e]; tauto.
Qed.

(** On a document that begins with a slash the scan ends with the
    exception of the stream reader: the slash at the start sends
    [consumeBlockCommentBackwards] one character further back. *)
Lemma backwardLoop_leading_slash fuel :
  backwardLoop leadingSlashDocument (mkPosition 0 3) (S (S (S fuel)))
    (backwardEntry leadingSlashDocument (mkPosition 0 3) (mkPosition 0 3))
  = Some (Thrown IllegalLine).
Proof. reflexivity. Qed.

Lemma longLineDocument_no_slash q : codeAt longLineDocument q <> Some slash.
Proof.
  unfold codeAt. cbn zeta.
  destruct (character q <? length (lineAt longLineDocument (line q))).
  - intros Hc. apply nth_error_In in Hc. unfold lineAt, docLines in Hc.
    cbn [longLineDocument firstLine moreLines] in Hc.
    destruct (line q) as [|[|l]]; cbn [nth] in Hc; try contradiction.
    apply repeat_spec in Hc. discriminate.
  - generalize (character q - length (lineAt longLineDocument (line q))).
    intros [|[|k]]; cbn; discriminate.
Qed.

Lemma longLineDocument_cursor : validPos longLineDocument (mkPosition 0 10000).
Proof.
  split; [cbn; lia|]. unfold lineAt, docLines.
  cbn [longLineDocument firstLine moreLines line character nth].
  now rewrite repeat_length.
Qed.

Lemma backwardScan_cutoff_witness :
  exists sc,
    backwardLoop longLineDocument (mkPosition 0 10000) 5000
      (backwardEntry longLineDocument (mkPosition 0 10000) (mkPosition 0 10000))
    = Some (Returned sc)
    /\ offsetOf longLineDocument (mkPosition 0 10000)
       <= offsetOf longLineDocument (pos (stream sc)) + 5000
    /\ startPosition sc = mkPosition 0 0.
Proof.
  destruct (backwardScan_cutoff longLineDocument (mkPosition 0 10000)
              (mkPosition 0 10000)) as (_ & _ & H).
  destruct (H longLineDocument_cursor
              (fun q _ _ => longLineDocument_no_slash q) 5000 (Nat.le_refl _))
    as (sc & Hrun & _ & Hbound & Hstart).
  exists sc. split; [exact Hrun|]. split; [exact Hbound | now apply Hstart].
Defined.

(** C5 as stated fails: when the scan is cut off, the start boundary is
    not the current position.  With the cursor on the last of 103 lines,
    the scan stops on line 1, more than 100 lines above the cursor, and
    the start boundary is still the start of the document.  And a line
    without braces is not enough to keep the stream within 5000
    characters before the cursor: on a line of 10,000 characters that is
    one block comment, with the cursor at its end, the first iteration
    skips the comment and leaves the stream at the start of the line. *)
Lemma cutoff_leaves_start_boundary :
  (exists sc,
     backwardLoop manyLinesDocument (mkPosition 102 1) (scanFuel manyLinesDocument)
       (backwardEntry manyLinesDocument (mkPosition 102 1) (mkPosition 102 1))
     = Some (Returned sc)
     /\ exit sc = true
     /\ pos (stream sc) = mkPosition 1 1
     /\ line (pos (stream sc)) + 100 < line (mkPosition 102 1)
     /\ startPosition sc = mkPosition 0 0
     /\ startPosition sc <> pos (stream sc)
     /\ exists sc',
          selectorScan manyLinesDocument (mkPosition 102 1) (scanFuel manyLinesDocument)
          = Some (Returned sc')
          /\ startPosition sc' = mkPosition 0 0)
  /\ (forallb (fun c => negb (c =? closeBrace) && negb (c =? openBrace))
        (fullText commentedLineDocument) = true
      /\ offsetOf commentedLineDocument (mkPosition 0 10000) = 10000
      /\ exists sc,
           backwardLoop commentedLineDocument (mkPosition 0 10000) 1
             (backwardEntry commentedLineDocument (mkPosition 0 10000)
                (mkPosition 0 10000))
           = Some (Returned sc)
           /\ exit sc = true
           /\ pos (stream sc) = mkPosition 0 0).
Proof.
  split.
  - eexists. split; [vm_compute; reflexivity|].
    split; [reflexivity|]. split; [reflexivity|]. split; [cbn; lia|].
    split; [reflexivity|]. split; [discriminate|].
    eexists. split; [vm_compute; reflexivity | reflexivity].
  - split; [vm_compute; reflexivity|]. split; [vm_compute; reflexivity|].
    eexists. split; [vm_compute; reflexivity|]. split; reflexivity.
Qed.


(* ===================================================================== *)
(** * Part III: further properties of the code                           *)
(* ===================================================================== *)

(** ** The node locator on arbitrary trees *)

(** Once a node has been found the walk never forgets it. *)
Lemma getNode_loop_keeps position incl fuel :
  forall currentNode f res,
    getNode_loop fuel position incl currentNode (Some f) = Some res ->
    exists m, res = Some m.
Proof.
  induction fuel as [|fuel IH]; intros cur f res Hrun.
  - destruct cur; simpl in Hrun; [injection Hrun as <-; eauto | discriminate].
  - destruct cur as [|n rest]; simpl in Hrun; [injection Hrun as <-; eauto|].
    destruct (containsPosition position incl n); eapply IH; eauto.
Qed.

Lemma getNode_loop_none position incl fuel :
  forall currentNode res,
    getNode_loop fuel position incl currentNode None = Some res ->
    (res = None <-> forallb (fun c => negb (containsPosition position incl c)) currentNode = true).
Proof.
  induction fuel as [|fuel IH]; intros cur res Hrun.
  - destruct cur; simpl in Hrun; [injection Hrun as <-; simpl; tauto | discriminate].
  - destruct cur as [|n rest]; simpl in Hrun; [injection Hrun as <-; simpl; tauto|].
    simpl. destruct (containsPosition position incl n) eqn:Hn; simpl.
    + apply getNode_loop_keeps in Hrun as [m ->]. split; discriminate.
    + now apply IH.
Qed.

(** The walk stops below a found node only when none of its children
    contains the position. *)
Lemma getNode_loop_leaf position incl fuel :
  forall currentNode foundNode res,
    getNode_loop fuel position incl currentNode foundNode = Some res ->
    match foundNode with
    | Some f =>
        exists pre, children f = pre ++ currentNode
                    /\ forallb (fun c => negb (containsPosition position incl c)) pre = true
    | None => True
    end ->
    match res with
    | Some m => forallb (fun c => negb (containsPosition position incl c)) (children m) = true
    | None => True
    end.
Proof.
  induction fuel as [|fuel IH]; intros cur found res Hrun Hinv.
  - destruct cur; simpl in Hrun; [injection Hrun as <-|discriminate].
    destruct found as [f|]; [|exact I].
    destruct Hinv as (pre & Hpre & Hall). rewrite Hpre, app_nil_r. exact Hall.
  - destruct cur as [|n rest]; simpl in Hrun.
    + injection Hrun as <-. destruct found as [f|]; [|exact I].
      destruct Hinv as (pre & Hpre & Hall). rewrite Hpre, app_nil_r. exact Hall.
    + destruct (containsPosition position incl n) eqn:Hn.
      * eapply IH; [exact Hrun|]. exists []. split; reflexivity.
      * eapply IH; [exact Hrun|]. destruct found as [f|]; [|exact I].
        destruct Hinv as (pre & Hpre & Hall). exists (pre ++ [n]). split.
        -- rewrite Hpre, <- app_assoc. reflexivity.
        -- rewrite forallb_app, Hall. simpl. now rewrite Hn.
Qed.

(** X1: on every tree, with no assumption on how the spans nest, a node
    returned by [getNode] is a proper descendant of the root, contains the
    position (in the sense selected by [includeNodeBoundary]), and has no
    child that contains the position: the walk only stops where it cannot
    dig deeper. *)
Theorem getNode_found (root : Node) (position : Position) (incl : bool) (m : Node) :
  getNode (Some root) position incl = Some m ->
  (exists d, occurs (S d) m root)
  /\ containsPosition position incl m = true
  /\ forallb (fun c => negb (containsPosition position incl c)) (children m) = true.
Proof.
  intros Hget. destruct (getNode_sound _ _ _ _ Hget) as [Hm Hocc].
  split; [exact Hocc|]. split; [exact Hm|].
  unfold getNode in Hget.
  destruct (getNode_loop (node_size root) position incl (children root) None)
    as [res|] eqn:Hrun; [|discriminate].
  subst res. exact (getNode_loop_leaf _ _ _ _ _ _ Hrun I).
Qed.

Lemma getNode_found_witness :
  (exists d, occurs (S d) siblingC familyRoot)
  /\ containsPosition (mkPosition 0 25) false siblingC = true
  /\ forallb (fun c => negb (containsPosition (mkPosition 0 25) false c))
       (children siblingC) = true.
Proof.
  apply (getNode_found familyRoot (mkPosition 0 25) false siblingC). reflexivity.
Defined.

(** X2: [getNode] returns nothing exactly when no child of the root
    contains the position; what lies deeper in the tree is never looked at
    in that case. *)
Theorem getNode_nothing (root : Node) (position : Position) (incl : bool) :
  getNode (Some root) position incl = None
  <-> forallb (fun c => negb (containsPosition position incl c)) (children root) = true.
Proof.
  unfold getNode.
  destruct (getNode_loop_total position incl (node_size root) (children root) None)
    as [res Hrun].
  { rewrite node_size_children. lia. }
  rewrite Hrun. exact (getNode_loop_none _ _ _ _ _ Hrun).
Qed.

(** ** The sibling-range collector on ordered siblings *)

Ltac positions :=
  unfold isAfter, isAfterOrEqual, isBefore, isBeforeOrEqual, isEqual in *;
  repeat match goal with p : Position |- _ => destruct p end;
  cbn [line character] in *;
  rewrite ?negb_true_iff, ?negb_false_iff in *;
  rewrite ?orb_true_iff, ?orb_false_iff, ?andb_true_iff, ?andb_false_iff,
    ?Nat.ltb_lt, ?Nat.ltb_ge, ?Nat.leb_le, ?Nat.leb_gt, ?Nat.eqb_eq, ?Nat.eqb_neq in *;
  try lia.

Lemma orderedSiblings_app l1 l2 :
  orderedSiblings (l1 ++ l2) = true ->
  orderedSiblings l2 = true
  /\ forall x y, In x l1 -> In y l2 -> isBeforeOrEqual (end_ x) (start y) = true.
Proof.
  induction l1 as [|a l1 IH]; simpl; intros H.
  - split; [exact H|]. intros x y [].
  - apply andb_true_iff in H as [Ha Hr]. destruct (IH Hr) as [H2 Hxy].
    split; [exact H2|]. intros x y [<-|Hx] Hy.
    + rewrite List.forallb_forall in Ha. apply Ha. apply in_or_app. now right.
    + now apply Hxy.
Qed.

(** The collecting loop takes every node that starts before the position
    and stops at the first one that does not. *)
Lemma collectSiblings_run position up l :
  forall h rest,
    (forall x, In x (h :: l) -> isAfter position (start x) = true) ->
    match rest with
    | [] => True
    | r :: _ => isAfter position (start r) = false
    end ->
    collectSiblings position h (l ++ rest) up = siblingLocs (h :: l) rest up.
Proof.
  induction l as [|a l IH]; intros h rest Hall Hrest.
  - pose proof (Hall h (or_introl eq_refl)) as Hh.
    destruct rest as [|r rest']; simpl; rewrite Hh; [reflexivity|].
    destruct rest'; simpl; now rewrite Hrest.
  - cbn [app collectSiblings siblingLocs]. rewrite (Hall h (or_introl eq_refl)).
    f_equal. rewrite IH; [reflexivity | | exact Hrest].
    intros x Hx. apply Hall. now right.
Qed.

(** X3: for siblings in document order (each ends before the next ones
    start; spans are not reversed and the span of the second node is not
    empty), [getNodesInBetween] of a node and a later sibling returns the
    whole run of siblings from the first to the second, both included, in
    order, whether or not the two nodes have a parent. *)
Theorem getNodesInBetween_run (A B : Node) (mid rest : list Node) (up : option Loc) :
  orderedSiblings (A :: mid ++ B :: rest) = true ->
  forallb properSpan (A :: mid) = true ->
  nonEmptySpan B = true ->
  getNodesInBetween (mkLoc A (mid ++ B :: rest) up) (mkLoc B rest up)
  = siblingLocs (A :: mid ++ [B]) rest up.
Proof.
  intros Hord Hproper HB. unfold nonEmptySpan in HB.
  change (A :: mid ++ B :: rest) with ((A :: mid) ++ B :: rest) in Hord.
  apply orderedSiblings_app in Hord as [HordB Hbefore].
  assert (HAB : forall x, In x (A :: mid) -> isBeforeOrEqual (end_ x) (start B) = true).
  { intros x Hx. apply Hbefore; [exact Hx | now left]. }
  assert (Hspan : forall x, In x (A :: mid) -> isBeforeOrEqual (start x) (end_ x) = true).
  { intros x Hx. rewrite List.forallb_forall in Hproper. now apply Hproper. }
  assert (Hrun : siblingsUpTo (mkLoc A (mid ++ B :: rest) up) (mkLoc B rest up)
                 = siblingLocs (A :: mid ++ [B]) rest up).
  { unfold siblingsUpTo. cbn [here after parent].
    replace (mid ++ B :: rest) with ((mid ++ [B]) ++ rest) by now rewrite <- app_assoc.
    apply collectSiblings_run.
    - intros x Hx.
      assert (Hx' : In x (A :: mid) \/ x = B).
      { destruct Hx as [<-|Hx]; [left; now left|].
        apply in_app_or in Hx as [Hx|[<-|[]]]; [left; now right | now right]. }
      destruct Hx' as [Hx'| ->].
      + specialize (HAB x Hx'). specialize (Hspan x Hx').
        destruct (start x), (end_ x), (start B), (end_ B). positions.
      + destruct (start B), (end_ B). positions.
    - destruct rest as [|r rest']; [exact I|].
      simpl in HordB. apply andb_true_iff in HordB as [Hr _].
      apply andb_true_iff in Hr as [Hr _].
      destruct (start r), (end_ B). positions. }
  pose proof (HAB A (or_introl eq_refl)) as HA.
  pose proof (Hspan A (or_introl eq_refl)) as HsA.
  unfold getNodesInBetween.
  assert (Hdiff : sameNodes (Some (mkLoc A (mid ++ B :: rest) up)) (Some (mkLoc B rest up))
                  = false).
  { unfold sameNodes. cbn [here]. apply andb_false_iff. right.
    destruct (start A), (end_ A), (start B), (end_ B). positions. }
  rewrite Hdiff. cbn [parent here].
  destruct up as [p|].
  - assert (Hs : sameNodes (Some p) (Some p) = true).
    { unfold sameNodes. now rewrite !isEqual_refl. }
    rewrite Hs. exact Hrun.
  - cbn [sameNodes negb].
    assert (H1 : isBefore (start B) (start A) = false).
    { destruct (start A), (end_ A), (start B), (end_ B). positions. }
    assert (H2 : isBefore (start B) (end_ A) = false).
    { destruct (start A), (end_ A), (start B), (end_ B). positions. }
    rewrite H1, H2. exact Hrun.
Qed.

Lemma getNodesInBetween_run_witness :
  getNodesInBetween (mkLoc siblingA ([siblingC] ++ siblingB :: []) None)
                    (mkLoc siblingB [] None)
  = siblingLocs (siblingA :: [siblingC] ++ [siblingB]) [] None.
Proof.
  apply (getNodesInBetween_run siblingA siblingB [siblingC] [] None); reflexivity.
Defined.

(** ** Template-aware resolution and stylesheet lookups, in general *)

(** X4: [getHtmlNode] returns nothing exactly when [getNode] finds nothing
    in the given tree; a node that it returns (the node of the given tree
    or a node of the parsed template body) contains the position; and it
    throws nothing but a [TypeError], exactly when the node found is a
    script tag on which the visit of the attributes reaches an attribute
    named [type] without a value.  The exception of the markup parser
    never leaves it. *)
Theorem getHtmlNode_contains (parse : Parser) (doc : TextDocument) (root : option Node)
    (position : Position) (incl : bool) :
  (getHtmlNode parse doc root position incl = Returned None
   <-> getNode root position incl = None)
  /\ (forall m, getHtmlNode parse doc root position incl = Returned (Some m) ->
                containsPosition position incl m = true)
  /\ (forall e, getHtmlNode parse doc root position incl = Thrown e <->
                e = TypeError
                /\ exists currentNode pre x post,
                     getNode root position incl = Some currentNode
                     /\ name currentNode = "script"
                     /\ attributes currentNode = Some (pre ++ x :: post)
                     /\ someTemplateType pre = Returned false
                     /\ attr_name x = "type" /\ attr_value x = None).
Proof.
  unfold getHtmlNode.
  destruct (getNode root position incl) as [cur|] eqn:Hcur.
  2:{ split; [tauto|]. split; [discriminate|].
      intros e. split; [discriminate|].
      intros (_ & c & pre & x & post & H & _). discriminate. }
  assert (Hc : containsPosition position incl cur = true).
  { destruct root as [r|]; [|discriminate]. now apply getNode_sound in Hcur. }
  assert (Hvalueless : forall c pre x post,
            Some cur = Some c -> name c = "script" ->
            attributes c = Some (pre ++ x :: post) ->
            someTemplateType pre = Returned false ->
            attr_name x = "type" -> attr_value x = None ->
            isTemplateScript cur = Thrown TypeError).
  { intros c pre x post [= <-] Hname Hattrs Hpre Htype Hval.
    unfold isTemplateScript. rewrite Hname, String.eqb_refl, Hattrs.
    now apply someTemplateType_valueless. }
  destruct (isTemplateScript cur) as [templateScript|e0] eqn:Hts; cbn [bind].
  - assert (Hnot : forall e,
              ~ (e = TypeError
                 /\ exists c pre x post,
                      Some cur = Some c /\ name c = "script"
                      /\ attributes c = Some (pre ++ x :: post)
                      /\ someTemplateType pre = Returned false
                      /\ attr_name x = "type" /\ attr_value x = None)).
    { intros e (_ & c & pre & x & post & H1 & H2 & H3 & H4 & H5 & H6).
      specialize (Hvalueless c pre x post H1 H2 H3 H4 H5 H6). discriminate. }
    destruct (close cur) as [closeTag|].
    2:{ split; [split; discriminate|]. split; [now intros m [= <-]|].
        intros e. split; [discriminate | intros H; now apply Hnot in H]. }
    destruct (templateScript && _).
    2:{ split; [split; discriminate|]. split; [now intros m [= <-]|].
        intros e. split; [discriminate | intros H; now apply Hnot in H]. }
    destruct (parse _) as [inner|e']; cbn [bind tryCatch].
    2:{ split; [split; discriminate|]. split; [now intros m [= <-]|].
        intros e. split; [discriminate | intros H; now apply Hnot in H]. }
    destruct (getNode (Some inner) position incl) as [m'|] eqn:Hm'; cbn [tryCatch].
    2:{ split; [split; discriminate|]. split; [now intros m [= <-]|].
        intros e. split; [discriminate | intros H; now apply Hnot in H]. }
    split; [split; discriminate|]. split.
    + intros m [= <-]. now apply getNode_sound in Hm'.
    + intros e. split; [discriminate | intros H; now apply Hnot in H].
  - split; [split; discriminate|]. split; [discriminate|].
    intros e. split.
    + intros [= <-]. unfold isTemplateScript in Hts.
      destruct (String.eqb (name cur) "script") eqn:Hname; [|discriminate].
      destruct (attributes cur) as [attrs|] eqn:Hattrs; [|discriminate].
      apply someTemplateType_thrown in Hts as (He & pre & x & post & -> & Hpre & Hx).
      split; [exact He|]. exists cur, pre, x, post. apply String.eqb_eq in Hname.
      tauto.
    + intros (-> & c & pre & x & post & H1 & H2 & H3 & H4 & H5 & H6).
      specialize (Hvalueless c pre x post H1 H2 H3 H4 H5 H6). congruence.
Qed.

(** X5: whatever [getCssPropertyFromDocument] returns is a node of type
    [property] that contains the position, boundaries included. *)
Theorem getCssPropertyFromDocument_property (parse parseStylesheet : Parser)
    (doc : TextDocument) (position : Position) (n : Node) :
  fst (getCssPropertyFromDocument parse parseStylesheet doc position) = Returned (Some n) ->
  type n = "property" /\ containsPosition position true n = true.
Proof.
  assert (Has : forall root, asProperty (getNode root position true) = Some n ->
                type n = "property" /\ containsPosition position true n = true).
  { intros root. unfold asProperty.
    destruct (getNode root position true) as [x|] eqn:Hx; [|discriminate].
    destruct (String.eqb (type x) "property") eqn:Ht; [|discriminate].
    intros [= ->]. apply String.eqb_eq in Ht. split; [exact Ht|].
    destruct root as [r|]; [|discriminate]. now apply getNode_sound in Hx. }
  unfold getCssPropertyFromDocument.
  destruct (parseDocument parse parseStylesheet doc true) as [parsed shown].
  cbn [fst]. destruct parsed as [rootNode|e]; [|discriminate]. cbn [bind].
  destruct (isStyleSheet (languageId doc)).
  - intros [= H]. now apply Has in H.
  - destruct (getNode rootNode position true) as [htmlNode|]; [|discriminate].
    destruct (_ && _); [|discriminate].
    destruct (close htmlNode) as [closeTag|]; [|discriminate].
    destruct (isAfter _ _); [|discriminate].
    destruct (parseStylesheet _) as [rootNode'|e]; [|discriminate].
    cbn [bind]. intros [= H]. exact (Has (Some rootNode') H).
Qed.

Lemma getCssPropertyFromDocument_property_witness :
  type (mkNode (onLine0 2) (onLine0 11) "property" "color"
          (mkToken (onLine0 2) (onLine0 7)) None None []) = "property"
  /\ containsPosition (onLine0 5) true
       (mkNode (onLine0 2) (onLine0 11) "property" "color"
          (mkToken (onLine0 2) (onLine0 7)) None None []) = true.
Proof.
  apply (getCssPropertyFromDocument_property rejectingParser
           (fun _ => Returned
              (mkNode (onLine0 0) (onLine0 12) "stylesheet" ""
                 (mkToken (onLine0 0) (onLine0 0)) None None
                 [mkNode (onLine0 2) (onLine0 11) "property" "color"
                    (mkToken (onLine0 2) (onLine0 7)) None None []]))
           (documentOfString "css" "a{color:red}") (onLine0 5)).
  reflexivity.
Defined.

Lemma unclosedEndAtOpen_children n c :
  unclosedEndAtOpen n = true -> In c (children n) ->
  endsAtOpenTag c = true /\ unclosedEndAtOpen c = true.
Proof.
  destruct n as [s e t x o cl a ch]. simpl.
  induction ch as [|k r IH]; simpl; [tauto|].
  rewrite !andb_true_iff. intros [[H1 H2] H3] [->|Hin]; auto.
Qed.

Lemma unclosedEndAtOpen_occurs d :
  forall x n, unclosedEndAtOpen x = true -> occurs (S d) n x -> endsAtOpenTag n = true.
Proof.
  induction d as [|d IH]; intros x n Hx Hocc;
    apply occurs_S_inv in Hocc as (c & Hin & Hocc);
    destruct (unclosedEndAtOpen_children _ _ Hx Hin) as [Hb Hc].
  - apply occurs_0_inv in Hocc. now subst.
  - eapply IH; eauto.
Qed.

(** X6: on the trees that the markup parser builds, where a tag that is
    never closed ends at the end of its open tag, [getCssPropertyFromDocument]
    throws nothing of its own: the position is never both inside such a
    tag and after its open tag, so that [close.start] of a missing close
    tag is never read.  Either the function returns, or the node under
    the position is a closed [style] element and the exception is the one
    that the stylesheet parser throws on the text of that element. *)
Theorem getCssPropertyFromDocument_throws_only_parser (parse parseStylesheet : Parser)
    (doc : TextDocument) (position : Position) :
  (forall root, parse (newStream doc None None) = Returned root ->
                unclosedEndAtOpen root = true) ->
  (exists r, fst (getCssPropertyFromDocument parse parseStylesheet doc position)
             = Returned r)
  \/ (exists root htmlNode closeTag e,
        parse (newStream doc None None) = Returned root
        /\ getNode (Some root) position true = Some htmlNode
        /\ name htmlNode = "style"
        /\ close htmlNode = Some closeTag
        /\ parseStylesheet (newStream doc (Some (start htmlNode))
                              (Some (mkRange (start htmlNode) (end_ htmlNode))))
           = Thrown e
        /\ fst (getCssPropertyFromDocument parse parseStylesheet doc position)
           = Thrown e).
Proof.
  intros Hshape. unfold getCssPropertyFromDocument, parseDocument.
  destruct (isStyleSheet (languageId doc)) eqn:Hlang.
  { left. destruct (parseStylesheet _); cbn [fst bind]; eauto. }
  destruct (parse (newStream doc None None)) as [root|e0] eqn:Hparse; cbn [fst bind].
  2:{ left. cbn. eauto. }
  specialize (Hshape root eq_refl).
  destruct (getNode (Some root) position true) as [htmlNode|] eqn:Hnode; [|eauto].
  destruct (String.eqb (name htmlNode) "style") eqn:Hname; cbn [andb]; [|eauto].
  destruct (isBefore (tok_end (open htmlNode)) position) eqn:Hopen; [|eauto].
  destruct (close htmlNode) as [closeTag|] eqn:Hclose.
  - destruct (isAfter (tok_start closeTag) position); [|eauto].
    destruct (parseStylesheet _) as [rootNode'|e] eqn:Hsheet; cbn [bind]; [eauto|].
    right. exists root, htmlNode, closeTag, e. apply String.eqb_eq in Hname.
    repeat split; assumption.
  - exfalso. apply getNode_sound in Hnode as (Hin & d & Hocc).
    pose proof (unclosedEndAtOpen_occurs d root htmlNode Hshape Hocc) as Hend.
    unfold endsAtOpenTag in Hend. rewrite Hclose in Hend.
    apply isEqual_eq in Hend. apply containsPosition_spec in Hin.
    rewrite Hend in Hin. apply isBefore_lt in Hopen.
    destruct Hin as [[_ Hin] | (_ & _ & Hin)];
      [apply isBefore_lt in Hin | apply isBeforeOrEqual_le in Hin]; lia.
Qed.

Lemma getCssPropertyFromDocument_throws_only_parser_witness :
  (exists r, fst (getCssPropertyFromDocument markupParserOfUnclosedStyle rejectingParser
                    unclosedStyleDocument (onLine0 10))
             = Returned r)
  \/ (exists root htmlNode closeTag e,
        markupParserOfUnclosedStyle (newStream unclosedStyleDocument None None)
        = Returned root
        /\ getNode (Some root) (onLine0 10) true = Some htmlNode
        /\ name htmlNode = "style"
        /\ close htmlNode = Some closeTag
        /\ rejectingParser (newStream unclosedStyleDocument (Some (start htmlNode))
                              (Some (mkRange (start htmlNode) (end_ htmlNode))))
           = Thrown e
        /\ fst (getCssPropertyFromDocument markupParserOfUnclosedStyle rejectingParser
                  unclosedStyleDocument (onLine0 10))
           = Thrown e).
Proof.
  apply (getCssPropertyFromDocument_throws_only_parser markupParserOfUnclosedStyle
           rejectingParser unclosedStyleDocument (onLine0 10)).
  intros root [= <-]. reflexivity.
Defined.

(** ** The last non-comment leaf *)

Lemma getDeepestNodeOf_unfold n :
  getDeepestNodeOf n
  = if (length (children n) =? 0) || negb (existsb notComment (children n))
    then Some n
    else match lastNonComment (children n) with
         | Some c => getDeepestNodeOf c
         | None => None
         end.
Proof.
  destruct n as [s e t x o cl a ch]. cbn [getDeepestNodeOf children].
  destruct ((length ch =? 0) || negb (existsb notComment ch)); [reflexivity|].
  match goal with
  | |- match ?F ch with _ => _ end = _ =>
      assert (HF : forall l, F l = match lastNonComment l with
                                   | Some c => Some (getDeepestNodeOf c)
                                   | None => None
                                   end)
  end.
  { induction l as [|c r IH]; [reflexivity|].
    cbn [lastNonComment]. rewrite IH.
    destruct (lastNonComment r); [reflexivity|].
    destruct (notComment c); reflexivity. }
  rewrite HF. destruct (lastNonComment ch); reflexivity.
Qed.

Lemma lastNonComment_spec l :
  match lastNonComment l with
  | Some c =>
      exists pre post, l = pre ++ c :: post /\ notComment c = true
                       /\ existsb notComment post = false
  | None => existsb notComment l = false
  end.
Proof.
  induction l as [|c r IH]; [reflexivity|].
  cbn [lastNonComment]. destruct (lastNonComment r) as [x|].
  - destruct IH as (pre & post & -> & Hx & Hpost).
    exists (c :: pre), post. repeat split; assumption.
  - destruct (notComment c) eqn:Hc.
    + exists [], r. repeat split; assumption.
    + simpl. now rewrite Hc, IH.
Qed.

Lemma lastNonComment_app pre c post :
  notComment c = true -> existsb notComment post = false ->
  lastNonComment (pre ++ c :: post) = Some c.
Proof.
  intros Hc Hpost.
  assert (Hp : lastNonComment post = None).
  { pose proof (lastNonComment_spec post) as H.
    destruct (lastNonComment post) as [x|]; [|reflexivity].
    destruct H as (p1 & p2 & -> & Hx & _).
    rewrite existsb_app in Hpost. simpl in Hpost. rewrite Hx in Hpost.
    now rewrite orb_true_r in Hpost. }
  induction pre as [|a pre IH]; cbn [app lastNonComment].
  - now rewrite Hp, Hc.
  - now rewrite IH.
Qed.

(** The result for a present node: a node at some depth below it (or the
    node itself) that has no child other than comments. *)
Lemma getDeepestNodeOf_spec n :
  exists m d, getDeepestNodeOf n = Some m /\ occurs d m n
              /\ existsb notComment (children m) = false
              /\ (d = 0 \/ notComment m = true).
Proof.
  induction n as [s e t x o cl a ch IH] using Node_nested_ind.
  rewrite getDeepestNodeOf_unfold. cbn [children].
  destruct ((length ch =? 0) || negb (existsb notComment ch)) eqn:Htest.
  - eexists _, 0. split; [reflexivity|]. split; [constructor|]. split; [|now left].
    cbn [children]. apply orb_true_iff in Htest as [Hlen|Hnone].
    + apply Nat.eqb_eq in Hlen. now destruct ch.
    + now apply negb_true_iff in Hnone.
  - pose proof (lastNonComment_spec ch) as Hlast.
    destruct (lastNonComment ch) as [c|].
    + destruct Hlast as (pre & post & -> & Hc & Hpost).
      rewrite List.Forall_forall in IH.
      destruct (IH c) as (m & d & Hm & Hocc & Hleaf & Hnc).
      { apply in_or_app. right. now left. }
      exists m, (S d). split; [exact Hm|]. split.
      * econstructor; [|exact Hocc]. cbn [children]. apply in_or_app. right. now left.
      * split; [exact Hleaf|]. right. destruct Hnc as [-> | Hnc]; [|exact Hnc].
        apply occurs_0_inv in Hocc. now subst.
    + apply orb_false_iff in Htest as [_ Htest].
      apply negb_false_iff in Htest. congruence.
Qed.

(** X7: for every present node, [getDeepestNode] returns a node (the
    [return undefined] after the loop is never reached): the node itself
    or a node below it, one that has no children other than comments, and
    that is not a comment unless it is the given node. *)
Theorem getDeepestNode_leaf (n : Node) :
  exists m d, getDeepestNode (Some n) = Some m
              /\ occurs d m n
              /\ existsb notComment (children m) = false
              /\ (d = 0 \/ notComment m = true).
Proof. exact (getDeepestNodeOf_spec n). Qed.

(** X8: applying [getDeepestNode] to its own result changes nothing. *)
Theorem getDeepestNode_idempotent (node : option Node) :
  getDeepestNode (getDeepestNode node) = getDeepestNode node.
Proof.
  destruct node as [n|]; [|reflexivity]. cbn [getDeepestNode].
  destruct (getDeepestNodeOf_spec n) as (m & d & Hm & _ & Hleaf & _).
  rewrite Hm. cbn [getDeepestNode]. rewrite getDeepestNodeOf_unfold, Hleaf.
  now rewrite orb_true_r.
Qed.

(** X9: only the last child that is not a comment is followed.  When that
    child has no children other than comments it is the result, however
    deep the trees of the earlier siblings are: the node returned is the
    last non-comment leaf, not the deepest node. *)
Theorem getDeepestNode_last_child (s e : Position) (t x : string) (o : Token)
    (cl : option Token) (a : option (list Attribute)) (pre post : list Node) (c : Node) :
  notComment c = true ->
  existsb notComment post = false ->
  existsb notComment (children c) = false ->
  getDeepestNode (Some (mkNode s e t x o cl a (pre ++ c :: post))) = Some c.
Proof.
  intros Hc Hpost Hleaf. cbn [getDeepestNode].
  rewrite getDeepestNodeOf_unfold. cbn [children].
  assert (Hany : existsb notComment (pre ++ c :: post) = true).
  { rewrite existsb_app. simpl. rewrite Hc. now rewrite orb_true_r. }
  assert (Hlen : (length (pre ++ c :: post) =? 0) = false).
  { apply Nat.eqb_neq. rewrite length_app. simpl. lia. }
  rewrite Hany, Hlen. cbn [orb negb].
  rewrite (lastNonComment_app pre c post Hc Hpost).
  rewrite getDeepestNodeOf_unfold, Hleaf. now rewrite orb_true_r.
Qed.

Lemma getDeepestNode_last_child_witness :
  getDeepestNode
    (Some (mkNode (onLine0 0) (onLine0 40) "" "" (mkToken (onLine0 0) (onLine0 0))
             None None ([deepBranch] ++ shallowLast :: [trailingComment])))
  = Some shallowLast.
Proof.
  apply (getDeepestNode_last_child (onLine0 0) (onLine0 40) "" ""
           (mkToken (onLine0 0) (onLine0 0)) None None
           [deepBranch] [trailingComment] shallowLast); reflexivity.
Defined.

(** ** Word selection inside a property value *)

Section NextWord.

Variable v : string.
Local Notation "'len'" := (Z.of_nat (String.length v)) (only parsing).

(** After the start of the word has been recorded. *)
Lemma findNextWord_loop_end fuel :
  forall pos a,
    (len - 1 - pos <= Z.of_nat fuel)%Z ->
    (exists b, findNextWord_loop fuel v pos true true (Some a)
               = Some (true, true, Some a, Some b)
               /\ (pos < b < len)%Z /\ isSpaceAt v b = true
               /\ noSpaceIn v (pos + 1) b)
    \/ (findNextWord_loop fuel v pos true true (Some a) = Some (true, false, Some a, None)
        /\ noSpaceIn v (pos + 1) len).
Proof.
  induction fuel as [|fuel IH]; intros pos a Hfuel; cbn [findNextWord_loop].
  - destruct (pos <? len - 1)%Z eqn:Hlt; [apply Z.ltb_lt in Hlt; lia|].
    right. split; [reflexivity|]. apply Z.ltb_ge in Hlt. intros i Hi. lia.
  - destruct (pos <? len - 1)%Z eqn:Hlt.
    + apply Z.ltb_lt in Hlt. cbn [negb andb].
      destruct (isSpaceAt v (pos + 1)) eqn:Hsp.
      * left. exists (pos + 1)%Z. split; [reflexivity|].
        split; [lia|]. split; [exact Hsp|]. intros i Hi. lia.
      * destruct (IH (pos + 1)%Z a ltac:(lia)) as [(b & Hrun & Hb & Hsb & Hno) | (Hrun & Hno)].
        -- left. exists b. split; [exact Hrun|]. split; [lia|]. split; [exact Hsb|].
           intros i Hi. destruct (Z.eq_dec i (pos + 1)%Z) as [->|]; [exact Hsp|].
           apply Hno. lia.
        -- right. split; [exact Hrun|].
           intros i Hi. destruct (Z.eq_dec i (pos + 1)%Z) as [->|]; [exact Hsp|].
           apply Hno. lia.
    + right. split; [reflexivity|]. apply Z.ltb_ge in Hlt. intros i Hi. lia.
Qed.

(** After a space has been seen, before the start of a word. *)
Lemma findNextWord_loop_start fuel :
  forall pos,
    (len - 1 - pos <= Z.of_nat fuel)%Z ->
    (findNextWord_loop fuel v pos true false None = Some (false, false, None, None)
     /\ spacesIn v (pos + 1) len)
    \/ exists a, (pos < a < len)%Z /\ spacesIn v (pos + 1) a /\ isSpaceAt v a = false
                 /\ exists fuel', (len - 1 - a <= Z.of_nat fuel')%Z
                      /\ findNextWord_loop fuel v pos true false None
                         = findNextWord_loop fuel' v a true true (Some a).
Proof.
  induction fuel as [|fuel IH]; intros pos Hfuel; cbn [findNextWord_loop].
  - destruct (pos <? len - 1)%Z eqn:Hlt; [apply Z.ltb_lt in Hlt; lia|].
    left. split; [reflexivity|]. apply Z.ltb_ge in Hlt. intros i Hi. lia.
  - destruct (pos <? len - 1)%Z eqn:Hlt.
    + apply Z.ltb_lt in Hlt. cbn [negb andb].
      destruct (isSpaceAt v (pos + 1)) eqn:Hsp.
      * destruct (IH (pos + 1)%Z ltac:(lia)) as [(Hrun & Hall) | (a & Ha & Hall & Hna & fuel' & Hf & Hrun)].
        -- left. split; [exact Hrun|].
           intros i Hi. destruct (Z.eq_dec i (pos + 1)%Z) as [->|]; [exact Hsp|].
           apply Hall. lia.
        -- right. exists a. split; [lia|]. split.
           { intros i Hi. destruct (Z.eq_dec i (pos + 1)%Z) as [->|]; [exact Hsp|].
             apply Hall. lia. }
           split; [exact Hna|]. exists fuel'. split; [exact Hf | exact Hrun].
      * right. exists (pos + 1)%Z. split; [lia|]. split; [intros i Hi; lia|].
        split; [exact Hsp|]. exists fuel. split; [lia | reflexivity].
    + left. split; [reflexivity|]. apply Z.ltb_ge in Hlt. intros i Hi. lia.
Qed.

(** Before any space has been seen. *)
Lemma findNextWord_loop_space fuel :
  forall pos,
    (len - 1 - pos <= Z.of_nat fuel)%Z ->
    (findNextWord_loop fuel v pos false false None = Some (false, false, None, None)
     /\ noSpaceIn v (pos + 1) len)
    \/ exists sp, (pos < sp < len)%Z /\ noSpaceIn v (pos + 1) sp /\ isSpaceAt v sp = true
                  /\ exists fuel', (len - 1 - sp <= Z.of_nat fuel')%Z
                       /\ findNextWord_loop fuel v pos false false None
                          = findNextWord_loop fuel' v sp true false None.
Proof.
  induction fuel as [|fuel IH]; intros pos Hfuel; cbn [findNextWord_loop].
  - destruct (pos <? len - 1)%Z eqn:Hlt; [apply Z.ltb_lt in Hlt; lia|].
    left. split; [reflexivity|]. apply Z.ltb_ge in Hlt. intros i Hi. lia.
  - destruct (pos <? len - 1)%Z eqn:Hlt.
    + apply Z.ltb_lt in Hlt. cbn [negb].
      destruct (isSpaceAt v (pos + 1)) eqn:Hsp.
      * right. exists (pos + 1)%Z. split; [lia|]. split; [intros i Hi; lia|].
        split; [exact Hsp|]. exists fuel. split; [lia | reflexivity].
      * destruct (IH (pos + 1)%Z ltac:(lia)) as [(Hrun & Hall) | (sp & Ha & Hall & Hna & fuel' & Hf & Hrun)].
        -- left. split; [exact Hrun|].
           intros i Hi. destruct (Z.eq_dec i (pos + 1)%Z) as [->|]; [exact Hsp|].
           apply Hall. lia.
        -- right. exists sp. split; [lia|]. split.
           { intros i Hi. destruct (Z.eq_dec i (pos + 1)%Z) as [->|]; [exact Hsp|].
             apply Hall. lia. }
           split; [exact Hna|]. exists fuel'. split; [exact Hf | exact Hrun].
    + left. split; [reflexivity|]. apply Z.ltb_ge in Hlt. intros i Hi. lia.
Qed.

(** The search once a space has been seen, with the final adjustment of
    the end. *)
Lemma findNextWord_loop_word fuel pos :
  (len - 1 - pos <= Z.of_nat fuel)%Z ->
  exists r, findNextWord_loop fuel v pos true false None = Some r
            /\ firstWordFrom v (pos + 1)
                 (let '(foundStart, foundEnd, s, e) := r in
                  if foundStart && negb foundEnd then (s, Some len) else (s, e)).
Proof.
  intros Hfuel.
  destruct (findNextWord_loop_start fuel pos Hfuel)
    as [(Hrun & Hall) | (a & Ha & Hall & Hna & fuel' & Hf & Hrun)].
  - eexists. split; [exact Hrun|]. left. split; [reflexivity | exact Hall].
  - rewrite Hrun.
    destruct (findNextWord_loop_end fuel' a a Hf) as [(b & Hrun' & Hb & Hsb & Hno) | (Hrun' & Hno)].
    + eexists. split; [exact Hrun'|]. right. exists a, b. cbn [andb negb].
      split; [reflexivity|]. split; [lia|]. split; [lia|].
      split; [exact Hall|]. split; [|now right].
      intros i Hi. destruct (Z.eq_dec i a) as [->|]; [exact Hna|]. apply Hno. lia.
    + eexists. split; [exact Hrun'|]. right. exists a, len. cbn [andb negb].
      split; [reflexivity|]. split; [lia|]. split; [lia|].
      split; [exact Hall|]. split; [|now left].
      intros i Hi. destruct (Z.eq_dec i a) as [->|]; [exact Hna|]. apply Hno. lia.
Qed.

End NextWord.

(** X10: started at -1, [findNextWord] selects the first word of the
    string: the indices before the selection hold spaces, the selection
    holds no space, is not empty, and is followed by a space or by the end
    of the string.  When the string holds nothing but spaces, both ends
    are undefined. *)
Theorem findNextWord_from_start (propertyValue : string) :
  firstWordFrom propertyValue 0 (findNextWord propertyValue (-1)).
Proof.
  unfold findNextWord. rewrite Z.eqb_refl.
  destruct (findNextWord_loop_word propertyValue
              (Z.to_nat (Z.of_nat (String.length propertyValue) - 1 - -1)) (-1)
              ltac:(lia)) as (r & Hrun & Hword).
  rewrite Hrun. destruct r as [[[fs fe] s] e]. exact Hword.
Qed.

(** X11: started at another index, [findNextWord] first skips to the
    first space after that index and then selects the first word after
    that space.  When no space follows the index, or only spaces follow
    the first one, both ends are undefined. *)
Theorem findNextWord_after (propertyValue : string) (pos : Z) :
  pos <> (-1)%Z ->
  (findNextWord propertyValue pos = (None, None)
   /\ noSpaceIn propertyValue (pos + 1) (Z.of_nat (String.length propertyValue)))
  \/ exists sp, (pos < sp < Z.of_nat (String.length propertyValue))%Z
                /\ noSpaceIn propertyValue (pos + 1) sp
                /\ isSpaceAt propertyValue sp = true
                /\ firstWordFrom propertyValue (sp + 1) (findNextWord propertyValue pos).
Proof.
  intros Hpos. unfold findNextWord.
  apply Z.eqb_neq in Hpos. rewrite Hpos.
  set (len := Z.of_nat (String.length propertyValue)).
  destruct (findNextWord_loop_space propertyValue (Z.to_nat (len - 1 - pos)) pos
              ltac:(lia))
    as [(Hrun & Hall) | (sp & Hsp & Hall & Hs & fuel' & Hf & Hrun)].
  - left. rewrite Hrun. split; [reflexivity | exact Hall].
  - right. exists sp. split; [exact Hsp|]. split; [exact Hall|]. split; [exact Hs|].
    rewrite Hrun.
    destruct (findNextWord_loop_word propertyValue fuel' sp Hf) as (r & Hrun' & Hword).
    rewrite Hrun'. destruct r as [[[fs fe] s] e]. exact Hword.
Qed.

Lemma findNextWord_after_witness :
  findNextWord "ab cd ef" 0 = (Some 3%Z, Some 5%Z)
  /\ ((findNextWord "ab cd ef" 0 = (None, None)
       /\ noSpaceIn "ab cd ef" (0 + 1) (Z.of_nat (String.length "ab cd ef")))
      \/ exists sp, (0 < sp < Z.of_nat (String.length "ab cd ef"))%Z
                    /\ noSpaceIn "ab cd ef" (0 + 1) sp
                    /\ isSpaceAt "ab cd ef" sp = true
                    /\ firstWordFrom "ab cd ef" (sp + 1) (findNextWord "ab cd ef" 0)).
Proof.
  split; [reflexivity|].
  apply (findNextWord_after "ab cd ef" 0). lia.
Defined.

Section PrevWord.

Variable v : string.
Local Notation "'len'" := (Z.of_nat (String.length v)) (only parsing).

(** After the end of the word has been recorded. *)
Lemma findPrevWord_loop_start fuel :
  forall pos b,
    (pos + 1 <= Z.of_nat fuel)%Z ->
    (exists t, findPrevWord_loop fuel v pos true true (Some b)
               = Some (true, true, Some (t + 1)%Z, Some b)
               /\ (0 <= t < pos)%Z /\ isSpaceAt v t = true
               /\ noSpaceIn v (t + 1) pos)
    \/ (findPrevWord_loop fuel v pos true true (Some b) = Some (false, true, None, Some b)
        /\ noSpaceIn v 0 pos).
Proof.
  induction fuel as [|fuel IH]; intros pos b Hfuel; cbn [findPrevWord_loop].
  - destruct (-1 <? pos)%Z eqn:Hlt; [apply Z.ltb_lt in Hlt; lia|].
    right. split; [reflexivity|]. apply Z.ltb_ge in Hlt. intros i Hi. lia.
  - destruct (-1 <? pos)%Z eqn:Hlt.
    + apply Z.ltb_lt in Hlt. cbn [negb andb].
      destruct (isSpaceAt v (pos - 1)) eqn:Hsp.
      * left. exists (pos - 1)%Z.
        assert (Hnn : (0 <= pos - 1)%Z).
        { unfold isSpaceAt, charAt in Hsp.
          destruct (pos - 1 <? 0)%Z eqn:Hneg; [|apply Z.ltb_ge in Hneg; lia].
          now rewrite bool_decide_eq_true in Hsp. }
        split; [reflexivity|]. split; [lia|]. split; [exact Hsp|]. intros i Hi. lia.
      * destruct (IH (pos - 1)%Z b ltac:(lia)) as [(t & Hrun & Ht & Hst & Hno) | (Hrun & Hno)].
        -- left. exists t. split; [exact Hrun|]. split; [lia|]. split; [exact Hst|].
           intros i Hi. destruct (Z.eq_dec i (pos - 1)%Z) as [->|]; [exact Hsp|].
           apply Hno. lia.
        -- right. split; [exact Hrun|].
           intros i Hi. destruct (Z.eq_dec i (pos - 1)%Z) as [->|]; [exact Hsp|].
           apply Hno. lia.
    + right. split; [reflexivity|]. apply Z.ltb_ge in Hlt. intros i Hi. lia.
Qed.

(** After a space has been seen, before the end of a word: the index
    just before the string counts as a character that is not a space. *)
Lemma findPrevWord_loop_end fuel :
  forall pos,
    (0 <= pos)%Z -> (pos + 1 <= Z.of_nat fuel)%Z ->
    exists q, (-1 <= q < pos)%Z /\ spacesIn v (q + 1) pos /\ isSpaceAt v q = false
              /\ exists fuel', (q + 1 <= Z.of_nat fuel')%Z
                   /\ findPrevWord_loop fuel v pos true false None
                      = findPrevWord_loop fuel' v q true true (Some (q + 1)%Z).
Proof.
  induction fuel as [|fuel IH]; intros pos Hpos Hfuel; [lia|].
  cbn [findPrevWord_loop].
  destruct (-1 <? pos)%Z eqn:Hlt; [|apply Z.ltb_ge in Hlt; lia].
  cbn [negb andb].
  destruct (isSpaceAt v (pos - 1)) eqn:Hsp.
  - assert (Hnn : (0 <= pos - 1)%Z).
    { unfold isSpaceAt, charAt in Hsp.
      destruct (pos - 1 <? 0)%Z eqn:Hneg; [|apply Z.ltb_ge in Hneg; lia].
      now rewrite bool_decide_eq_true in Hsp. }
    destruct (IH (pos - 1)%Z Hnn ltac:(lia)) as (q & Hq & Hall & Hnq & fuel' & Hf & Hrun).
    exists q. split; [lia|]. split.
    { intros i Hi. destruct (Z.eq_dec i (pos - 1)%Z) as [->|]; [exact Hsp|].
      apply Hall. lia. }
    split; [exact Hnq|]. exists fuel'. split; [exact Hf | exact Hrun].
  - exists (pos - 1)%Z. split; [lia|]. split.
    { intros i Hi. lia. }
    split; [exact Hsp|]. exists fuel. split; [lia|].
    replace (pos - 1 + 1)%Z with pos by lia. reflexivity.
Qed.

(** Before any space has been seen. *)
Lemma findPrevWord_loop_space fuel :
  forall pos,
    (pos + 1 <= Z.of_nat fuel)%Z ->
    (findPrevWord_loop fuel v pos false false None = Some (false, false, None, None)
     /\ noSpaceIn v 0 pos)
    \/ exists sp, (0 <= sp < pos)%Z /\ isSpaceAt v sp = true /\ noSpaceIn v (sp + 1) pos
                  /\ exists fuel', (sp + 1 <= Z.of_nat fuel')%Z
                       /\ findPrevWord_loop fuel v pos false false None
                          = findPrevWord_loop fuel' v sp true false None.
Proof.
  induction fuel as [|fuel IH]; intros pos Hfuel; cbn [findPrevWord_loop].
  - destruct (-1 <? pos)%Z eqn:Hlt; [apply Z.ltb_lt in Hlt; lia|].
    left. split; [reflexivity|]. apply Z.ltb_ge in Hlt. intros i Hi. lia.
  - destruct (-1 <? pos)%Z eqn:Hlt.
    + apply Z.ltb_lt in Hlt. cbn [negb].
      destruct (isSpaceAt v (pos - 1)) eqn:Hsp.
      * right. exists (pos - 1)%Z.
        assert (Hnn : (0 <= pos - 1)%Z).
        { unfold isSpaceAt, charAt in Hsp.
          destruct (pos - 1 <? 0)%Z eqn:Hneg; [|apply Z.ltb_ge in Hneg; lia].
          now rewrite bool_decide_eq_true in Hsp. }
        split; [lia|]. split; [exact Hsp|]. split; [intros i Hi; lia|].
        exists fuel. split; [lia | reflexivity].
      * destruct (IH (pos - 1)%Z ltac:(lia))
          as [(Hrun & Hall) | (sp & Ha & Hs & Hall & fuel' & Hf & Hrun)].
        -- left. split; [exact Hrun|].
           intros i Hi. destruct (Z.eq_dec i (pos - 1)%Z) as [->|]; [exact Hsp|].
           apply Hall. lia.
        -- right. exists sp. split; [lia|]. split; [exact Hs|]. split.
           { intros i Hi. destruct (Z.eq_dec i (pos - 1)%Z) as [->|]; [exact Hsp|].
             apply Hall. lia. }
           exists fuel'. split; [exact Hf | exact Hrun].
    + left. split; [reflexivity|]. apply Z.ltb_ge in Hlt. intros i Hi. lia.
Qed.

(** The search once a space has been seen, with the final adjustment of
    the start. *)
Lemma findPrevWord_loop_word fuel pos :
  (0 <= pos)%Z -> (pos + 1 <= Z.of_nat fuel)%Z ->
  exists r, findPrevWord_loop fuel v pos true false None = Some r
            /\ lastWordUpTo v pos
                 (let '(foundStart, foundEnd, s, e) := r in
                  if foundEnd && negb foundStart then (Some 0%Z, e) else (s, e)).
Proof.
  intros Hpos Hfuel.
  destruct (findPrevWord_loop_end fuel pos Hpos Hfuel)
    as (q & Hq & Hall & Hnq & fuel' & Hf & Hrun).
  rewrite Hrun.
  destruct (findPrevWord_loop_start fuel' q (q + 1)%Z Hf)
    as [(t & Hrun' & Ht & Hst & Hno) | (Hrun' & Hno)].
  - eexists. split; [exact Hrun'|]. cbn [andb negb].
    exists (t + 1)%Z, (q + 1)%Z. split; [reflexivity|].
    split; [lia|]. split; [lia|]. split; [left; lia|]. split; [exact Hall|].
    split.
    + intros i Hi. destruct (Z.eq_dec i q) as [->|]; [exact Hnq|]. apply Hno. lia.
    + right. replace (t + 1 - 1)%Z with t by lia. exact Hst.
  - eexists. split; [exact Hrun'|]. cbn [andb negb].
    exists 0%Z, (q + 1)%Z. split; [reflexivity|].
    split; [lia|]. split; [lia|]. split; [lia|]. split; [exact Hall|].
    split; [|now left].
    intros i Hi. destruct (Z.eq_dec i q) as [->|]; [exact Hnq|]. apply Hno. lia.
Qed.

End PrevWord.

(** X12: started at the length of the string, [findPrevWord] selects the
    last word of the string: a range with no space inside, preceded by a
    space or by the start of the string, with nothing but spaces after it.
    The range is always defined; it is the empty range at index 0 when
    the string holds nothing but spaces. *)
Theorem findPrevWord_from_end (propertyValue : string) :
  lastWordUpTo propertyValue (Z.of_nat (String.length propertyValue))
    (findPrevWord propertyValue (Z.of_nat (String.length propertyValue))).
Proof.
  unfold findPrevWord. rewrite Z.eqb_refl.
  destruct (findPrevWord_loop_word propertyValue
              (Z.to_nat (Z.of_nat (String.length propertyValue) + 1))
              (Z.of_nat (String.length propertyValue))
              ltac:(lia) ltac:(lia)) as (r & Hrun & Hword).
  rewrite Hrun. destruct r as [[[fs fe] s] e]. exact Hword.
Qed.

(** X13: started at another index, [findPrevWord] first skips back to the
    last space before that index and then selects the last word before
    that space.  Both ends are undefined exactly when no space precedes
    the index (in particular for a negative index); once a space has been
    found both ends are defined. *)
Theorem findPrevWord_before (propertyValue : string) (pos : Z) :
  pos <> Z.of_nat (String.length propertyValue) ->
  (findPrevWord propertyValue pos = (None, None) /\ noSpaceIn propertyValue 0 pos)
  \/ exists sp, (0 <= sp < pos)%Z
                /\ isSpaceAt propertyValue sp = true
                /\ noSpaceIn propertyValue (sp + 1) pos
                /\ lastWordUpTo propertyValue sp (findPrevWord propertyValue pos).
Proof.
  intros Hpos. unfold findPrevWord.
  apply Z.eqb_neq in Hpos. rewrite Hpos.
  destruct (findPrevWord_loop_space propertyValue (Z.to_nat (pos + 1)) pos ltac:(lia))
    as [(Hrun & Hall) | (sp & Hsp & Hs & Hall & fuel' & Hf & Hrun)].
  - left. rewrite Hrun. split; [reflexivity | exact Hall].
  - right. exists sp. split; [exact Hsp|]. split; [exact Hs|]. split; [exact Hall|].
    rewrite Hrun.
    destruct (findPrevWord_loop_word propertyValue fuel' sp ltac:(lia) Hf)
      as (r & Hrun' & Hword).
    rewrite Hrun'. destruct r as [[[fs fe] s] e]. exact Hword.
Qed.

Lemma findPrevWord_before_witness :
  findPrevWord "ab cd ef" 7 = (Some 3%Z, Some 5%Z)
  /\ ((findPrevWord "ab cd ef" 7 = (None, None) /\ noSpaceIn "ab cd ef" 0 7)
      \/ exists sp, (0 <= sp < 7)%Z
                    /\ isSpaceAt "ab cd ef" sp = true
                    /\ noSpaceIn "ab cd ef" (sp + 1) 7
                    /\ lastWordUpTo "ab cd ef" sp (findPrevWord "ab cd ef" 7)).
Proof.
  split; [reflexivity|].
  apply (findPrevWord_before "ab cd ef" 7). discriminate.
Defined.

(** X14: the two searches differ on a value that holds nothing but spaces
    (the empty value included): from the end, [findPrevWord] returns the
    empty range at index 0, while [findNextWord] from the start returns
    two undefined ends. *)
Theorem findPrevWord_blank (propertyValue : string) :
  spacesIn propertyValue 0 (Z.of_nat (String.length propertyValue)) ->
  findPrevWord propertyValue (Z.of_nat (String.length propertyValue))
  = (Some 0%Z, Some 0%Z)
  /\ findNextWord propertyValue (-1) = (None, None).
Proof.
  intros Hblank. split.
  - unfold findPrevWord. rewrite Z.eqb_refl.
    destruct (findPrevWord_loop_word propertyValue
                (Z.to_nat (Z.of_nat (String.length propertyValue) + 1))
                (Z.of_nat (String.length propertyValue))
                ltac:(lia) ltac:(lia)) as (r & Hrun & Hword).
    rewrite Hrun. destruct r as [[[fs fe] s] e].
    destruct Hword as (a & b & -> & Hab & Hb & Hne & _ & Hno & _).
    destruct Hne as [Hlt | ->].
    + specialize (Hno a ltac:(lia)). specialize (Hblank a ltac:(lia)). congruence.
    + f_equal. f_equal. lia.
  - unfold findNextWord. rewrite Z.eqb_refl.
    destruct (findNextWord_loop_word propertyValue
                (Z.to_nat (Z.of_nat (String.length propertyValue) - 1 - -1)) (-1)
                ltac:(lia)) as (r & Hrun & Hword).
    rewrite Hrun. destruct r as [[[fs fe] s] e].
    destruct Hword as [[-> _] | (a & b & _ & Hab & Hb & _ & Hno & _)]; [reflexivity|].
    specialize (Hno a ltac:(lia)). specialize (Hblank a ltac:(lia)). congruence.
Qed.

Lemma findPrevWord_blank_witness :
  findPrevWord "   " (Z.of_nat (String.length "   ")) = (Some 0%Z, Some 0%Z)
  /\ findNextWord "   " (-1) = (None, None).
Proof.
  apply (findPrevWord_blank "   ").
  intros i Hi. simpl in Hi.
  assert (Hc : i = 0%Z \/ i = 1%Z \/ i = 2%Z) by lia.
  destruct Hc as [-> | [-> | ->]]; reflexivity.
Defined.

(** ** Small string helpers *)

Lemma charAt_0 c r : charAt (String c r) 0 = Some c.
Proof. reflexivity. Qed.

Lemma length_snoc body q :
  String.length (body ++ String q "")%string = S (String.length body).
Proof. induction body as [|c body IH]; simpl; [reflexivity | now rewrite IH]. Qed.

Lemma charAt_last body q :
  charAt (body ++ String q "")%string
    (Z.of_nat (String.length (body ++ String q "")%string) - 1) = Some q.
Proof.
  rewrite length_snoc. unfold charAt.
  destruct (_ <? 0)%Z eqn:Hneg; [apply Z.ltb_lt in Hneg; lia|].
  replace (Z.to_nat (Z.of_nat (S (String.length body)) - 1)) with (String.length body) by lia.
  clear Hneg. induction body as [|c body IH]; [reflexivity | exact IH].
Qed.

Lemma sliceToLast_snoc body q : sliceToLast (body ++ String q "")%string = body.
Proof.
  induction body as [|c body IH]; [reflexivity|].
  change (sliceToLast (String c body ++ String q "")%string)
    with (match (body ++ String q "")%string with
          | EmptyString => EmptyString
          | String _ _ => String c (sliceToLast (body ++ String q "")%string)
          end).
  rewrite IH. destruct body; reflexivity.
Qed.

(** X15: a value wrapped in quotes loses exactly its two outer quotes,
    whether or not they are of the same kind and whatever lies between
    them (further quotes included). *)
Theorem trimQuotes_wrapped (q1 q2 : ascii) (body : string) :
  isQuoteChar q1 = true -> isQuoteChar q2 = true ->
  trimQuotes (String q1 (body ++ String q2 "")) = body.
Proof.
  intros H1 H2. unfold trimQuotes.
  cbn [String.length]. rewrite length_snoc. cbn [Nat.leb].
  rewrite charAt_0. cbn [isQuote]. rewrite H1. cbn [sliceFrom1].
  rewrite charAt_last. cbn [isQuote]. rewrite H2.
  apply sliceToLast_snoc.
Qed.

Lemma trimQuotes_wrapped_witness :
  trimQuotes (String "'"%char ("a b" ++ String doubleQuoteChar "")) = "a b".
Proof.
  apply (trimQuotes_wrapped "'"%char doubleQuoteChar "a b"); reflexivity.
Defined.

Lemma string_snoc_inv s :
  s = EmptyString \/ exists body q, s = (body ++ String q "")%string.
Proof.
  induction s as [|c s IH]; [now left|]. right.
  destruct IH as [-> | (body & q & ->)].
  - exists EmptyString, c. reflexivity.
  - exists (String c body), q. reflexivity.
Qed.

(** X16: [trimQuotes] removes at most one character at each end of the
    string, only a quote, and nothing else: the string is its result with
    at most one quote put back in front and at most one put back behind. *)
Theorem trimQuotes_ends (s : string) :
  exists front back,
    s = (front ++ trimQuotes s ++ back)%string
    /\ (front = EmptyString
        \/ exists q, front = String q "" /\ isQuoteChar q = true)
    /\ (back = EmptyString
        \/ exists q, back = String q "" /\ isQuoteChar q = true).
Proof.
  assert (Hnil : forall x : string, (x ++ "")%string = x).
  { induction x as [|c x IH]; [reflexivity|].
    change (String c x ++ "")%string with (String c (x ++ "")%string). now rewrite IH. }
  assert (Hback : forall s1 : string, exists back,
             s1 = ((if isQuote (charAt s1 (Z.of_nat (String.length s1) - 1))
                    then sliceToLast s1 else s1) ++ back)%string
             /\ (back = EmptyString
                 \/ exists q, back = String q "" /\ isQuoteChar q = true)).
  { intros s1. destruct (string_snoc_inv s1) as [-> | (body & q & ->)].
    - exists EmptyString. split; [reflexivity | now left].
    - rewrite charAt_last. cbn [isQuote]. destruct (isQuoteChar q) eqn:Hq.
      + exists (String q ""). rewrite sliceToLast_snoc. split; [reflexivity|].
        right. now exists q.
      + exists EmptyString. split; [now rewrite Hnil | now left]. }
  unfold trimQuotes.
  destruct s as [|c [|c' r]].
  - exists EmptyString, EmptyString. repeat split; now left.
  - cbn [String.length Nat.leb removeFirstQuote].
    destruct (isQuoteChar c) eqn:Hc.
    + exists (String c ""), EmptyString. split; [reflexivity|].
      split; [right; now exists c | now left].
    + exists EmptyString, EmptyString. split; [reflexivity|]. split; now left.
  - cbn [String.length Nat.leb]. rewrite charAt_0. cbn [isQuote].
    destruct (isQuoteChar c) eqn:Hc.
    + cbn [sliceFrom1]. destruct (Hback (String c' r)) as (back & Heq & Hb).
      exists (String c ""), back. split.
      * cbn [String.append]. f_equal. exact Heq.
      * split; [right; now exists c | exact Hb].
    + destruct (Hback (String c (String c' r))) as (back & Heq & Hb).
      exists EmptyString, back. split; [exact Heq|]. split; [now left | exact Hb].
Qed.

Lemma split_without sep s : occursIn sep s = false -> split sep s = [s].
Proof.
  induction s as [|c r IH]; [reflexivity|].
  cbn [occursIn split]. intros H. apply orb_false_iff in H as [Hc Hr].
  rewrite Hc, (IH Hr). reflexivity.
Qed.

Lemma split_with sep s :
  occursIn sep s = true -> exists p q qs, split sep s = p :: q :: qs.
Proof.
  induction s as [|c r IH]; [discriminate|].
  cbn [occursIn split]. destruct (Ascii.eqb c sep) eqn:Hc.
  - intros _. destruct (occursIn sep r) eqn:Hr.
    + destruct (IH eq_refl) as (p & q & qs & ->). eauto.
    + rewrite (split_without _ _ Hr). eauto.
  - cbn [orb]. intros Hr. destruct (IH Hr) as (p & q & qs & ->). eauto.
Qed.

Lemma pop_split sep s : pop (split sep s) = Some (afterLast sep s).
Proof.
  unfold pop. induction s as [|c r IH]; [reflexivity|].
  cbn [afterLast]. destruct (occursIn sep (String c r)) eqn:Hocc.
  - cbn [occursIn] in Hocc. cbn [split].
    destruct (Ascii.eqb c sep) eqn:Hc.
    + rewrite <- IH. destruct (split sep r) eqn:Hs; [|reflexivity].
      destruct r; simpl in Hs; [discriminate|].
      destruct (Ascii.eqb a sep); [discriminate|]. destruct (split sep r); discriminate.
    + cbn [orb] in Hocc. destruct (split_with _ _ Hocc) as (p & q & qs & Hs).
      rewrite <- IH, Hs. reflexivity.
  - now rewrite (split_without _ _ Hocc).
Qed.

Lemma afterLast_free sep s : occursIn sep (afterLast sep s) = false.
Proof.
  induction s as [|c r IH]; [reflexivity|].
  cbn [afterLast]. destruct (occursIn sep (String c r)) eqn:Hocc; [exact IH | exact Hocc].
Qed.

Lemma afterLast_without sep s : occursIn sep s = false -> afterLast sep s = s.
Proof. destruct s as [|c r]; [reflexivity|]. cbn [afterLast]. now intros ->. Qed.

Lemma append_assoc (a b c : string) : ((a ++ b) ++ c = a ++ (b ++ c))%string.
Proof.
  induction a as [|x a IH]; [reflexivity|].
  change (String x ((a ++ b) ++ c) = String x (a ++ (b ++ c)))%string. now rewrite IH.
Qed.

Lemma afterLast_prefix sep s :
  exists front, s = (front ++ afterLast sep s)%string
                /\ (front = EmptyString \/ exists d, front = (d ++ String sep "")%string).
Proof.
  induction s as [|c r IH].
  - exists EmptyString. split; [reflexivity | now left].
  - cbn [afterLast]. destruct (occursIn sep (String c r)) eqn:Hocc.
    + destruct IH as (front & Heq & Hfront).
      destruct Hfront as [-> | (d & ->)].
      * exists (String c ""). split.
        -- change (r = afterLast sep r) in Heq.
           change (String c r = String c (afterLast sep r)). now f_equal.
        -- right. exists EmptyString. change (String c "" = String sep ""). f_equal.
           change (r = afterLast sep r) in Heq. cbn [occursIn] in Hocc.
           pose proof (afterLast_free sep r) as Hfree. rewrite <- Heq in Hfree.
           rewrite Hfree, orb_false_r in Hocc.
           now apply Ascii.eqb_eq in Hocc.
      * exists (String c (d ++ String sep "")%string). split.
        -- change (String c r = String c ((d ++ String sep "") ++ afterLast sep r)%string).
           now f_equal.
        -- right. exists (String c d). reflexivity.
    + exists EmptyString. split; [reflexivity | now left].
Qed.

Lemma occursIn_append c a b :
  occursIn c (a ++ b)%string = occursIn c a || occursIn c b.
Proof.
  induction a as [|x a IH]; [reflexivity|].
  change (occursIn c (String x (a ++ b)%string) = occursIn c (String x a) || occursIn c b).
  cbn [occursIn]. now rewrite IH, orb_assoc.
Qed.

Lemma afterLast_append sep dir tail :
  occursIn sep tail = false ->
  afterLast sep (dir ++ tail)%string = (afterLast sep dir ++ tail)%string.
Proof.
  intros Htail. induction dir as [|c dir IH].
  - change (afterLast sep tail = (EmptyString ++ tail)%string).
    now apply afterLast_without.
  - change (afterLast sep (String c (dir ++ tail)%string)
            = (afterLast sep (String c dir) ++ tail)%string).
    cbn [afterLast occursIn]. rewrite occursIn_append, Htail, orb_false_r.
    destruct (Ascii.eqb c sep || occursIn sep dir); [exact IH | reflexivity].
Qed.

Lemma afterLast_separator sep dir name :
  occursIn sep name = false ->
  afterLast sep (dir ++ String sep name)%string = name.
Proof.
  intros Hname. induction dir as [|c dir IH].
  - change (afterLast sep (String sep name) = name).
    cbn [afterLast occursIn]. rewrite Ascii.eqb_refl. cbn [orb].
    now apply afterLast_without.
  - change (afterLast sep (String c (dir ++ String sep name)%string) = name).
    cbn [afterLast occursIn]. rewrite occursIn_append. cbn [occursIn].
    rewrite Ascii.eqb_refl, orb_true_r, orb_true_r. exact IH.
Qed.

Lemma getPathBaseName_afterLast path :
  getPathBaseName path = afterLast backslash (afterLast "/"%char path).
Proof.
  unfold getPathBaseName. rewrite pop_split.
  destruct (String.eqb (afterLast "/"%char path) "") eqn:He.
  - apply String.eqb_eq in He. rewrite He. reflexivity.
  - cbn [negb]. now rewrite pop_split.
Qed.

(** X17: the result of [getPathBaseName] is the longest end of the path
    that holds neither a slash nor a backslash: the path is some front
    followed by the result, the result holds no separator, and the front
    is empty or ends with a separator. *)
Theorem getPathBaseName_suffix (path : string) :
  exists front,
    path = (front ++ getPathBaseName path)%string
    /\ separatorFree (getPathBaseName path) = true
    /\ (front = EmptyString
        \/ exists d sep, front = (d ++ String sep "")%string /\ isSeparator sep = true).
Proof.
  rewrite getPathBaseName_afterLast.
  destruct (afterLast_prefix "/"%char path) as (f1 & H1 & Hf1).
  destruct (afterLast_prefix backslash (afterLast "/"%char path)) as (f2 & H2 & Hf2).
  exists (f1 ++ f2)%string. split; [|split].
  - rewrite append_assoc, <- H2. exact H1.
  - unfold separatorFree. rewrite afterLast_free, andb_true_r.
    pose proof (afterLast_free "/"%char path) as Hfree.
    rewrite H2, occursIn_append in Hfree. apply orb_false_iff in Hfree as [_ ->].
    reflexivity.
  - destruct Hf2 as [-> | (d & ->)].
    + destruct Hf1 as [-> | (d & ->)]; [now left|].
      right. exists d, "/"%char. split; [|reflexivity].
      rewrite append_assoc. reflexivity.
    + right. exists (f1 ++ d)%string, backslash. split; [|reflexivity].
      now rewrite append_assoc.
Qed.

(** X18: a name that holds no separator is recovered from any path that
    ends with a separator (a slash or a backslash) followed by that name,
    whatever the directory part holds. *)
Theorem getPathBaseName_join (dir name : string) (sep : ascii) :
  isSeparator sep = true ->
  separatorFree name = true ->
  getPathBaseName (dir ++ String sep name) = name.
Proof.
  unfold isSeparator, separatorFree.
  intros Hsep Hname. apply andb_true_iff in Hname as [Hs Hb].
  apply negb_true_iff in Hs, Hb.
  rewrite getPathBaseName_afterLast.
  destruct (Ascii.eqb sep "/"%char) eqn:Hslash.
  - apply Ascii.eqb_eq in Hslash. subst sep.
    rewrite (afterLast_separator _ _ _ Hs). now apply afterLast_without.
  - cbn [orb] in Hsep. apply Ascii.eqb_eq in Hsep. subst sep.
    rewrite afterLast_append.
    + now apply afterLast_separator.
    + cbn [occursIn]. now rewrite Hs.
Qed.

Lemma getPathBaseName_join_witness :
  getPathBaseName ("C:/Users" ++ String backslash "snippets.json") = "snippets.json".
Proof.
  apply (getPathBaseName_join "C:/Users" "snippets.json" backslash); reflexivity.
Defined.

(** ** Language modes *)

Lemma includes_In l x : includes l x = true <-> In x l.
Proof.
  unfold includes. rewrite existsb_exists. split.
  - intros (y & Hy & He). apply String.eqb_eq in He. now subst.
  - intros H. exists x. split; [exact H | apply String.eqb_refl].
Qed.

Lemma syntax_is_mode mode :
  In mode (markup getSyntaxes ++ stylesheet getSyntaxes) ->
  getEmmetMode mode [] = Some mode.
Proof.
  cbn [markup stylesheet getSyntaxes app In].
  intros H. repeat (destruct H as [<- | H]; [reflexivity|]). destruct H.
Qed.

(** X19: a mode returned by [getEmmetMode] is one of the syntaxes of
    [getSyntaxes] (markup or stylesheet), it is its own mode when nothing
    is excluded, and the language it was computed for is not an excluded
    one. *)
Theorem getEmmetMode_known (language mode : string) (excludedLanguages : list string) :
  getEmmetMode language excludedLanguages = Some mode ->
  In mode (markup getSyntaxes ++ stylesheet getSyntaxes)
  /\ getEmmetMode mode [] = Some mode
  /\ ~ In language excludedLanguages.
Proof.
  intros Hmode.
  assert (Hin : In mode (markup getSyntaxes ++ stylesheet getSyntaxes)
                /\ ~ In language excludedLanguages).
  { unfold getEmmetMode in Hmode.
    destruct (String.eqb language "" || includes excludedLanguages language) eqn:Hex;
      [discriminate|].
    apply orb_false_iff in Hex as [_ Hex].
    split.
    - destruct (reactLanguage language).
      { injection Hmode as <-. cbn. tauto. }
      destruct (String.eqb language "sass-indented").
      { injection Hmode as <-. cbn. tauto. }
      destruct (String.eqb language "jade").
      { injection Hmode as <-. cbn. tauto. }
      cbv zeta in Hmode.
      destruct (includes (markup getSyntaxes) language
                || includes (stylesheet getSyntaxes) language) eqn:Hinc; [|discriminate].
      injection Hmode as <-. apply in_or_app.
      apply orb_true_iff in Hinc as [H|H]; apply includes_In in H; tauto.
    - intros Hin. apply includes_In in Hin. congruence. }
  destruct Hin as [Hin Hex]. split; [exact Hin|]. split; [|exact Hex].
  now apply syntax_is_mode.
Qed.

Lemma getEmmetMode_known_witness :
  In "jsx" (markup getSyntaxes ++ stylesheet getSyntaxes)
  /\ getEmmetMode "jsx" [] = Some "jsx"
  /\ ~ In "typescriptreact" ["php"].
Proof.
  apply (getEmmetMode_known "typescriptreact" "jsx" ["php"]). reflexivity.
Defined.

(** X20: every language that has completion trigger characters in
    [LANGUAGE_MODES] has an Emmet mode, unless the language itself is
    excluded; excluding the mode it maps to does not matter. *)
Theorem getEmmetMode_trigger_languages (language : string) (excludedLanguages : list string) :
  In language (map fst LANGUAGE_MODES) ->
  ~ In language excludedLanguages ->
  exists mode, getEmmetMode language excludedLanguages = Some mode.
Proof.
  intros Hkey Hex.
  assert (Hinc : includes excludedLanguages language = false).
  { destruct (includes excludedLanguages language) eqn:H; [|reflexivity].
    apply includes_In in H. contradiction. }
  unfold getEmmetMode.
  cbn [map fst LANGUAGE_MODES In] in Hkey.
  repeat (destruct Hkey as [<- | Hkey];
          [rewrite Hinc; vm_compute; eauto|]).
  destruct Hkey.
Qed.

Lemma getEmmetMode_trigger_languages_witness :
  exists mode, getEmmetMode "jade" ["pug"] = Some mode.
Proof.
  apply (getEmmetMode_trigger_languages "jade" ["pug"]).
  - simpl. tauto.
  - simpl. intros [H|[]]. discriminate.
Defined.

(** X21: the syntaxes that [isStyleSheet] accepts are stylesheet syntaxes
    of [getSyntaxes], and [sss] is the only stylesheet syntax of
    [getSyntaxes] that [isStyleSheet] does not accept. *)
Theorem isStyleSheet_syntaxes (syntax : string) :
  In syntax (stylesheet getSyntaxes) <-> (isStyleSheet syntax = true \/ syntax = "sss").
Proof.
  cbn [stylesheet getSyntaxes In]. split.
  - intros H. repeat (destruct H as [<- | H]; [(now left) || (now right)|]). destruct H.
  - intros [H | ->]; [|tauto].
    unfold isStyleSheet in H. apply existsb_exists in H as (x & Hx & He).
    apply String.eqb_eq in He. subst x. cbn [In] in Hx. tauto.
Qed.

(** ** Walking the tokens of a stylesheet *)

Lemma CssToken_nested_ind (P : CssToken -> Prop) :
  (forall t s e l, Forall P l -> P (mkCssToken t s e l)) ->
  forall token, P token.
Proof.
  intros H. fix IH 1. intros [t s e l]. apply H.
  induction l as [|c r IHr]; constructor; [apply IH | exact IHr].
Qed.

Lemma visitUntilFalse_app {St} (fn : CssToken -> St -> bool * St) l1 l2 s :
  visitUntilFalse fn (l1 ++ l2) s
  = let (kept, s1) := visitUntilFalse fn l1 s in
    if negb kept then (false, s1) else visitUntilFalse fn l2 s1.
Proof.
  revert s. induction l1 as [|x l1 IH]; intros s; cbn [app visitUntilFalse].
  - reflexivity.
  - destruct (fn x s) as [kept s1]. destruct kept; cbn [negb]; [apply IH | reflexivity].
Qed.

(** X22: [iterateCSSToken] is one pass over the tokens strictly below the
    given token, each parent before its sub-tokens and the items in
    order, that calls the callback on each of them until the callback
    returns [false] for the first time; it returns [true] exactly when
    the callback never did.  The callback is not invoked on the given
    token itself, nor on anything after the token that stopped the
    walk. *)
Theorem iterateCSSToken_preorder {St : Type} (fn : CssToken -> St -> bool * St)
    (token : CssToken) (s : St) :
  iterateCSSToken fn token s = visitUntilFalse fn (descendants token) s.
Proof.
  revert s. induction token as [t st e l IH] using CssToken_nested_ind.
  cbn [iterateCSSToken descendants].
  induction IH as [|x rest Hx _ IHrest]; intros s; [reflexivity|].
  cbn [visitUntilFalse].
  destruct (fn x s) as [kept s1]. destruct kept; cbn [negb]; [|reflexivity].
  rewrite Hx, visitUntilFalse_app.
  destruct (visitUntilFalse fn (descendants x) s1) as [inner s2].
  destruct inner; cbn [negb]; [apply IHrest | reflexivity].
Qed.

(** ** Template script tags of the language service *)

Lemma substring_prefix m x : String.substring 0 (String.length m) (m ++ x)%string = m.
Proof.
  induction m as [|c m IH]; [destruct x; reflexivity|].
  change (String c (String.substring 0 (String.length m) (m ++ x)%string) = String c m).
  now rewrite IH.
Qed.

Lemma jsSubstring_inner a b mime :
  jsSubstring (String a (mime ++ String b ""))
    1 (Z.of_nat (String.length (String a (mime ++ String b ""))) - 1) = mime.
Proof.
  unfold jsSubstring. cbn [String.length]. rewrite length_snoc.
  replace (Z.max 0 (Z.min 1 (Z.of_nat (S (S (String.length mime)))))) with 1%Z by lia.
  replace (Z.max 0 (Z.min (Z.of_nat (S (S (String.length mime))) - 1)
                      (Z.of_nat (S (S (String.length mime))))))
    with (Z.of_nat (S (String.length mime))) by lia.
  replace (Z.min 1 (Z.of_nat (S (String.length mime)))) with 1%Z by lia.
  replace (Z.max 1 (Z.of_nat (S (String.length mime))))
    with (Z.of_nat (S (String.length mime))) by lia.
  replace (Z.to_nat (Z.of_nat (S (String.length mime)) - 1)) with (String.length mime) by lia.
  change (Z.to_nat 1) with 1.
  change (String.substring 0 (String.length mime) (mime ++ String b "")%string = mime).
  apply substring_prefix.
Qed.

(** X23: [isNodeTemplateScriptLS] accepts exactly the [script] tags
    whose [type] attribute is an allowed template type with one
    character in front of it and one behind it.  The two characters are
    dropped without being looked at, so that they need not be quotes, and
    a type that is not wrapped in two characters is never accepted. *)
Theorem isNodeTemplateScriptLS_wrapped (node : LSNode) :
  isNodeTemplateScriptLS node = true
  <-> tag node = Some "script"
      /\ exists attrs a b mime,
           ls_attributes node = Some attrs
           /\ attrs !! "type" = Some (Some (String a (mime ++ String b "")))
           /\ In mime allowedMimeTypesInScriptTag.
Proof.
  unfold isNodeTemplateScriptLS. split.
  - destruct (tag node) as [t|]; [|discriminate].
    destruct (ls_attributes node) as [attrs|]; [|discriminate].
    destruct (String.eqb t "script") eqn:Ht; [|discriminate].
    apply String.eqb_eq in Ht. subst t.
    destruct (attrs !! "type") as [[scriptType|]|] eqn:Hty; try discriminate.
    destruct (String.eqb scriptType "") eqn:He; [discriminate|].
    intros Hex. split; [reflexivity|].
    apply existsb_exists in Hex as (mime & Hin & Hm). apply String.eqb_eq in Hm.
    assert (Hlen : 2 <= String.length mime).
    { cbn [allowedMimeTypesInScriptTag In] in Hin.
      repeat (destruct Hin as [<- | Hin]; [simpl; lia|]). destruct Hin. }
    destruct scriptType as [|a rest]; [discriminate|].
    destruct (string_snoc_inv rest) as [-> | (body & b & ->)].
    + exfalso. rewrite <- Hm in Hlen. vm_compute in Hlen. lia.
    + rewrite jsSubstring_inner in Hm. subst body.
      exists attrs, a, b, mime. repeat split; assumption.
  - intros (Htag & attrs & a & b & mime & Hattrs & Hty & Hin).
    rewrite Htag, Hattrs, Hty. rewrite String.eqb_refl.
    change (String.eqb (String a (mime ++ String b "")) "") with false. cbv iota.
    rewrite jsSubstring_inner. apply existsb_exists. exists mime.
    split; [exact Hin | apply String.eqb_refl].
Qed.

(** ** The state of the module *)

(** X24: once [updateEmmetExtensionsPath] has run, running it again
    without [forceRefresh] while the [extensionsPath] setting is the same
    changes nothing and hands nothing to the helper, whatever the
    workspace folders are by then.  In particular a path that was first
    seen while no folder was open is not handed to the helper when a
    folder is opened later. *)
Theorem updateEmmetExtensionsPath_settled (forceRefresh : bool) (w w' : Workspace)
    (st : ModuleState) :
  extensionsPath w' = extensionsPath w ->
  updateEmmetExtensionsPath false w' (updateEmmetExtensionsPath forceRefresh w st)
  = updateEmmetExtensionsPath forceRefresh w st.
Proof.
  intros Hpath.
  assert (Hafter : _emmetHelper (updateEmmetExtensionsPath forceRefresh w st) = false
                   \/ (_emmetHelper (updateEmmetExtensionsPath forceRefresh w st) = true
                       /\ _currentExtensionsPath (updateEmmetExtensionsPath forceRefresh w st)
                          = extensionsPath w)).
  { unfold updateEmmetExtensionsPath.
    destruct (_emmetHelper st) eqn:Hloaded; cbn [negb]; [|now left]. right.
    destruct (forceRefresh || negb (bool_decide (_currentExtensionsPath st = extensionsPath w)))
      eqn:Hnew.
    - destruct (workspaceFolders w) as [[|rootPath rest]|]; split; reflexivity.
    - apply orb_false_iff in Hnew as [_ Hnew]. apply negb_false_iff in Hnew.
      apply bool_decide_eq_true in Hnew. split; assumption. }
  generalize dependent (updateEmmetExtensionsPath forceRefresh w st). intros st1 Hafter.
  unfold updateEmmetExtensionsPath.
  destruct Hafter as [-> | [-> Hcur]]; cbn [negb orb]; [reflexivity|].
  rewrite Hcur, Hpath. now rewrite bool_decide_eq_true_2.
Qed.

Lemma updateEmmetExtensionsPath_settled_witness :
  updateEmmetExtensionsPath false (mkWorkspace (SettingText "snippets") (Some ["/work"]))
    (updateEmmetExtensionsPath false (mkWorkspace (SettingText "snippets") None)
       (getEmmetHelper (mkWorkspace SettingNull None) initialModuleState))
  = updateEmmetExtensionsPath false (mkWorkspace (SettingText "snippets") None)
      (getEmmetHelper (mkWorkspace SettingNull None) initialModuleState)
  /\ updateExtensionsPathCalls
       (updateEmmetExtensionsPath false (mkWorkspace (SettingText "snippets") (Some ["/work"]))
          (updateEmmetExtensionsPath false (mkWorkspace (SettingText "snippets") None)
             (getEmmetHelper (mkWorkspace SettingNull None) initialModuleState))) = [].
Proof.
  split; [|reflexivity].
  apply (updateEmmetExtensionsPath_settled false
           (mkWorkspace (SettingText "snippets") None)
           (mkWorkspace (SettingText "snippets") (Some ["/work"]))).
  reflexivity.
Defined.

Lemma runCall_keeps_service c st service :
  _languageService st = Some service ->
  _languageService (runCall c st) = Some service.
Proof.
  intros Hs. destruct c as [h | w | options | force w]; cbn [runCall].
  - exact Hs.
  - unfold getEmmetHelper, updateEmmetExtensionsPath.
    destruct (_emmetHelper st); cbn [negb _emmetHelper _currentExtensionsPath];
      repeat match goal with
             | |- context [if ?b then _ else _] => destruct b
             | |- context [match workspaceFolders ?w with _ => _ end] =>
                 destruct (workspaceFolders w) as [[|? ?]|]
             end; exact Hs.
  - unfold getLanguageService. destruct options; cbn [negb].
    + exact Hs.
    + now rewrite Hs.
  - unfold updateEmmetExtensionsPath.
    repeat match goal with
           | |- context [if ?b then _ else _] => destruct b
           | |- context [match workspaceFolders ?w with _ => _ end] =>
               destruct (workspaceFolders w) as [[|? ?]|]
           end; exact Hs.
Qed.

(** X25: the language service without options is created once: the
    service returned by a call of [getLanguageService] without options is
    the one returned by every later call without options, whatever calls
    of the module (calls of [getLanguageService] with options included)
    happen in between. *)
Theorem getLanguageService_shared (st : ModuleState) (calls : list ModuleCall) :
  fst (getLanguageService false (runCalls calls (snd (getLanguageService false st))))
  = fst (getLanguageService false st).
Proof.
  assert (Hset : _languageService (snd (getLanguageService false st))
                 = Some (fst (getLanguageService false st))).
  { unfold getLanguageService. cbn [negb].
    destruct (_languageService st) eqn:Hs; [exact Hs | reflexivity]. }
  revert Hset. generalize (fst (getLanguageService false st)) as service.
  generalize (snd (getLanguageService false st)) as st1.
  unfold runCalls. induction calls as [|c calls IH]; intros st1 service Hset.
  - cbn [fold_left]. unfold getLanguageService. cbn [negb]. now rewrite Hset.
  - cbn [fold_left]. apply IH. now apply runCall_keeps_service.
Qed.

(** ** The range handed to the stylesheet parser *)

Lemma offsetOf_le_measure d sc :
  validPos d (pos (stream sc)) ->
  offsetOf d (pos (stream sc)) <= backwardMeasure d sc.
Proof.
  intros [_ Hc]. unfold backwardMeasure, offsetOf.
  destruct (lineCommentPending d sc); lia.
Qed.

Lemma consumeLineCommentBackwards_endPosition d sc :
  endPosition (consumeLineCommentBackwards d sc) = endPosition sc
  /\ foundSelector (consumeLineCommentBackwards d sc) = foundSelector sc.
Proof.
  unfold consumeLineCommentBackwards.
  destruct (negb (isCSS d) && negb (currentLine sc =? line (pos (stream sc))));
    [|split; reflexivity].
  cbn zeta. destruct (indexOf _ _); split; reflexivity.
Qed.

Lemma consumeBlockCommentBackwards_endPosition d sc sc' :
  consumeBlockCommentBackwards d sc = Returned sc' ->
  endPosition sc' = endPosition sc /\ foundSelector sc' = foundSelector sc.
Proof.
  unfold consumeBlockCommentBackwards.
  destruct (codeIs (peek (stream sc)) slash); [|intros [= <-]; split; reflexivity].
  destruct (backUp 1 (stream sc)) as [[ch s1]|e]; [|discriminate].
  cbn [bind fst snd]. destruct (codeIs ch star); intros [= <-]; split; reflexivity.
Qed.

Lemma backwardStep_endPosition d position sc sc' :
  backwardStep d position sc = Returned sc' -> endPosition sc' = endPosition sc.
Proof.
  unfold backwardStep.
  pose proof (proj1 (consumeLineCommentBackwards_endPosition d sc)) as H1.
  set (sc1 := consumeLineCommentBackwards d sc) in *.
  destruct (backUp 1 (stream sc1)) as [[ch s2]|e]; [|discriminate].
  cbn [bind fst snd].
  set (r3 := if codeIs ch openBrace then _ else _).
  assert (H3 : forall sc3, r3 = Returned sc3 -> endPosition sc3 = endPosition sc).
  { subst r3. intros sc3. destruct (codeIs ch openBrace); [intros [= <-]; exact H1|].
    destruct (codeIs ch closeBrace); [destruct (isCSS d); intros [= <-]; exact H1|].
    destruct (codeIs ch slash); [|intros [= <-]; exact H1].
    intros Hblock.
    now rewrite (proj1 (consumeBlockCommentBackwards_endPosition d _ _ Hblock)). }
  clearbody r3. destruct r3 as [sc3|e]; [|discriminate]. cbn [bind].
  specialize (H3 sc3 eq_refl).
  destruct (pastLimit d position _); intros [= <-]; exact H3.
Qed.

(** One iteration of the backward loop leaves the start boundary where
    it was, or (in CSS, at a closing brace) puts it at a position that
    the stream had reached. *)
Lemma backwardStep_start d position sc sc' :
  scanning d sc -> backwardCond sc = true ->
  backwardStep d position sc = Returned sc' ->
  startPosition sc' = startPosition sc
  \/ (validPos d (startPosition sc')
      /\ offsetOf d (startPosition sc') <= backwardMeasure d sc).
Proof.
  intros Hsc Hcond.
  unfold backwardCond in Hcond. apply andb_true_iff in Hcond as [Hcond Hsof].
  apply andb_true_iff in Hcond as [Hexit _].
  apply negb_true_iff in Hexit, Hsof.
  destruct (consumeLineCommentBackwards_spec d sc Hsc)
    as (Hsc1 & Hm1 & Hp1 & Hline1 & Hpos1 & Hsame1).
  destruct (consumeLineCommentBackwards_fields d sc) as (He1 & _ & Hst1).
  unfold backwardStep.
  set (sc1 := consumeLineCommentBackwards d sc) in *.
  destruct Hsc1 as (Hw1 & Hv1 & Hstart1).
  destruct (Nat.eq_dec (offsetOf d (pos (stream sc1))) 0) as [Hoff1|Hoff1].
  { apply (offsetOf_zero d _ Hv1) in Hoff1. rewrite (backUp_start _ Hoff1).
    discriminate. }
  destruct (backUp_spec d _ Hw1 Hv1 ltac:(lia)) as (ch & s2 & -> & Hw2 & Hv2 & Ho2 & Hch).
  cbn [bind fst snd].
  set (sc2 := setStream s2 sc1).
  set (r3 := if codeIs ch openBrace then _ else _).
  assert (H3 : forall sc3, r3 = Returned sc3 ->
               startPosition sc3 = startPosition sc
               \/ (validPos d (startPosition sc3)
                   /\ offsetOf d (startPosition sc3) <= backwardMeasure d sc)).
  { subst r3. intros sc3.
    destruct (codeIs ch openBrace); [intros [= <-]; left; exact Hst1|].
    destruct (codeIs ch closeBrace).
    { destruct (isCSS d) eqn:Hcss; [|intros [= <-]; left; exact Hst1].
      intros [= <-]. right.
      assert (He2 : eof s2 = false).
      { destruct (eof s2) eqn:He2; [|reflexivity].
        apply (eof_iff_end d s2 Hw2 Hv2) in He2.
        pose proof (offsetOf_le_total d _ Hv1). unfold totalLength in *.
        rewrite He2 in Ho2. lia. }
      destruct (next_spec d s2 Hw2 Hv2 He2) as (Hw3 & Hv3 & Ho3 & _).
      cbn [setExit setStartPosition startPosition sc2 setStream stream].
      split; [exact Hv3 | lia]. }
    destruct (codeIs ch slash); [|intros [= <-]; left; exact Hst1].
    intros Hblock. left.
    destruct (consumeBlockCommentBackwards_fields d sc2 _ Hblock) as (_ & _ & Hs & _).
    rewrite Hs. exact Hst1. }
  clearbody r3. destruct r3 as [sc3|e]; [|discriminate]. cbn [bind].
  specialize (H3 sc3 eq_refl).
  destruct (pastLimit d position (pos (stream sc3))); intros [= <-]; exact H3.
Qed.

(** On a document that does not begin with a slash, the backward loop is
    left with the start boundary at or before the cursor. *)
Lemma backwardLoop_behind d position fuel :
  codeAt d (mkPosition 0 0) <> Some slash ->
  forall sc,
    behindCursor d position sc -> backwardMeasure d sc < fuel ->
    exists sc', backwardLoop d position fuel sc = Some (Returned sc')
                /\ behindCursor d position sc'
                /\ endPosition sc' = endPosition sc.
Proof.
  intros H0. induction fuel as [|fuel IH]; intros sc Hb Hm; [lia|].
  destruct (backwardCond sc) eqn:Hcond.
  2:{ exists sc. split; [now apply backwardLoop_done | auto]. }
  cbn [backwardLoop]. rewrite Hcond.
  destruct Hb as (Hsc & Hvs & Hos & Hmeasure).
  assert (Hexit : exit sc = false).
  { unfold backwardCond in Hcond. destruct (exit sc); [discriminate | reflexivity]. }
  specialize (Hmeasure Hexit).
  pose proof (backwardStep_progress d position sc Hsc Hcond) as Hstep.
  pose proof (backwardStep_start d position sc) as Hstart.
  pose proof (backwardStep_endPosition d position sc) as Hend1.
  destruct (backwardStep d position sc) as [sc1|e]; [|tauto].
  destruct Hstep as [Hsc' Hprog].
  specialize (Hstart sc1 Hsc Hcond eq_refl). specialize (Hend1 sc1 eq_refl).
  assert (Hb' : behindCursor d position sc1).
  { split; [exact Hsc'|].
    destruct Hstart as [Hs | [Hv Ho]].
    - rewrite Hs. split; [exact Hvs|]. split; [exact Hos|].
      intros He. destruct Hprog as [Hp | Hp]; [congruence | lia].
    - split; [exact Hv|]. split; [lia|].
      intros He. destruct Hprog as [Hp | Hp]; [congruence | lia]. }
  destruct Hprog as [He | Hlt].
  - exists sc1.
    assert (Hc : backwardCond sc1 = false) by (unfold backwardCond; now rewrite He).
    split; [now apply backwardLoop_done|]. split; [exact Hb' | exact Hend1].
  - destruct (IH sc1 Hb' ltac:(lia)) as (sc' & Hrun & Hb'' & Hend).
    exists sc'. split; [exact Hrun|]. split; [exact Hb''|].
    now rewrite Hend.
Qed.

(** The variant drops when the stream moves back while the line comment
    of its line has been dealt with. *)
Lemma backwardMeasure_drop d sc1 sc3 :
  lineCommentPending d sc1 = false ->
  validPos d (pos (stream sc1)) -> validPos d (pos (stream sc3)) ->
  offsetOf d (pos (stream sc3)) < offsetOf d (pos (stream sc1)) ->
  currentLine sc3 = currentLine sc1 ->
  backwardMeasure d sc3 < offsetOf d (pos (stream sc1)).
Proof.
  intros Hp1 Hv1 Hv3 Ho3 Hcl3.
  unfold backwardMeasure at 1.
  destruct (lineCommentPending d sc3) eqn:Hp3; [|lia].
  unfold lineCommentPending in Hp3, Hp1. rewrite Hcl3 in Hp3.
  apply andb_true_iff in Hp3 as [Hncss Hne3]. rewrite Hncss in Hp1. cbn [andb] in Hp1.
  apply negb_false_iff, Nat.eqb_eq in Hp1. apply negb_true_iff, Nat.eqb_neq in Hne3.
  assert (Hlt : line (pos (stream sc3)) < line (pos (stream sc1))).
  { assert (Hb : isBefore (pos (stream sc3)) (pos (stream sc1)) = true)
      by (apply (isBefore_offsetOf d); assumption).
    apply isBefore_lt in Hb. lia. }
  pose proof (lineStart_next (docLines d) _ _ Hlt
                ltac:(destruct Hv3 as [Hl3 _]; exact Hl3)) as Hnext.
  unfold offsetOf. unfold lineAt. lia.
Qed.

(** One iteration of the loop that includes the selector brings the
    variant down; it leaves the start boundary at the start of the
    document until the selector has been found, and then puts it where
    the stream is. *)
Lemma selectorStep_progress d sc :
  scanning d sc -> codeAt d (mkPosition 0 0) <> Some slash ->
  selectorCond sc = true ->
  exists sc',
    selectorStep d sc = Returned sc'
    /\ wholeDocument d (stream sc')
    /\ validPos d (pos (stream sc'))
  /\ exit sc' = false
  /\ endPosition sc' = endPosition sc
  /\ backwardMeasure d sc' < backwardMeasure d sc
  /\ (foundSelector sc' = false -> startPosition sc' = mkPosition 0 0)
  /\ validPos d (startPosition sc')
  /\ offsetOf d (startPosition sc') <= backwardMeasure d sc.
Proof.
  intros Hsc H0 Hcond.
  unfold selectorCond in Hcond.
  apply andb_true_iff in Hcond as [Hcond _].
  apply andb_true_iff in Hcond as [Hcond Hfound].
  apply andb_true_iff in Hcond as [Hexit Hsof].
  apply negb_true_iff in Hexit, Hsof, Hfound.
  destruct (consumeLineCommentBackwards_spec d sc Hsc)
    as (Hsc1 & Hm1 & Hp1 & Hline1 & Hpos1 & Hsame1).
  destruct (consumeLineCommentBackwards_fields d sc) as (He1 & _ & Hst1).
  destruct (consumeLineCommentBackwards_endPosition d sc) as (Hend1 & Hfs1).
  unfold selectorStep.
  set (sc1 := consumeLineCommentBackwards d sc) in *.
  destruct Hsc1 as (Hw1 & Hv1 & Hstart1).
  assert (Hs1 : startPosition sc1 = mkPosition 0 0).
  { destruct Hstart1 as [Hs | [_ Hs]]; [exact Hs | congruence]. }
  assert (Hoff1 : 0 < offsetOf d (pos (stream sc1))).
  { destruct Hpos1 as [Heq | Hcode].
    - rewrite Heq. destruct Hsc as (Hw & Hv & _). now apply (sof_false_offset d).
    - destruct (offsetOf d (pos (stream sc1))) eqn:Ho; [|lia].
      apply (offsetOf_zero d _ Hv1) in Ho. congruence. }
  destruct (backUp_spec d _ Hw1 Hv1 Hoff1) as (ch & s2 & -> & Hw2 & Hv2 & Ho2 & Hch).
  cbn [bind fst snd].
  set (sc2 := setStream s2 sc1).
  assert (Hsc2 : scanning d sc2) by (split; [exact Hw2|]; split; [exact Hv2 | now left]).
  assert (Hgeneral : forall sc3,
            wholeDocument d (stream sc3) -> validPos d (pos (stream sc3)) ->
            offsetOf d (pos (stream sc3)) < offsetOf d (pos (stream sc1)) ->
            currentLine sc3 = currentLine sc1 ->
            exit sc3 = false -> endPosition sc3 = endPosition sc ->
            startPosition sc3 = mkPosition 0 0 ->
            forall sc4,
              sc4 = sc3
              \/ (foundSelector sc3 = true
                  /\ sc4 = setStartPosition (pos (stream sc3)) sc3) ->
              wholeDocument d (stream sc4)
              /\ validPos d (pos (stream sc4))
              /\ exit sc4 = false
              /\ endPosition sc4 = endPosition sc
              /\ backwardMeasure d sc4 < backwardMeasure d sc
              /\ (foundSelector sc4 = false -> startPosition sc4 = mkPosition 0 0)
              /\ validPos d (startPosition sc4)
              /\ offsetOf d (startPosition sc4) <= backwardMeasure d sc).
  { intros sc3 Hw3 Hv3 Ho3 Hcl3 Hex3 Hend3 Hst3 sc4 Hsc4.
    pose proof (backwardMeasure_drop d sc1 sc3 Hp1 Hv1 Hv3 Ho3 Hcl3) as Hdrop.
    destruct Hsc4 as [-> | [Hf3 ->]].
    - repeat (split; [first [assumption | lia]|]).
      split; [intros _; exact Hst3|]. rewrite Hst3.
      split; [apply validPos_origin | rewrite offsetOf_origin; lia].
    - cbn [setStartPosition stream exit endPosition startPosition foundSelector].
      split; [exact Hw3|]. split; [exact Hv3|]. split; [exact Hex3|].
      split; [exact Hend3|]. split.
      { assert (Heqm : backwardMeasure d (setStartPosition (pos (stream sc3)) sc3)
                       = backwardMeasure d sc3) by reflexivity.
        rewrite Heqm. lia. }
      split; [intros Hf; congruence|]. split; [exact Hv3 | lia]. }
  assert (Hex2 : exit sc2 = false) by (unfold sc2; cbn [setStream exit]; congruence).
  assert (Hend2 : endPosition sc2 = endPosition sc) by exact Hend1.
  assert (Hfs2 : foundSelector sc2 = false) by (unfold sc2; cbn [setStream foundSelector]; congruence).
  assert (Ho2' : offsetOf d (pos (stream sc2)) < offsetOf d (pos (stream sc1)))
    by (unfold sc2; cbn [setStream stream]; lia).
  destruct (isWhitespace ch).
  { exists sc2. split; [reflexivity|].
    apply (Hgeneral sc2 Hw2 Hv2 Ho2' eq_refl Hex2 Hend2 Hs1 sc2). now left. }
  set (r3 := if codeIs ch slash then _ else _).
  assert (H3 : exists sc3,
               r3 = Returned sc3
               /\ wholeDocument d (stream sc3) /\ validPos d (pos (stream sc3))
               /\ offsetOf d (pos (stream sc3)) < offsetOf d (pos (stream sc1))
               /\ currentLine sc3 = currentLine sc1
               /\ exit sc3 = false /\ endPosition sc3 = endPosition sc
               /\ startPosition sc3 = mkPosition 0 0).
  { assert (Hplain : forall x,
              stream x = s2 -> currentLine x = currentLine sc1 ->
              exit x = exit sc2 -> endPosition x = endPosition sc2 ->
              startPosition x = startPosition sc2 ->
              wholeDocument d (stream x) /\ validPos d (pos (stream x))
              /\ offsetOf d (pos (stream x)) < offsetOf d (pos (stream sc1))
              /\ currentLine x = currentLine sc1
              /\ exit x = false /\ endPosition x = endPosition sc
              /\ startPosition x = mkPosition 0 0).
    { intros x Hs Hcl Hex Hend Hst. rewrite Hs, Hex, Hend, Hst.
      split; [exact Hw2|]. split; [exact Hv2|]. split; [lia|]. split; [exact Hcl|].
      split; [exact Hex2|]. split; [exact Hend2 | exact Hs1]. }
    subst r3. destruct (codeIs ch slash).
    { pose proof (consumeBlockCommentBackwards_spec d sc2 Hsc2 Hs1) as Hblock.
      pose proof (consumeBlockCommentBackwards_fields d sc2) as Hfields.
      pose proof (consumeBlockCommentBackwards_endPosition d sc2) as Hends.
      destruct (consumeBlockCommentBackwards d sc2) as [sc3|e]; [|tauto].
      destruct Hblock as [(Hw3 & Hv3 & _) Ho3].
      destruct (Hfields sc3 eq_refl) as (Hex & _ & Hst & Hcl).
      destruct (Hends sc3 eq_refl) as (Hend & _).
      exists sc3. split; [reflexivity|].
      split; [exact Hw3|]. split; [exact Hv3|].
      split; [change (pos (stream sc2)) with (pos s2) in Ho3; lia|].
      split; [exact Hcl|].
      split; [rewrite Hex; exact Hex2|]. split; [rewrite Hend; exact Hend2|].
      rewrite Hst. exact Hs1. }
    destruct (codeIs ch closeBrace);
      [eexists; split; [reflexivity|]; apply Hplain; reflexivity|].
    destruct (codeIs ch openBrace);
      [eexists; split; [reflexivity|]; apply Hplain; reflexivity|].
    destruct (openBracesToFind sc2 =? 0)%Z;
      eexists; (split; [reflexivity|]); apply Hplain; reflexivity. }
  clearbody r3. destruct H3 as (sc3 & -> & Hw3 & Hv3 & Ho3 & Hcl3 & Hex3 & Hend3 & Hst3).
  cbn [bind]. eexists. split; [reflexivity|].
  destruct (negb (sof (stream sc3)) && foundSelector sc3) eqn:Htest.
  - apply andb_true_iff in Htest as [_ Hf3].
    apply (Hgeneral sc3 Hw3 Hv3 Ho3 Hcl3 Hex3 Hend3 Hst3).
    right. split; [exact Hf3 | reflexivity].
  - apply (Hgeneral sc3 Hw3 Hv3 Ho3 Hcl3 Hex3 Hend3 Hst3). now left.
Qed.

Lemma selectorLoop_done d fuel sc :
  selectorCond sc = false -> selectorLoop d fuel sc = Some (Returned sc).
Proof. intros H. destruct fuel; cbn [selectorLoop]; now rewrite H. Qed.

(** The loop that includes the selector comes to an end with the start
    boundary at or before the cursor. *)
Lemma selectorLoop_behind d position fuel :
  codeAt d (mkPosition 0 0) <> Some slash ->
  forall sc,
    (selectorCond sc = true ->
     scanning d sc /\ backwardMeasure d sc <= offsetOf d position) ->
    validPos d (startPosition sc) ->
    offsetOf d (startPosition sc) <= offsetOf d position ->
    backwardMeasure d sc < fuel ->
    exists sc', selectorLoop d fuel sc = Some (Returned sc')
                /\ validPos d (startPosition sc')
                /\ offsetOf d (startPosition sc') <= offsetOf d position
                /\ endPosition sc' = endPosition sc.
Proof.
  intros H0. induction fuel as [|fuel IH]; intros sc Hrun Hvs Hos Hm; [lia|].
  destruct (selectorCond sc) eqn:Hcond.
  2:{ exists sc. split; [now apply selectorLoop_done | auto]. }
  cbn [selectorLoop]. rewrite Hcond.
  destruct (Hrun eq_refl) as [Hsc Hmeasure].
  destruct (selectorStep_progress d sc Hsc H0 Hcond)
    as (sc1 & -> & Hw' & Hv' & Hex' & Hend' & Hlt & Hst' & Hvs' & Hos').
  destruct (IH sc1) as (sc' & Hloop & Hvs'' & Hos'' & Hend'').
  - intros Hcond'. split; [|lia].
    split; [exact Hw'|]. split; [exact Hv'|]. left. apply Hst'.
    unfold selectorCond in Hcond'.
    destruct (foundSelector sc1); [|reflexivity].
    now rewrite andb_false_r in Hcond'.
  - exact Hvs'.
  - lia.
  - lia.
  - exists sc'. split; [exact Hloop|]. split; [exact Hvs''|]. split; [exact Hos''|].
    now rewrite Hend''.
Qed.

(** X26: on a document that does not begin with a slash, for a cursor
    that lies in the document, the three scans of [parsePartialStylesheet]
    come to an end and the range handed to the stylesheet parser contains
    the cursor: its start lies in the document at or before the cursor,
    its end lies in the document at or after the cursor, and the parser
    reads from the start of that range; a failure of the parser yields no
    tree. *)
Theorem parsePartialStylesheet_range (d : TextDocument) (position : Position)
    (parseStylesheet : Parser) (fuel : nat) :
  validPos d position ->
  codeAt d (mkPosition 0 0) <> Some slash ->
  scanFuel d <= fuel ->
  exists startPosition endPosition,
    validPos d startPosition /\ validPos d endPosition
    /\ offsetOf d startPosition <= offsetOf d position
    /\ offsetOf d position <= offsetOf d endPosition
    /\ parsePartialStylesheet d position parseStylesheet fuel
       = Some (match parseStylesheet
                       (newStream d (Some startPosition)
                          (Some (startPosition, endPosition))) with
               | Returned tree => Returned (Some tree)
               | Thrown _ => Returned None
               end).
Proof.
  intros Hv H0 Hfuel.
  pose proof (offsetOf_le_total d _ Hv) as Htotal. unfold scanFuel in Hfuel.
  unfold parsePartialStylesheet, selectorScan, backwardScan.
  rewrite forwardScan_unfold.
  destruct (forwardLoop_result d fuel (newStream d (Some position) None)
              (wholeDocument_newStream d position)) as (s' & Hrun & Hw' & Hres).
  { right. split; [exact Hv|].
    change (pos (newStream d (Some position) None)) with position. lia. }
  rewrite Hrun.
  assert (Hentry : setStream (seek s' position)
                     (backwardEntry d position (endBoundary d s'))
                   = backwardEntry d position (endBoundary d s')).
  { destruct Hw' as (Hd & Hs & He). unfold setStream, seek, backwardEntry, newStream.
    cbn. now rewrite Hd, Hs, He. }
  rewrite Hentry.
  assert (Hend : validPos d (endBoundary d s')
                 /\ offsetOf d position <= offsetOf d (endBoundary d s')).
  { destruct Hres as [-> | (b & Hvb & Hob & Hcb & ->)].
    - split; [apply validPos_endOfDocument | exact Htotal].
    - pose proof (codeAt_in_line d b closeBrace Hcb ltac:(discriminate)) as Hin.
      specialize (Hob Hv).
      change (pos (newStream d (Some position) None)) with position in Hob.
      split.
      + destruct Hvb as [Hl _]. split; cbn [line character]; lia.
      + unfold offsetOf in *. cbn [line character]. lia. }
  destruct Hend as [Hve Hoe].
  destruct (backwardLoop_behind d position fuel H0
              (backwardEntry d position (endBoundary d s')))
    as (scB & HloopB & (HscB & HvsB & HosB & HmB) & HendB).
  { split; [now apply scanning_backwardEntry|].
    split; [apply validPos_origin|].
    split; [cbn [backwardEntry startPosition]; rewrite offsetOf_origin; lia|].
    intros _. rewrite backwardMeasure_backwardEntry. lia. }
  { rewrite backwardMeasure_backwardEntry. lia. }
  rewrite HloopB.
  destruct HscB as (HwB & HvB & HstB).
  assert (Hm0 : backwardMeasure d (selectorEntry scB) = offsetOf d (pos (stream scB))).
  { unfold backwardMeasure, lineCommentPending, selectorEntry.
    cbn [setFoundSelector setOpenBracesToFind setCurrentLine currentLine stream].
    now rewrite Nat.eqb_refl, andb_false_r. }
  pose proof (offsetOf_le_total d _ HvB) as HtotalB.
  destruct (selectorLoop_behind d position fuel H0 (selectorEntry scB))
    as (scS & HloopS & HvsS & HosS & HendS).
  { intros Hcond.
    assert (Hexit : exit scB = false).
    { unfold selectorCond, selectorEntry in Hcond.
      cbn [setFoundSelector setOpenBracesToFind setCurrentLine exit] in Hcond.
      destruct (exit scB); [discriminate | reflexivity]. }
    split.
    - split; [exact HwB|]. split; [exact HvB|]. left.
      destruct HstB as [Hs | [_ He]]; [exact Hs | congruence].
    - rewrite Hm0. pose proof (offsetOf_le_measure d scB HvB). specialize (HmB Hexit). lia. }
  { exact HvsB. }
  { exact HosB. }
  { rewrite Hm0. lia. }
  rewrite HloopS.
  exists (startPosition scS), (endPosition scS).
  assert (HendS' : endPosition scS = endBoundary d s').
  { rewrite HendS. unfold selectorEntry.
    cbn [setFoundSelector setOpenBracesToFind setCurrentLine endPosition].
    rewrite HendB. reflexivity. }
  rewrite HendS'.
  split; [exact HvsS|]. split; [exact Hve|]. split; [exact HosS|]. split; [exact Hoe|].
  assert (Hrange : mkRange (startPosition scS) (endBoundary d s')
                   = (startPosition scS, endBoundary d s')).
  { unfold mkRange.
    destruct (isBefore (endBoundary d s') (startPosition scS)) eqn:Hb; [|reflexivity].
    apply (isBefore_offsetOf d) in Hb; [lia | exact Hve | exact HvsS]. }
  rewrite Hrange. f_equal.
  destruct (parseStylesheet _); reflexivity.
Qed.

Lemma parsePartialStylesheet_range_witness :
  exists startPosition endPosition,
    validPos cssRulesDocument startPosition /\ validPos cssRulesDocument endPosition
    /\ offsetOf cssRulesDocument startPosition <= offsetOf cssRulesDocument (mkPosition 0 6)
    /\ offsetOf cssRulesDocument (mkPosition 0 6) <= offsetOf cssRulesDocument endPosition
    /\ parsePartialStylesheet cssRulesDocument (mkPosition 0 6) rejectingParser 8
       = Some (match rejectingParser
                       (newStream cssRulesDocument (Some startPosition)
                          (Some (startPosition, endPosition))) with
               | Returned tree => Returned (Some tree)
               | Thrown _ => Returned None
               end).
Proof.
  apply (parsePartialStylesheet_range cssRulesDocument (mkPosition 0 6) rejectingParser 8).
  - split; vm_compute; lia.
  - discriminate.
  - vm_compute. lia.
Defined.

(** ** Embedded stylesheets *)

(** X27: [getEmbeddedCssNodeIfAny] hands the inner range of the node to
    the stylesheet parser exactly when the node is a [style] element with
    a close tag and the position lies strictly after its open tag and
    strictly before its close tag; in every other case it returns
    nothing.  The additional test [innerRange.contains(position)] never
    changes the outcome. *)
Theorem getEmbeddedCssNodeIfAny_inside (parseStylesheet : Parser) (doc : TextDocument)
    (currentNode : option Node) (position : Position) :
  getEmbeddedCssNodeIfAny parseStylesheet doc currentNode position
  = match currentNode with
    | Some node =>
        match close node with
        | Some closeTag =>
            if String.eqb (name node) "style"
               && isBefore (tok_end (open node)) position
               && isAfter (tok_start closeTag) position
            then
              match parseStylesheet
                      (newStream doc (Some (tok_end (open node)))
                         (Some (tok_end (open node), tok_start closeTag))) with
              | Returned tree => Returned (Some tree)
              | Thrown e => Thrown e
              end
            else Returned None
        | None => Returned None
        end
    | None => Returned None
    end.
Proof.
  unfold getEmbeddedCssNodeIfAny, getInnerRange.
  destruct currentNode as [node|]; [|reflexivity].
  destruct (close node) as [closeTag|]; [|reflexivity].
  destruct (String.eqb (name node) "style"); cbn [andb];
    [|now rewrite andb_false_r].
  destruct (isBefore (tok_end (open node)) position) eqn:Hopen; cbn [andb];
    [|now rewrite andb_false_r].
  destruct (isAfter (tok_start closeTag) position) eqn:Hclose;
    [|now rewrite andb_false_r].
  assert (Hrange : mkRange (tok_end (open node)) (tok_start closeTag)
                   = (tok_end (open node), tok_start closeTag)).
  { unfold mkRange.
    destruct (isBefore (tok_start closeTag) (tok_end (open node))) eqn:Hb; [|reflexivity].
    apply isAfter_gt in Hclose. apply isBefore_lt in Hopen, Hb, Hclose. lia. }
  rewrite Hrange.
  assert (Hin : rangeContains (tok_end (open node), tok_start closeTag) position = true).
  { unfold rangeContains. cbn [fst snd]. apply andb_true_iff. split.
    - apply isAfterOrEqual_ge, isBeforeOrEqual_le. apply isBefore_lt in Hopen. lia.
    - apply isBeforeOrEqual_le. apply isAfter_gt, isBefore_lt in Hclose. lia. }
  rewrite Hin. cbn [andb]. destruct (parseStylesheet _); reflexivity.
Qed.

(** X28: in a stylesheet document [getCssPropertyFromDocument] never
    throws: when the stylesheet parser fails it shows the error message
    and returns nothing. *)
Theorem getCssPropertyFromDocument_stylesheet (parse parseStylesheet : Parser)
    (doc : TextDocument) (position : Position) :
  isStyleSheet (languageId doc) = true ->
  match parseStylesheet (newStream doc None None) with
  | Returned tree =>
      getCssPropertyFromDocument parse parseStylesheet doc position
      = (Returned (asProperty (getNode (Some tree) position true)), [])
  | Thrown _ =>
      getCssPropertyFromDocument parse parseStylesheet doc position
      = (Returned None, ["Emmet: Failed to parse the file"])
  end.
Proof.
  intros Hcss. unfold getCssPropertyFromDocument, parseDocument. rewrite Hcss.
  destruct (parseStylesheet (newStream doc None None)) as [tree|e]; reflexivity.
Qed.

Lemma getCssPropertyFromDocument_stylesheet_witness :
  getCssPropertyFromDocument rejectingParser rejectingParser cssRulesDocument (mkPosition 0 2)
  = (Returned None, ["Emmet: Failed to parse the file"]).
Proof.
  apply (getCssPropertyFromDocument_stylesheet rejectingParser rejectingParser
           cssRulesDocument (mkPosition 0 2)).
  reflexivity.
Defined.

(** ** Template scripts whose attributes can be tested *)

(** X29: on a script tag whose attributes can be tested, [getHtmlNode]
    resolves into the template body: when the node located by [getNode]
    is a script tag with a [type] attribute of an allowed template type,
    every [type] attribute before it has a value, and the position lies
    strictly after the end of the open tag and strictly before the start
    of the close tag, [getHtmlNode] parses the body as markup and returns
    the node that [getNode] finds in it, a node of the body's tree that
    contains the position; when nothing is found there, or when the parse
    of the body throws, it returns the script node. *)
Theorem getHtmlNode_template_script (parse : Parser) (doc : TextDocument)
    (root : option Node) (position : Position) (incl : bool)
    (currentNode : Node) (closeTag : Token) (pre post : list Attribute)
    (x : Attribute) (value : string) :
  getNode root position incl = Some currentNode ->
  name currentNode = "script" ->
  attributes currentNode = Some (pre ++ x :: post) ->
  Forall (fun y => attr_name y = "type" -> attr_value y <> None) pre ->
  attr_name x = "type" -> attr_value x = Some value ->
  In value allowedMimeTypesInScriptTag ->
  close currentNode = Some closeTag ->
  isAfter position (tok_end (open currentNode)) = true ->
  isBefore position (tok_start closeTag) = true ->
  match parse (newStream doc (Some (tok_end (open currentNode)))
                 (Some (mkRange (tok_end (open currentNode)) (tok_start closeTag)))) with
  | Returned scriptInnerNodes =>
      match getNode (Some scriptInnerNodes) position incl with
      | Some inner =>
          getHtmlNode parse doc root position incl = Returned (Some inner)
          /\ containsPosition position incl inner = true
          /\ exists d, occurs (S d) inner scriptInnerNodes
      | None => getHtmlNode parse doc root position incl = Returned (Some currentNode)
      end
  | Thrown _ => getHtmlNode parse doc root position incl = Returned (Some currentNode)
  end.
Proof.
  intros Hfound Hname Hattrs Hpre Htype Hvalue Hallowed Hclose Hafter Hbefore.
  pose proof (someTemplateType_intro pre x post value Hpre Htype Hvalue Hallowed) as Hts.
  unfold getHtmlNode, isTemplateScript.
  rewrite Hfound, Hname, String.eqb_refl, Hattrs, Hts. cbn [bind].
  rewrite Hclose, Hafter, Hbefore. cbn [andb].
  destruct (parse _) as [inner|e]; [|reflexivity]. cbn [bind].
  destruct (getNode (Some inner) position incl) as [m|] eqn:Hm; [|reflexivity].
  split; [reflexivity|]. now apply getNode_sound.
Qed.

Lemma getHtmlNode_template_script_witness :
  getHtmlNode templateBodyParser templateDocument (Some templateRoot) (onLine0 33) false
  = Returned (Some templateDivNode).
Proof.
  pose proof (getHtmlNode_template_script templateBodyParser templateDocument
                (Some templateRoot) (onLine0 33) false templateScriptNode
                (mkToken (onLine0 41) (onLine0 50))
                [] [] (mkAttribute "type" (Some "text/ng-template")) "text/ng-template"
                eq_refl eq_refl eq_refl ltac:(constructor) eq_refl eq_refl
                ltac:(simpl; tauto) eq_refl eq_refl eq_refl) as H.
  simpl in H. exact (proj1 H).
Defined.
